(** * SketchUp Ruby debugger: the debug server (DebugServer/Server.cpp)

    A shallow embedding of [Server::Impl] and of the public [Server]
    operations, followed by the properties of the breakpoint store, of the
    trace hook and of the source-window and frame-cursor queries.

    Conventions.
    - [size_t] is an [N] below [2^64]; every C++ operation that can wrap is
      written with [size_t_wrap].
    - A [std::map] is the list of its entries in iteration order, that is in
      ascending key order; [StdMap.find], [StdMap.insert] and
      [StdMap.subscript_set] walk that list with the key comparison, as the
      tree search does.
    - The trace hook runs on the engine's thread and blocks inside the UI
      collaborator's [Break]; it is split at that call into the part that
      runs up to the call ([TraceFunc]) and the part that runs when the call
      returns ([TraceFunc_resume]).  A state of the model is a state of
      [Server::Impl] between two such atomic pieces. *)

From Stdlib Require Import NArith ZArith List String Ascii Bool Lia.
From Stdlib Require Import OrderedTypeEx Sorted Permutation.
Import ListNotations.

Local Open Scope string_scope.
Local Open Scope N_scope.
Local Open Scope list_scope.

Set Implicit Arguments.

(* ------------------------------------------------------------------ *)
(** ** Machine integers *)

Definition SIZE_MOD : N := 2 ^ 64.
Definition SIZE_MAX : N := SIZE_MOD - 1.
Definition INT_MAX : Z := (2 ^ 31 - 1)%Z.

(** Unsigned arithmetic on [size_t] wraps around. *)
Definition size_t_wrap (n : N) : N := n mod SIZE_MOD.

(** Conversion of an [int] to [size_t] (modulo [2^64]). *)
Definition size_t_of_int (z : Z) : N := Z.to_N (z mod Z.of_N SIZE_MOD).

(** Conversion of a [long] length to [int], as in [int n = RARRAY_LEN(v)]:
    the low 32 bits, read as a signed number. *)
Definition int_of_long (z : Z) : Z :=
  let r := (z mod 2 ^ 32)%Z in
  if (r <? 2 ^ 31)%Z then r else (r - 2 ^ 32)%Z.

(** [v.size()] of a [std::vector]. *)
Definition size {A} (v : list A) : N := N.of_nat (List.length v).

(* ------------------------------------------------------------------ *)
(** ** [std::map] as an ordered association list *)

(** The key comparison of a [std::map] ([std::less<Key>]). *)
Class KeyOrd (K : Type) := kcmp : K -> K -> comparison.

#[export] Instance KeyOrd_N : KeyOrd N := N.compare.
#[export] Instance KeyOrd_string : KeyOrd string := String.compare.

Module StdMap.
Section Ops.
Context {K V : Type} `{KeyOrd K}.

Definition t := list (K * V).

(** [m.find(k)]: [None] stands for [m.end()]. *)
Fixpoint find (k : K) (m : t) : option V :=
  match m with
  | [] => None
  | (k', v) :: m' =>
      match kcmp k k' with
      | Lt => None
      | Eq => Some v
      | Gt => find k m'
      end
  end.

(** [m.insert(std::make_pair(k, v))]: an entry whose key is already
    present is left as it is. *)
Fixpoint insert (k : K) (v : V) (m : t) : t :=
  match m with
  | [] => [(k, v)]
  | (k', v') :: m' =>
      match kcmp k k' with
      | Lt => (k, v) :: m
      | Eq => m
      | Gt => (k', v') :: insert k v m'
      end
  end.

(** [m[k] = v], also the write-back of a reference obtained by [m[k]]. *)
Fixpoint subscript_set (k : K) (v : V) (m : t) : t :=
  match m with
  | [] => [(k, v)]
  | (k', v') :: m' =>
      match kcmp k k' with
      | Lt => (k, v) :: m
      | Eq => (k, v) :: m'
      | Gt => (k', v') :: subscript_set k v m'
      end
  end.

(** Keys in iteration order. *)
Definition keys (m : t) : list K := map fst m.

(** Strictly ascending keys: the representation invariant. *)
Definition key_below (k : K) (e : K * V) : bool :=
  match kcmp k (fst e) with Lt => true | _ => false end.

Fixpoint sorted (m : t) : bool :=
  match m with
  | [] => true
  | (k, _) :: m' => forallb (key_below k) m' && sorted m'
  end.
End Ops.
Arguments t : clear implicits.
End StdMap.

(* ------------------------------------------------------------------ *)
(** ** Data model (Common/BreakPoint.h, Common/StackFrame.h) *)

(** Modelled from the spec: Common/BreakPoint.h is not among the sources.
    The spec gives a breakpoint an index (non-zero once assigned), a file
    (a path or a fragment of one) and a 1-based line; Server.cpp compares
    the index and the line with [size_t] values and uses the line as the
    [size_t] key of [breakpoints_]. *)
Record BreakPoint := mkBreakPoint {
  index : N;
  file : string;
  line : N
}.

(** A Ruby [VALUE]: an opaque machine word. *)
Definition VALUE := N.

(** Modelled from the spec: Common/StackFrame.h is not among the sources.
    The spec gives a frame a display name and the binding of its lexical
    scope; [DebugInspectorFunc] assigns exactly these two fields. *)
Record StackFrame := mkStackFrame {
  name : string;
  binding : VALUE
}.

Definition set_file (bp : BreakPoint) (f : string) : BreakPoint :=
  mkBreakPoint (index bp) f (line bp).

Definition set_index (bp : BreakPoint) (i : N) : BreakPoint :=
  mkBreakPoint i (file bp) (line bp).

(* ------------------------------------------------------------------ *)
(** ** Case-insensitive search (FindSubstringCaseInsensitive.h) *)

Definition to_upper (c : ascii) : ascii :=
  let n := N_of_ascii c in
  if (97 <=? n) && (n <=? 122) then ascii_of_N (n - 32) else c.

Definition char_eq_ci (a b : ascii) : bool :=
  Ascii.eqb (to_upper a) (to_upper b).

(** [needle] is, up to letter case, a prefix of [hay]. *)
Fixpoint prefix_ci (needle hay : string) : bool :=
  match needle, hay with
  | EmptyString, _ => true
  | String _ _, EmptyString => false
  | String a n', String b h' => char_eq_ci a b && prefix_ci n' h'
  end.

Fixpoint find_ci_from (hay needle : string) (pos : Z) : Z :=
  if prefix_ci needle hay then pos
  else match hay with
       | EmptyString => (-1)%Z
       | String _ hay' => find_ci_from hay' needle (pos + 1)%Z
       end.

(** Modelled from the spec: the header FindSubstringCaseInsensitive.h is
    not among the sources.  The caller tests the result with [>= 0]; the
    spec says that a path matches when its text contains the breakpoint's
    file text as a case-insensitive substring.  The model returns the
    position of the first such occurrence and [-1] when there is none;
    letter case is that of the ASCII letters. *)
Definition FindSubstringCaseInsensitive (str1 str2 : string) : Z :=
  find_ci_from str1 str2 0%Z.

(** The spec's words: [hay] contains [needle] as a case-insensitive
    substring. *)
Fixpoint upcase (s : string) : string :=
  match s with
  | EmptyString => EmptyString
  | String c s' => String (to_upper c) (upcase s')
  end.

Definition contains_ci (hay needle : string) : Prop :=
  exists pre mid post,
    hay = (pre ++ mid ++ post)%string /\ upcase mid = upcase needle.

(* ------------------------------------------------------------------ *)
(** ** [Server::Impl] *)

(** What the UI collaborator is told when the hook halts: the two
    overloads of [IDebuggerUI::Break]. *)
Inductive UICall :=
| Break_breakpoint (bp : BreakPoint)
| Break_line (file_path : string) (line_no : N).

(** The event names the hook interns. *)
Inductive EventId :=
| id_line | id_class | id_end | id_call
| id_return | id_c_call | id_c_return | id_raise.

(** What the engine hands to the hook: the trace argument (event, path,
    line number as an [int]) and the live backtrace the debug inspector
    would report at that instant, one (display string, binding) pair per
    frame, innermost first. *)
Record TraceArg := mkTraceArg {
  tracearg_event : EventId;
  tracearg_path : string;
  tracearg_lineno : Z;
  tracearg_backtrace : list (string * VALUE)
}.

Record Impl := mkImpl {
  unresolved_breakpoints_ : list BreakPoint;
  breakpoints_ : StdMap.t N (StdMap.t string BreakPoint);
  last_breakpoint_index : N;
  (** The Ruby hash [SCRIPT_LINES__], filled by the engine: entries in the
      hash's iteration order. *)
  script_lines_hash_ : list (string * list string);
  script_lines_ : StdMap.t string (list string);
  is_stopped_ : bool;
  break_at_next_line_ : bool;
  frames_ : list StackFrame;
  active_frame_index_ : N;
  last_break_file_path_ : string;
  last_break_line_ : N
}.

(** [Impl::Impl()]. *)
Definition Impl_new : Impl :=
  mkImpl [] [] 0 [] [] false false [] 0 "" 0.

Definition with_unresolved_breakpoints_ (s : Impl) x :=
  mkImpl x (breakpoints_ s) (last_breakpoint_index s) (script_lines_hash_ s)
    (script_lines_ s) (is_stopped_ s) (break_at_next_line_ s) (frames_ s)
    (active_frame_index_ s) (last_break_file_path_ s) (last_break_line_ s).
Definition with_breakpoints_ (s : Impl) x :=
  mkImpl (unresolved_breakpoints_ s) x (last_breakpoint_index s)
    (script_lines_hash_ s) (script_lines_ s) (is_stopped_ s)
    (break_at_next_line_ s) (frames_ s) (active_frame_index_ s)
    (last_break_file_path_ s) (last_break_line_ s).
Definition with_last_breakpoint_index (s : Impl) x :=
  mkImpl (unresolved_breakpoints_ s) (breakpoints_ s) x (script_lines_hash_ s)
    (script_lines_ s) (is_stopped_ s) (break_at_next_line_ s) (frames_ s)
    (active_frame_index_ s) (last_break_file_path_ s) (last_break_line_ s).
Definition with_script_lines_hash_ (s : Impl) x :=
  mkImpl (unresolved_breakpoints_ s) (breakpoints_ s) (last_breakpoint_index s)
    x (script_lines_ s) (is_stopped_ s) (break_at_next_line_ s) (frames_ s)
    (active_frame_index_ s) (last_break_file_path_ s) (last_break_line_ s).
Definition with_script_lines_ (s : Impl) x :=
  mkImpl (unresolved_breakpoints_ s) (breakpoints_ s) (last_breakpoint_index s)
    (script_lines_hash_ s) x (is_stopped_ s) (break_at_next_line_ s)
    (frames_ s) (active_frame_index_ s) (last_break_file_path_ s)
    (last_break_line_ s).
Definition with_is_stopped_ (s : Impl) x :=
  mkImpl (unresolved_breakpoints_ s) (breakpoints_ s) (last_breakpoint_index s)
    (script_lines_hash_ s) (script_lines_ s) x (break_at_next_line_ s)
    (frames_ s) (active_frame_index_ s) (last_break_file_path_ s)
    (last_break_line_ s).
Definition with_break_at_next_line_ (s : Impl) x :=
  mkImpl (unresolved_breakpoints_ s) (breakpoints_ s) (last_breakpoint_index s)
    (script_lines_hash_ s) (script_lines_ s) (is_stopped_ s) x (frames_ s)
    (active_frame_index_ s) (last_break_file_path_ s) (last_break_line_ s).
Definition with_frames_ (s : Impl) x :=
  mkImpl (unresolved_breakpoints_ s) (breakpoints_ s) (last_breakpoint_index s)
    (script_lines_hash_ s) (script_lines_ s) (is_stopped_ s)
    (break_at_next_line_ s) x (active_frame_index_ s)
    (last_break_file_path_ s) (last_break_line_ s).
Definition with_active_frame_index_ (s : Impl) x :=
  mkImpl (unresolved_breakpoints_ s) (breakpoints_ s) (last_breakpoint_index s)
    (script_lines_hash_ s) (script_lines_ s) (is_stopped_ s)
    (break_at_next_line_ s) (frames_ s) x (last_break_file_path_ s)
    (last_break_line_ s).
Definition with_last_break_file_path_ (s : Impl) x :=
  mkImpl (unresolved_breakpoints_ s) (breakpoints_ s) (last_breakpoint_index s)
    (script_lines_hash_ s) (script_lines_ s) (is_stopped_ s)
    (break_at_next_line_ s) (frames_ s) (active_frame_index_ s) x
    (last_break_line_ s).
Definition with_last_break_line_ (s : Impl) x :=
  mkImpl (unresolved_breakpoints_ s) (breakpoints_ s) (last_breakpoint_index s)
    (script_lines_hash_ s) (script_lines_ s) (is_stopped_ s)
    (break_at_next_line_ s) (frames_ s) (active_frame_index_ s)
    (last_break_file_path_ s) x.

(** [Server::Impl::ClearBreakData]. *)
Definition ClearBreakData (s : Impl) : Impl :=
  let s := with_frames_ s [] in
  let s := with_is_stopped_ s false in
  let s := with_last_break_file_path_ s "" in
  with_last_break_line_ s 0.

(** [Server::Impl::GetBreakPoint]: [None] is the null pointer. *)
Definition GetBreakPoint (s : Impl) (file : string) (line : N)
  : option BreakPoint :=
  match StdMap.find line (breakpoints_ s) with
  | Some by_file => StdMap.find file by_file
  | None => None
  end.

(** [EachKeyValFunc]: a file that is not yet in [script_lines_] gets the
    first [n] lines of the engine's array, [n] being its length as an
    [int]; a file that is already there is left as it is.  Keys and lines
    are taken to be Ruby strings without NUL, on which [StringValueCStr]
    does not raise. *)
Definition EachKeyValFunc (key : string) (val : list string)
  (script_lines : StdMap.t string (list string))
  : StdMap.t string (list string) :=
  match StdMap.find key script_lines with
  | None =>
      let n := int_of_long (Z.of_nat (List.length val)) in
      StdMap.subscript_set key (firstn (Z.to_nat n) val) script_lines
  | Some _ => script_lines
  end.

(** [Server::Impl::ReadScriptLinesHash]: [rb_hash_foreach] over the hash. *)
Definition ReadScriptLinesHash (s : Impl) : Impl :=
  with_script_lines_ s
    (fold_left (fun m kv => EachKeyValFunc (fst kv) (snd kv) m)
       (script_lines_hash_ s) (script_lines_ s)).

(** The loop of [Server::Impl::ResolveBreakPoint] over
    [script_lines_.cbegin() .. cend()]. *)
Fixpoint ResolveBreakPoint_from (it : list (string * list string))
  (bp : BreakPoint) : bool * BreakPoint :=
  match it with
  | [] => (false, bp)
  | (file_path, lines) :: it' =>
      if (0 <=? FindSubstringCaseInsensitive file_path (file bp))%Z then
        if line bp <=? size lines then (true, set_file bp file_path)
        else ResolveBreakPoint_from it' bp
      else ResolveBreakPoint_from it' bp
  end.

(** [Server::Impl::ResolveBreakPoint]: the result and the breakpoint as the
    call leaves it. *)
Definition ResolveBreakPoint (s : Impl) (bp : BreakPoint)
  : bool * BreakPoint :=
  ResolveBreakPoint_from (script_lines_ s) bp.

(** [Server::Impl::AddBreakPoint]: the state and the breakpoint as the call
    leaves it (the argument is a reference). *)
Definition Impl_AddBreakPoint (s : Impl) (bp : BreakPoint)
  (is_resolved : bool) : Impl * BreakPoint :=
  let '(s, bp) :=
    if index bp =? 0 then
      let i := size_t_wrap (last_breakpoint_index s + 1) in
      (with_last_breakpoint_index s i, set_index bp i)
    else (s, bp) in
  if is_resolved then
    let bp_map :=
      match StdMap.find (line bp) (breakpoints_ s) with
      | Some m => m
      | None => []
      end in
    let bp_map := StdMap.insert (file bp) bp bp_map in
    (with_breakpoints_ s
       (StdMap.subscript_set (line bp) bp_map (breakpoints_ s)), bp)
  else
    (with_unresolved_breakpoints_ s (unresolved_breakpoints_ s ++ [bp]), bp).

(** The loop of [Server::Impl::ResolveBreakPoints] over the unresolved
    vector: the state after the resolved ones were added, and the entries
    that stay in the vector. *)
Fixpoint ResolveBreakPoints_from (s : Impl) (it : list BreakPoint)
  : Impl * list BreakPoint :=
  match it with
  | [] => (s, [])
  | bp :: it' =>
      let '(resolved, bp') := ResolveBreakPoint s bp in
      if resolved then
        ResolveBreakPoints_from (fst (Impl_AddBreakPoint s bp' true)) it'
      else
        let '(s', kept) := ResolveBreakPoints_from s it' in
        (s', bp :: kept)
  end.

(** [Server::Impl::ResolveBreakPoints]. *)
Definition ResolveBreakPoints (s : Impl) : Impl :=
  let s := ReadScriptLinesHash s in
  let '(s', kept) := ResolveBreakPoints_from s (unresolved_breakpoints_ s) in
  with_unresolved_breakpoints_ s' kept.

(** [DebugInspectorFunc]: one frame per backtrace entry, up to the
    backtrace length as an [int]. *)
Definition DebugInspectorFunc (di : list (string * VALUE))
  (frames : list StackFrame) : list StackFrame :=
  let bt_count := int_of_long (Z.of_nat (List.length di)) in
  frames ++
  map (fun e => mkStackFrame (fst e) (snd e)) (firstn (Z.to_nat bt_count) di).

(** [Server::Impl::GetStackFrames]. *)
Definition Impl_GetStackFrames (di : list (string * VALUE))
  : list StackFrame :=
  DebugInspectorFunc di [].

(** [Server::Impl::TraceFunc] up to the point where it either returns
    ([None]) or calls the UI collaborator's [Break] and blocks ([Some]). *)
Definition TraceFunc (server : Impl) (trace_arg : TraceArg)
  : Impl * option UICall :=
  let server := ClearBreakData server in
  let file_path := tracearg_path trace_arg in
  let line := tracearg_lineno trace_arg in
  match tracearg_event trace_arg with
  | id_line =>
      if break_at_next_line_ server then
        let server := with_break_at_next_line_ server false in
        let server :=
          with_frames_ server
            (Impl_GetStackFrames (tracearg_backtrace trace_arg)) in
        let server := with_last_break_file_path_ server file_path in
        let server := with_last_break_line_ server (size_t_of_int line) in
        let server := with_is_stopped_ server true in
        (server, Some (Break_line file_path (size_t_of_int line)))
      else
        let server :=
          if negb (size (unresolved_breakpoints_ server) =? 0)
          then ResolveBreakPoints server else server in
        match GetBreakPoint server file_path (size_t_of_int line) with
        | Some bp =>
            let server :=
              with_frames_ server
                (Impl_GetStackFrames (tracearg_backtrace trace_arg)) in
            let server := with_last_break_file_path_ server file_path in
            let server := with_last_break_line_ server (size_t_of_int line) in
            let server := with_is_stopped_ server true in
            (server, Some (Break_breakpoint bp))
        | None => (server, None)
        end
  | _ => (server, None)
  end.

(** The rest of [TraceFunc], run when [Break] returns. *)
Definition TraceFunc_resume (server : Impl) : Impl := ClearBreakData server.

(* ------------------------------------------------------------------ *)
(** ** [Server]: the public operations *)

(** [Server::Start] up to [WaitForContinue]; the hash starts empty. *)
Definition Start (s : Impl) : Impl :=
  let s := with_script_lines_hash_ s [] in
  with_is_stopped_ s true.

(** The rest of [Server::Start], run when [WaitForContinue] returns. *)
Definition Start_resume (s : Impl) : Impl := ClearBreakData s.

(** [Server::AddBreakPoint]: the result, the state, and the caller's
    breakpoint as the call leaves it. *)
Definition AddBreakPoint (s : Impl) (bp : BreakPoint)
  : bool * Impl * BreakPoint :=
  let s := ReadScriptLinesHash s in
  let '(file_resolved, bp) := ResolveBreakPoint s bp in
  let '(s, bp) := Impl_AddBreakPoint s bp file_resolved in
  (true, s, bp).

(** Inner loop of [Server::RemoveBreakPoint]: erase the first entry of one
    per-line map whose breakpoint has the index. *)
Fixpoint erase_by_index (index0 : N) (m : StdMap.t string BreakPoint)
  : option (StdMap.t string BreakPoint) :=
  match m with
  | [] => None
  | (f, bp) :: m' =>
      if index bp =? index0 then Some m'
      else option_map (cons (f, bp)) (erase_by_index index0 m')
  end.

(** Outer loop of [Server::RemoveBreakPoint] over [breakpoints_]: a
    per-line map left empty is erased with its key. *)
Fixpoint remove_resolved (index0 : N)
  (bps : StdMap.t N (StdMap.t string BreakPoint))
  : option (StdMap.t N (StdMap.t string BreakPoint)) :=
  match bps with
  | [] => None
  | (l, m) :: bps' =>
      match erase_by_index index0 m with
      | Some [] => Some bps'
      | Some m' => Some ((l, m') :: bps')
      | None => option_map (cons (l, m)) (remove_resolved index0 bps')
      end
  end.

(** Second loop of [Server::RemoveBreakPoint], over the unresolved
    vector. *)
Fixpoint remove_unresolved (index0 : N) (v : list BreakPoint)
  : option (list BreakPoint) :=
  match v with
  | [] => None
  | bp :: v' =>
      if index0 =? index bp then Some v'
      else option_map (cons bp) (remove_unresolved index0 v')
  end.

(** [Server::RemoveBreakPoint]. *)
Definition RemoveBreakPoint (s : Impl) (index0 : N) : bool * Impl :=
  match remove_resolved index0 (breakpoints_ s) with
  | Some bps => (true, with_breakpoints_ s bps)
  | None =>
      match remove_unresolved index0 (unresolved_breakpoints_ s) with
      | Some v => (true, with_unresolved_breakpoints_ s v)
      | None => (false, s)
      end
  end.

(** The resolved breakpoints in the iteration order of the two nested
    maps: by line, then by file. *)
Definition resolved_breakpoints (s : Impl) : list BreakPoint :=
  flat_map (fun e => map snd (snd e)) (breakpoints_ s).

(** [std::sort] with [SortBreakPoints]: ascending index.  Breakpoints
    with equal indices, which [std::sort] may leave in any order, keep
    their relative order here: a breakpoint goes in front of the first
    one whose index is not smaller than its own. *)
Fixpoint sort_insert (bp : BreakPoint) (l : list BreakPoint)
  : list BreakPoint :=
  match l with
  | [] => [bp]
  | bp' :: l' =>
      if index bp' <? index bp then bp' :: sort_insert bp l'
      else bp :: l
  end.
Definition sort_by_index (l : list BreakPoint) : list BreakPoint :=
  fold_right sort_insert [] l.

(** [Server::GetBreakPoints]. *)
Definition GetBreakPoints (s : Impl) : list BreakPoint * Impl :=
  let s := ResolveBreakPoints s in
  (sort_by_index (resolved_breakpoints s ++ unresolved_breakpoints_ s), s).

(** [Server::IsStopped]. *)
Definition IsStopped (s : Impl) : bool := is_stopped_ s.

Definition cannot_be_evaluated : string := "Expression cannot be evaluated".

(** [Server::EvaluateExpression]; [eval] is the engine's protected
    evaluation followed by the conversion to a display string
    ([EvaluateRubyExpression]). *)
Definition EvaluateExpression (eval : string -> VALUE -> string)
  (s : Impl) (expr : string) : string :=
  if negb (size (frames_ s) =? 0)
     && (active_frame_index_ s <? size (frames_ s))
  then
    match nth_error (frames_ s) (N.to_nat (active_frame_index_ s)) with
    | Some cur_frame => eval expr (binding cur_frame)
    | None => ""
    end
  else cannot_be_evaluated.

(** [Server::GetStackFrames]. *)
Definition GetStackFrames (s : Impl) : list StackFrame := frames_ s.

(** [Server::ShiftActiveFrame]. *)
Definition ShiftActiveFrame (s : Impl) (shift_up : bool) : Impl :=
  if IsStopped s then
    if shift_up then
      if size_t_wrap (active_frame_index_ s + 1) <? size (frames_ s)
      then with_active_frame_index_ s
             (size_t_wrap (active_frame_index_ s + 1))
      else s
    else
      if 0 <? active_frame_index_ s
      then with_active_frame_index_ s (active_frame_index_ s - 1)
      else s
  else s.

(** [Server::GetActiveFrameIndex]. *)
Definition GetActiveFrameIndex (s : Impl) : N := active_frame_index_ s.

(** [Server::Step]. *)
Definition Step (s : Impl) : Impl :=
  if IsStopped s then with_break_at_next_line_ s true else s.

(** The [for] loop of [Server::GetCodeLines]: [count] iterations from
    index [i]. *)
Fixpoint code_lines_from (lines_vec : list string) (i : N) (count : nat)
  : list (N * string) :=
  match count with
  | O => []
  | S count' =>
      (i + 1, nth (N.to_nat i) lines_vec "")
        :: code_lines_from lines_vec (i + 1) count'
  end.

(** [Server::GetCodeLines]: the lines and the state (the registry is
    refreshed). *)
Definition GetCodeLines (s : Impl) (beg_line end_line : N)
  : list (N * string) * Impl :=
  if IsStopped s then
    let s := ReadScriptLinesHash s in
    match StdMap.find (last_break_file_path_ s) (script_lines_ s) with
    | Some lines_vec =>
        let expand_lines := 5 in
        let beg_line :=
          if beg_line =? 0 then
            let b := last_break_line_ s in
            if expand_lines <? b then b - expand_lines else 1
          else beg_line in
        let end_line :=
          if end_line =? 0
          then size_t_wrap (last_break_line_ s + expand_lines)
          else end_line in
        let end_line :=
          if size_t_wrap (size lines_vec + 1) <=? end_line
          then size lines_vec else end_line in
        if beg_line <=? end_line then
          (code_lines_from lines_vec (beg_line - 1)
             (N.to_nat (end_line - (beg_line - 1))), s)
        else ([], s)
    | None => ([], s)
    end
  else ([], s).

(** [Server::GetBreakLineNumber]. *)
Definition GetBreakLineNumber (s : Impl) : N := last_break_line_ s.

(* ------------------------------------------------------------------ *)
(** ** Vocabulary of the properties *)

(** A registry entry against which a breakpoint may resolve: its path
    contains the breakpoint's file text up to letter case, and it has at
    least as many lines as the breakpoint's line number. *)
Definition qualifies (bp : BreakPoint) (e : string * list string) : Prop :=
  contains_ci (fst e) (file bp) /\ line bp <= size (snd e).


(** The (file, line) pair a breakpoint stands at. *)
Definition location (bp : BreakPoint) : string * N := (file bp, line bp).

(** Representation invariant of [breakpoints_]: both levels of the map are
    in strictly ascending key order, and every breakpoint is filed under
    its own line and file. *)
Definition entry_ok (l : N) (e : string * BreakPoint) : bool :=
  String.eqb (file (snd e)) (fst e) && (line (snd e) =? l).

Definition by_file_ok (e : N * StdMap.t string BreakPoint) : bool :=
  StdMap.sorted (snd e) && forallb (entry_ok (fst e)) (snd e).

Definition store_ok (bps : StdMap.t N (StdMap.t string BreakPoint)) : bool :=
  StdMap.sorted bps && forallb by_file_ok bps.

(* ------------------------------------------------------------------ *)
(** ** The server as a transition system *)

(** The state-changing calls a command thread can make. *)
Inductive Command :=
| CmdAddBreakPoint (bp : BreakPoint)
| CmdRemoveBreakPoint (index0 : N)
| CmdGetBreakPoints
| CmdShiftActiveFrame (shift_up : bool)
| CmdStep
| CmdGetCodeLines (beg_line end_line : N).

Definition run_command (s : Impl) (c : Command) : Impl :=
  match c with
  | CmdAddBreakPoint bp => snd (fst (AddBreakPoint s bp))
  | CmdRemoveBreakPoint index0 => snd (RemoveBreakPoint s index0)
  | CmdGetBreakPoints => snd (GetBreakPoints s)
  | CmdShiftActiveFrame shift_up => ShiftActiveFrame s shift_up
  | CmdStep => Step s
  | CmdGetCodeLines beg_line end_line => snd (GetCodeLines s beg_line end_line)
  end.

(** What can happen to the server: [Start] reaches its wait; a command
    thread makes a call; the engine replaces the contents of
    [SCRIPT_LINES__]; the engine delivers a trace event and the hook runs
    up to its return or its blocking [Break]; the UI lets the blocked call
    return, after which [Start] or the hook clears the break data. *)
Inductive Event :=
| EvStart
| EvCommand (c : Command)
| EvEngineLoads (hash : list (string * list string))
| EvTrace (trace_arg : TraceArg)
| EvContinue.

Definition handle (s : Impl) (e : Event) : Impl :=
  match e with
  | EvStart => Start s
  | EvCommand c => run_command s c
  | EvEngineLoads hash => with_script_lines_hash_ s hash
  | EvTrace trace_arg => fst (TraceFunc s trace_arg)
  | EvContinue => ClearBreakData s
  end.

Definition run (s : Impl) (events : list Event) : Impl :=
  fold_left handle events s.

(** The states the server can be in: those a history of events leads to
    from the freshly constructed [Impl]. *)
Definition reachable (s : Impl) : Prop :=
  exists events, s = run Impl_new events.

(** The part of the state that describes the current halt. *)
Definition halt_view (s : Impl)
  : bool * bool * list StackFrame * N * string * N :=
  (is_stopped_ s, break_at_next_line_ s, frames_ s, active_frame_index_ s,
   last_break_file_path_ s, last_break_line_ s).

(** Facts that hold of the halt data in every reachable state: outside a
    halt there are no frames and no break location, and neither the frame
    count nor the cursor exceeds [INT_MAX]. *)
Definition halt_ok (s : Impl) : Prop :=
  (is_stopped_ s = false ->
   frames_ s = [] /\ last_break_file_path_ s = "" /\ last_break_line_ s = 0) /\
  (Z.of_N (size (frames_ s)) <= INT_MAX)%Z /\
  (Z.of_N (active_frame_index_ s) <= INT_MAX)%Z.

(** Facts that hold of the registry in every reachable state: ascending
    paths, and no file longer than [INT_MAX] lines. *)
Definition registry_ok (script_lines : StdMap.t string (list string))
  : Prop :=
  StdMap.sorted script_lines = true /\
  Forall (fun e => (Z.of_N (size (snd e)) <= INT_MAX)%Z) script_lines.

Definition Inv (s : Impl) : Prop :=
  halt_ok s /\ registry_ok (script_lines_ s) /\
  store_ok (breakpoints_ s) = true.

(** A list of breakpoints without the first one that has the index. *)
Fixpoint remove_first (index0 : N) (l : list BreakPoint) : list BreakPoint :=
  match l with
  | [] => []
  | bp :: l' =>
      if index bp =? index0 then l' else bp :: remove_first index0 l'
  end.

(** A history of calls to the breakpoint store. *)
Inductive StoreOp :=
| OpAdd (bp : BreakPoint)
| OpRemove (index0 : N).

Definition arrives_unindexed (op : StoreOp) : Prop :=
  match op with
  | OpAdd bp => index bp = 0
  | OpRemove _ => True
  end.

Fixpoint count_adds (ops : list StoreOp) : nat :=
  match ops with
  | [] => O
  | OpAdd _ :: ops' => S (count_adds ops')
  | OpRemove _ :: ops' => count_adds ops'
  end.

(** Runs the calls in order; the second component lists, for each
    [AddBreakPoint] call in order, the index the caller's breakpoint holds
    when the call returns. *)
Fixpoint run_ops (s : Impl) (ops : list StoreOp) : Impl * list N :=
  match ops with
  | [] => (s, [])
  | OpAdd bp :: ops' =>
      let '(_, s', bp') := AddBreakPoint s bp in
      let '(s'', assigned) := run_ops s' ops' in
      (s'', index bp' :: assigned)
  | OpRemove index0 :: ops' =>
      run_ops (snd (RemoveBreakPoint s index0)) ops'
  end.

(** Lines [lo .. hi] of a file with their 1-based numbers; empty when
    [hi < lo]. *)
Definition code_window (lines : list string) (lo hi : N)
  : list (N * string) :=
  map (fun k => (N.of_nat k, nth (k - 1) lines ""))
      (seq (N.to_nat lo) (N.to_nat (hi + 1 - lo))).

(** The first and last line of the window [GetCodeLines] is asked for,
    given the break line and the file's line count: an argument of 0
    stands for five lines before, respectively after, the break line, and
    the window ends at the last line of the file at the latest. *)
Definition window_begin (break_line beg_line : N) : N :=
  if beg_line =? 0 then N.max 1 (break_line - 5) else beg_line.

Definition window_end (line_count break_line end_line : N) : N :=
  N.min line_count (if end_line =? 0 then break_line + 5 else end_line).

(* ------------------------------------------------------------------ *)
(** ** Vocabulary of the further properties *)

(** The value the engine's hash holds for a path: that of the first entry
    with this key in iteration order. *)
Fixpoint hash_first (path : string) (hash : list (string * list string))
  : option (list string) :=
  match hash with
  | [] => None
  | (key, val) :: hash' =>
      if String.eqb key path then Some val else hash_first path hash'
  end.

(** The lines [EachKeyValFunc] copies from an engine array: as many as its
    length read as an [int]. *)
Definition copied_lines (val : list string) : list string :=
  firstn (Z.to_nat (int_of_long (Z.of_nat (List.length val)))) val.

(** A breakpoint can be resolved against a registry. *)
Definition resolvable (script_lines : StdMap.t string (list string))
  (bp : BreakPoint) : bool :=
  fst (ResolveBreakPoint_from script_lines bp).

(** A breakpoint stands in a loaded file, at a line the file has. *)
Definition in_registry (script_lines : StdMap.t string (list string))
  (bp : BreakPoint) : Prop :=
  exists lines,
    StdMap.find (file bp) script_lines = Some lines /\ line bp <= size lines.

(** All the breakpoints the server holds: the resolved ones in iteration
    order, then the unresolved ones. *)
Definition all_breakpoints (s : Impl) : list BreakPoint :=
  resolved_breakpoints s ++ unresolved_breakpoints_ s.

(** The state in which the hook looks for a breakpoint when the step flag
    is not set: break data cleared, and a resolution pass made if any
    breakpoint is unresolved. *)
Definition before_lookup (s : Impl) : Impl :=
  if negb (size (unresolved_breakpoints_ (ClearBreakData s)) =? 0)
  then ResolveBreakPoints (ClearBreakData s)
  else ClearBreakData s.

Definition line_event (path : string) (lineno : Z)
  (backtrace : list (string * VALUE)) : TraceArg :=
  mkTraceArg id_line path lineno backtrace.

(** The hook called the step notification. *)
Definition is_Break_line (call : option UICall) : bool :=
  match call with
  | Some (Break_line _ _) => true
  | _ => false
  end.

(** An event in which a command thread adds a breakpoint hands it over
    with index 0, as a front end that builds a new breakpoint does. *)
Definition unindexed_event (e : Event) : Prop :=
  match e with
  | EvCommand (CmdAddBreakPoint bp) => index bp = 0
  | _ => True
  end.

(** The indices of all the breakpoints the server holds. *)
Definition stored_indices (s : Impl) : list N :=
  map index (all_breakpoints s).

(** [l'] is [l] with some elements left out, up to order. *)
Definition submulti (l' l : list N) : Prop :=
  exists dropped, Permutation l (l' ++ dropped).

(** The stored indices are pairwise distinct and lie between 1 and the
    counter. *)
Definition indices_fresh (s : Impl) : Prop :=
  NoDup (stored_indices s) /\
  Forall (fun i => 1 <= i <= last_breakpoint_index s) (stored_indices s).

(** Some breakpoint of the list has the index. *)
Definition has_index (index0 : N) (l : list BreakPoint) : bool :=
  existsb (fun bp => index bp =? index0) l.

(** Ascending index order, as [SortBreakPoints] compares. *)
Definition index_le (bp0 bp1 : BreakPoint) : Prop := index bp0 <= index bp1.
(* ------------------------------------------------------------------ *)
(** * Properties *)

(** ** The key orders are strict total orders *)

Class KeyOrdLaws (K : Type) `{KeyOrd K} := {
  kcmp_eq : forall a b : K, kcmp a b = Eq -> a = b;
  kcmp_refl : forall a : K, kcmp a a = Eq;
  kcmp_antisym : forall a b : K, kcmp a b = CompOpp (kcmp b a);
  kcmp_trans : forall a b c : K,
      kcmp a b = Lt -> kcmp b c = Lt -> kcmp a c = Lt
}.
Arguments KeyOrdLaws K {_}.

Lemma string_compare_refl (a : string) : String.compare a a = Eq.
Proof.
  induction a as [|c a IH]; simpl; auto.
  unfold Ascii.compare. now rewrite N.compare_refl.
Qed.

Lemma string_compare_trans (a b c : string) :
  String.compare a b = Lt -> String.compare b c = Lt ->
  String.compare a c = Lt.
Proof.
  intros Hab Hbc.
  apply String_as_OT.cmp_lt. apply String_as_OT.lt_trans with b;
    now apply String_as_OT.cmp_lt.
Qed.

#[export] Instance KeyOrdLaws_N : KeyOrdLaws N.
Proof.
  split; unfold kcmp, KeyOrd_N.
  - intros a b. apply N.compare_eq_iff.
  - apply N.compare_refl.
  - intros a b. apply N.compare_antisym.
  - intros a b c. rewrite !N.compare_lt_iff. lia.
Qed.

#[export] Instance KeyOrdLaws_string : KeyOrdLaws string.
Proof.
  split; unfold kcmp, KeyOrd_string.
  - apply String.compare_eq_iff.
  - apply string_compare_refl.
  - apply String.compare_antisym.
  - apply string_compare_trans.
Qed.

(** ** Case-insensitive search *)

Lemma char_eq_ci_true (a b : ascii) :
  char_eq_ci a b = true <-> to_upper a = to_upper b.
Proof. unfold char_eq_ci. apply Ascii.eqb_eq. Qed.

Lemma prefix_ci_spec (needle hay : string) :
  prefix_ci needle hay = true <->
  exists mid post, hay = (mid ++ post)%string /\ upcase mid = upcase needle.
Proof.
  revert hay. induction needle as [|a needle IH]; intros hay; simpl.
  - split; [intros _|reflexivity].
    exists EmptyString, hay. split; reflexivity.
  - destruct hay as [|b hay].
    + split; [discriminate|].
      intros (mid & post & Hh & Hu).
      destruct mid; simpl in *; discriminate.
    + rewrite andb_true_iff, char_eq_ci_true, IH. split.
      * intros (Hab & mid & post & Hh & Hu).
        exists (String b mid), post. simpl. rewrite Hh, Hu, Hab.
        split; reflexivity.
      * intros (mid & post & Hh & Hu).
        destruct mid as [|c mid]; simpl in *; [discriminate|].
        injection Hh as -> ->. injection Hu as Hc Hu.
        split; [congruence|]. exists mid, post. split; [reflexivity|exact Hu].
Qed.

Lemma find_ci_from_none (hay needle : string) (pos : Z) :
  (0 <= pos)%Z ->
  (forall pre rest, hay = (pre ++ rest)%string -> prefix_ci needle rest = false) ->
  find_ci_from hay needle pos = (-1)%Z.
Proof.
  revert pos. induction hay as [|c hay IH]; intros pos Hpos Hno; simpl.
  - rewrite (Hno EmptyString EmptyString eq_refl). reflexivity.
  - rewrite (Hno EmptyString (String c hay) eq_refl).
    apply IH; [lia|]. intros pre rest ->.
    apply (Hno (String c pre) rest). reflexivity.
Qed.

Lemma find_ci_from_found (hay needle : string) (pos : Z) :
  (0 <= pos)%Z ->
  (exists pre rest, hay = (pre ++ rest)%string /\ prefix_ci needle rest = true) ->
  (pos <= find_ci_from hay needle pos)%Z.
Proof.
  revert pos. induction hay as [|c hay IH]; intros pos Hpos (pre & rest & Hh & Hp).
  - destruct pre; simpl in Hh; [|discriminate]. subst rest.
    simpl. rewrite Hp. lia.
  - simpl. destruct (prefix_ci needle (String c hay)) eqn:E; [lia|].
    destruct pre as [|c' pre]; simpl in Hh.
    + subst rest. congruence.
    + injection Hh as -> ->.
      assert (pos + 1 <= find_ci_from (pre ++ rest)%string needle (pos + 1))%Z.
      { apply IH; [lia|]. exists pre, rest. split; [reflexivity|exact Hp]. }
      lia.
Qed.

Lemma occurrence_dec (needle hay : string) :
  (forall pre rest, hay = (pre ++ rest)%string ->
                    prefix_ci needle rest = false) \/
  (exists pre rest, hay = (pre ++ rest)%string /\
                    prefix_ci needle rest = true).
Proof.
  induction hay as [|c h IHh].
  - destruct (prefix_ci needle EmptyString) eqn:Ep.
    + right. exists EmptyString, EmptyString. split; [reflexivity|exact Ep].
    + left. intros pre rest Hh.
      destruct pre; simpl in Hh; [subst; exact Ep|discriminate].
  - destruct (prefix_ci needle (String c h)) eqn:Ep.
    + right. exists EmptyString, (String c h). split; [reflexivity|exact Ep].
    + destruct IHh as [Hno|(pre & rest & Hh & Hp)].
      * left. intros pre rest Hh.
        destruct pre as [|c' pre]; simpl in Hh; [subst; exact Ep|].
        injection Hh as -> ->. apply (Hno pre rest eq_refl).
      * right. exists (String c pre), rest. subst h.
        split; [reflexivity|exact Hp].
Qed.

(** The modelled search answers [>= 0] exactly on the paths that contain
    the needle up to letter case. *)
Lemma FindSubstringCaseInsensitive_found (hay needle : string) :
  (0 <=? FindSubstringCaseInsensitive hay needle)%Z = true <->
  contains_ci hay needle.
Proof.
  unfold FindSubstringCaseInsensitive, contains_ci.
  rewrite Z.leb_le. split.
  - intros Hfound.
    destruct (occurrence_dec needle hay) as [Hno|(pre & rest & Hh & Hp)].
    + rewrite (@find_ci_from_none hay needle 0%Z) in Hfound by (lia || exact Hno).
      lia.
    + apply prefix_ci_spec in Hp. destruct Hp as (mid & post & -> & Hu).
      exists pre, mid, post. split; [exact Hh|exact Hu].
  - intros (pre & mid & post & Hh & Hu).
    apply find_ci_from_found; [lia|].
    exists pre, (mid ++ post)%string. split; [exact Hh|].
    apply prefix_ci_spec. exists mid, post. split; [reflexivity|exact Hu].
Qed.

(** ** Resolution of one breakpoint *)

Lemma qualifies_test (bp : BreakPoint) (file_path : string)
  (lines : list string) :
  qualifies bp (file_path, lines) <->
  (0 <=? FindSubstringCaseInsensitive file_path (file bp))%Z = true /\
  (line bp <=? size lines) = true.
Proof.
  unfold qualifies; simpl.
  now rewrite FindSubstringCaseInsensitive_found, N.leb_le.
Qed.

Lemma ResolveBreakPoint_from_spec (it : list (string * list string))
  (bp : BreakPoint) :
  match ResolveBreakPoint_from it bp with
  | (true, bp') =>
      exists before e after,
        it = before ++ e :: after /\
        Forall (fun e' => ~ qualifies bp e') before /\
        qualifies bp e /\ bp' = set_file bp (fst e)
  | (false, bp') =>
      Forall (fun e' => ~ qualifies bp e') it /\ bp' = bp
  end.
Proof.
  induction it as [|[file_path lines] it IH]; simpl.
  - split; [constructor|reflexivity].
  - destruct (0 <=? FindSubstringCaseInsensitive file_path (file bp))%Z eqn:Ef;
      [destruct (line bp <=? size lines) eqn:El|].
    + exists [], (file_path, lines), it.
      split; [reflexivity|]. split; [constructor|]. split; [|reflexivity].
      apply qualifies_test. split; assumption.
    + destruct (ResolveBreakPoint_from it bp) as [[|] bp'].
      * destruct IH as (before & e & after & -> & Hb & He & ->).
        exists ((file_path, lines) :: before), e, after.
        split; [reflexivity|]. split; [|split; [exact He|reflexivity]].
        constructor; [|exact Hb].
        rewrite qualifies_test. intros [_ H]. congruence.
      * destruct IH as [Hall ->]. split; [|reflexivity].
        constructor; [|exact Hall].
        rewrite qualifies_test. intros [_ H]. congruence.
    + destruct (ResolveBreakPoint_from it bp) as [[|] bp'].
      * destruct IH as (before & e & after & -> & Hb & He & ->).
        exists ((file_path, lines) :: before), e, after.
        split; [reflexivity|]. split; [|split; [exact He|reflexivity]].
        constructor; [|exact Hb].
        rewrite qualifies_test. intros [H _]. congruence.
      * destruct IH as [Hall ->]. split; [|reflexivity].
        constructor; [|exact Hall].
        rewrite qualifies_test. intros [H _]. congruence.
Qed.

(** C1. A resolution attempt on a breakpoint succeeds exactly when some
    path of the source registry contains the breakpoint's file text as a
    case-insensitive substring and has at least as many source lines as the
    breakpoint's line number.  On success the breakpoint's file becomes the
    first such path in the registry's iteration order (no entry before it
    qualifies), its index and line being kept; on failure the breakpoint is
    left as it was. *)
Theorem ResolveBreakPoint_first_qualifying_path (s : Impl) (bp : BreakPoint) :
  (fst (ResolveBreakPoint s bp) = true <->
   exists e, In e (script_lines_ s) /\ qualifies bp e) /\
  (fst (ResolveBreakPoint s bp) = true ->
   exists before e after,
     script_lines_ s = before ++ e :: after /\
     Forall (fun e' => ~ qualifies bp e') before /\
     qualifies bp e /\
     snd (ResolveBreakPoint s bp) = set_file bp (fst e)) /\
  (fst (ResolveBreakPoint s bp) = false ->
   snd (ResolveBreakPoint s bp) = bp).
Proof.
  unfold ResolveBreakPoint.
  pose proof (ResolveBreakPoint_from_spec (script_lines_ s) bp) as H.
  destruct (ResolveBreakPoint_from (script_lines_ s) bp) as [[|] bp']; simpl.
  - destruct H as (before & e & after & Heq & Hb & He & ->).
    split; [split|split].
    + intros _. exists e. split; [|exact He].
      rewrite Heq. apply in_or_app. right. left. reflexivity.
    + reflexivity.
    + intros _. exists before, e, after.
      split; [exact Heq|]. split; [exact Hb|]. split; [exact He|reflexivity].
    + discriminate.
  - destruct H as [Hall ->]. split; [split|split].
    + discriminate.
    + intros (e & Hin & He). rewrite Forall_forall in Hall.
      exfalso. exact (Hall e Hin He).
    + discriminate.
    + reflexivity.
Qed.

(** A partial, differently cased path resolves against the first loaded
    file that is long enough. *)
Example ResolveBreakPoint_example :
  ResolveBreakPoint
    (with_script_lines_ Impl_new
       [("/abs/Foo.rb", ["a"; "b"]); ("/lib/foo.rb", ["a"; "b"; "c"])])
    (mkBreakPoint 7 "foo.RB" 3)
  = (true, mkBreakPoint 7 "/lib/foo.rb" 3).
Proof. reflexivity. Qed.

(** ** Facts about the ordered maps *)

Module StdMapFacts.
Section Facts.
Context {K V : Type} `{KeyOrdLaws K}.
Implicit Types (k : K) (v : V) (m : StdMap.t K V).

Lemma kcmp_gt_lt (a b : K) : kcmp a b = Gt -> kcmp b a = Lt.
Proof.
  intros Hab. rewrite kcmp_antisym, Hab. reflexivity.
Qed.

Lemma key_below_trans k k' (e : K * V) :
  kcmp k k' = Lt -> StdMap.key_below k' e = true ->
  StdMap.key_below k e = true.
Proof.
  unfold StdMap.key_below. intros Hk He.
  destruct (kcmp k' (fst e)) eqn:E; try discriminate.
  now rewrite (kcmp_trans _ _ _ Hk E).
Qed.

Lemma find_In k v m : StdMap.find k m = Some v -> In (k, v) m.
Proof.
  induction m as [|[k' v'] m IH]; simpl; [discriminate|].
  destruct (kcmp k k') eqn:E; try discriminate.
  - intros [= ->]. apply kcmp_eq in E. subst. now left.
  - intros Hf. right. auto.
Qed.

Lemma In_find k v m :
  StdMap.sorted m = true -> In (k, v) m -> StdMap.find k m = Some v.
Proof.
  induction m as [|[k' v'] m IH]; simpl; [contradiction|].
  rewrite andb_true_iff. intros [Hall Hs] [Heq|Hin].
  - injection Heq as -> ->. now rewrite kcmp_refl.
  - rewrite forallb_forall in Hall. specialize (Hall _ Hin).
    unfold StdMap.key_below in Hall; simpl in Hall.
    destruct (kcmp k' k) eqn:E; try discriminate.
    rewrite kcmp_antisym, E. simpl. auto.
Qed.

(** [insert] on a key that is present changes nothing. *)
Lemma insert_present k v v0 m :
  StdMap.find k m = Some v0 -> StdMap.insert k v m = m.
Proof.
  induction m as [|[k' v'] m IH]; simpl; [discriminate|].
  destruct (kcmp k k'); try discriminate; auto.
  intros Hf. now rewrite IH.
Qed.

Lemma find_insert_absent k v m :
  StdMap.find k m = None -> StdMap.find k (StdMap.insert k v m) = Some v.
Proof.
  induction m as [|[k' v'] m IH]; simpl.
  - now rewrite kcmp_refl.
  - destruct (kcmp k k') eqn:E; try discriminate; simpl.
    + now rewrite kcmp_refl.
    + now rewrite E.
Qed.

Lemma find_subscript_set k v m :
  StdMap.find k (StdMap.subscript_set k v m) = Some v.
Proof.
  induction m as [|[k' v'] m IH]; simpl.
  - now rewrite kcmp_refl.
  - destruct (kcmp k k') eqn:E; simpl.
    + now rewrite kcmp_refl.
    + now rewrite kcmp_refl.
    + now rewrite E.
Qed.

(** Writing back the value a key already has changes nothing. *)
Lemma subscript_set_same k v m :
  StdMap.find k m = Some v -> StdMap.subscript_set k v m = m.
Proof.
  induction m as [|[k' v'] m IH]; simpl; [discriminate|].
  destruct (kcmp k k') eqn:E; try discriminate.
  - intros [= ->]. apply kcmp_eq in E. now subst.
  - intros Hf. now rewrite IH.
Qed.

Lemma In_insert (e : K * V) k v m :
  In e (StdMap.insert k v m) -> e = (k, v) \/ In e m.
Proof.
  induction m as [|[k' v'] m IH]; simpl.
  - intros [<-|[]]. now left.
  - destruct (kcmp k k'); simpl.
    + auto.
    + intros [<-|Hin]; auto.
    + intros [<-|Hin]; auto. destruct (IH Hin); auto.
Qed.

Lemma In_subscript_set (e : K * V) k v m :
  In e (StdMap.subscript_set k v m) -> e = (k, v) \/ In e m.
Proof.
  induction m as [|[k' v'] m IH]; simpl.
  - intros [<-|[]]. now left.
  - destruct (kcmp k k'); simpl.
    + intros [<-|Hin]; auto.
    + intros [<-|[<-|Hin]]; auto.
    + intros [<-|Hin]; auto. destruct (IH Hin); auto.
Qed.

Lemma sorted_insert k v m :
  StdMap.sorted m = true -> StdMap.sorted (StdMap.insert k v m) = true.
Proof.
  induction m as [|[k' v'] m IH]; simpl; [reflexivity|].
  rewrite andb_true_iff. intros [Hall Hs].
  destruct (kcmp k k') eqn:E; simpl.
  - apply kcmp_eq in E. subst. now rewrite Hall, Hs.
  - rewrite Hall, Hs. unfold StdMap.key_below at 1; simpl. rewrite E. simpl.
    rewrite andb_true_r.
    rewrite forallb_forall in *. intros e He.
    apply key_below_trans with k'; auto.
  - rewrite (IH Hs), andb_true_r.
    rewrite forallb_forall in *. intros e He.
    destruct (In_insert _ _ _ _ He) as [->|Hin]; auto.
    unfold StdMap.key_below; simpl. now rewrite (kcmp_gt_lt E).
Qed.

Lemma sorted_subscript_set k v m :
  StdMap.sorted m = true ->
  StdMap.sorted (StdMap.subscript_set k v m) = true.
Proof.
  induction m as [|[k' v'] m IH]; simpl; [reflexivity|].
  rewrite andb_true_iff. intros [Hall Hs].
  destruct (kcmp k k') eqn:E; simpl.
  - apply kcmp_eq in E. subst. now rewrite Hall, Hs.
  - rewrite Hall, Hs. unfold StdMap.key_below at 1; simpl. rewrite E. simpl.
    rewrite andb_true_r.
    rewrite forallb_forall in *. intros e He.
    apply key_below_trans with k'; auto.
  - rewrite (IH Hs), andb_true_r.
    rewrite forallb_forall in *. intros e He.
    destruct (In_subscript_set _ _ _ _ He) as [->|Hin]; auto.
    unfold StdMap.key_below; simpl. now rewrite (kcmp_gt_lt E).
Qed.

Lemma key_below_neq k (e : K * V) :
  StdMap.key_below k e = true -> k <> fst e.
Proof.
  unfold StdMap.key_below. intros Hb ->.
  now rewrite kcmp_refl in Hb.
Qed.

Lemma sorted_NoDup_keys m :
  StdMap.sorted m = true -> NoDup (StdMap.keys m).
Proof.
  induction m as [|[k v] m IH]; simpl; [constructor|].
  rewrite andb_true_iff. intros [Hall Hs].
  constructor; [|auto].
  unfold StdMap.keys. rewrite in_map_iff. intros ([k' v'] & Hk & Hin).
  simpl in Hk. subst k'.
  rewrite forallb_forall in Hall.
  pose proof (Hall _ Hin) as Hb. apply key_below_neq in Hb.
  now apply Hb.
Qed.
End Facts.
End StdMapFacts.

(** ** Machine integers *)

Lemma int_of_long_length_bound (n : nat) :
  (Z.of_nat (Z.to_nat (int_of_long (Z.of_nat n))) <= INT_MAX)%Z.
Proof.
  unfold int_of_long, INT_MAX.
  pose proof (Z.mod_pos_bound (Z.of_nat n) (2 ^ 32) ltac:(lia)) as Hb.
  destruct (Z.of_nat n mod 2 ^ 32 <? 2 ^ 31)%Z eqn:E.
  - apply Z.ltb_lt in E. lia.
  - apply Z.ltb_ge in E. lia.
Qed.

Lemma int_of_long_small (z : Z) :
  (0 <= z <= INT_MAX)%Z -> int_of_long z = z.
Proof.
  unfold int_of_long, INT_MAX. intros Hz.
  rewrite Z.mod_small by lia.
  destruct (z <? 2 ^ 31)%Z eqn:E; [reflexivity|].
  apply Z.ltb_ge in E. lia.
Qed.

Lemma size_t_of_int_nonneg (z : Z) :
  (0 <= z <= INT_MAX)%Z -> size_t_of_int z = Z.to_N z.
Proof.
  unfold size_t_of_int, INT_MAX, SIZE_MOD. intros Hz.
  rewrite Z.mod_small; [reflexivity|].
  change (Z.of_N (2 ^ 64)) with (2 ^ 64)%Z. lia.
Qed.

Lemma size_firstn_int_bound {A} (v : list A) :
  (Z.of_N (size (firstn (Z.to_nat (int_of_long (Z.of_nat (List.length v)))) v))
   <= INT_MAX)%Z.
Proof.
  unfold size. rewrite nat_N_Z.
  pose proof (int_of_long_length_bound (List.length v)) as Hb.
  pose proof (firstn_le_length
                (Z.to_nat (int_of_long (Z.of_nat (List.length v)))) v).
  lia.
Qed.

(** ** The representation invariant of the breakpoint maps *)

Lemma store_ok_find l by_file bps :
  store_ok bps = true -> StdMap.find l bps = Some by_file ->
  by_file_ok (l, by_file) = true.
Proof.
  unfold store_ok. rewrite andb_true_iff. intros [_ Hall] Hf.
  rewrite forallb_forall in Hall.
  apply Hall. now apply StdMapFacts.find_In.
Qed.

Lemma by_file_ok_insert (bp : BreakPoint) by_file :
  by_file_ok (line bp, by_file) = true ->
  by_file_ok (line bp, StdMap.insert (file bp) bp by_file) = true.
Proof.
  unfold by_file_ok; simpl. rewrite !andb_true_iff. intros [Hs Hall].
  split; [now apply StdMapFacts.sorted_insert|].
  rewrite forallb_forall in *. intros e He.
  destruct (StdMapFacts.In_insert _ _ _ _ He) as [->|Hin]; auto.
  unfold entry_ok; simpl. now rewrite String.eqb_refl, N.eqb_refl.
Qed.

(** Filing a resolved breakpoint, as [Impl::AddBreakPoint] does, keeps the
    invariant. *)
Lemma store_ok_add (bp : BreakPoint) bps :
  store_ok bps = true ->
  store_ok
    (StdMap.subscript_set (line bp)
       (StdMap.insert (file bp) bp
          match StdMap.find (line bp) bps with
          | Some m => m
          | None => []
          end) bps) = true.
Proof.
  intros Hok. pose proof Hok as Hok'. unfold store_ok in Hok'.
  rewrite andb_true_iff in Hok'. destruct Hok' as [Hs Hall].
  unfold store_ok. rewrite andb_true_iff.
  split; [now apply StdMapFacts.sorted_subscript_set|].
  rewrite forallb_forall in *. intros e He.
  destruct (StdMapFacts.In_subscript_set _ _ _ _ He) as [->|Hin]; auto.
  apply by_file_ok_insert.
  destruct (StdMap.find (line bp) bps) as [m|] eqn:Ef.
  - now apply store_ok_find with bps.
  - reflexivity.
Qed.

Lemma erase_by_index_sub index0 m m' :
  erase_by_index index0 m = Some m' ->
  forall (P : string * BreakPoint -> bool),
    forallb P m = true -> forallb P m' = true.
Proof.
  revert m'. induction m as [|[f bp] m IH]; simpl; intros m'; [discriminate|].
  destruct (index bp =? index0).
  - intros [= <-] P. rewrite andb_true_iff. tauto.
  - destruct (erase_by_index index0 m) as [m1|]; simpl; [|discriminate].
    intros [= <-] P. simpl. rewrite !andb_true_iff. intros [Hp Hall].
    split; [exact Hp|]. now apply (IH m1 eq_refl).
Qed.

Lemma erase_by_index_sorted index0 m m' :
  erase_by_index index0 m = Some m' ->
  StdMap.sorted m = true -> StdMap.sorted m' = true.
Proof.
  revert m'. induction m as [|[f bp] m IH]; simpl; intros m'; [discriminate|].
  rewrite andb_true_iff.
  destruct (index bp =? index0).
  - intros [= <-]. tauto.
  - destruct (erase_by_index index0 m) as [m1|] eqn:E; simpl; [|discriminate].
    intros [= <-] [Hall Hs]. simpl. rewrite andb_true_iff.
    split; [|now apply IH].
    now apply (erase_by_index_sub _ _ E).
Qed.

Lemma remove_resolved_sub index0 bps bps' :
  remove_resolved index0 bps = Some bps' ->
  forall (P : N -> bool),
    forallb (fun e => P (fst e)) bps = true ->
    forallb (fun e => P (fst e)) bps' = true.
Proof.
  revert bps'. induction bps as [|[l m] bps IH]; simpl; intros bps';
    [discriminate|].
  destruct (erase_by_index index0 m) as [[|e m1]|].
  - intros [= <-] P. rewrite andb_true_iff. tauto.
  - intros [= <-] P. simpl. tauto.
  - destruct (remove_resolved index0 bps) as [b1|]; simpl; [|discriminate].
    intros [= <-] P. simpl. rewrite !andb_true_iff. intros [Hp Hall].
    split; [exact Hp|]. now apply (IH b1 eq_refl).
Qed.

(** Removing a resolved breakpoint keeps the invariant. *)
Lemma store_ok_remove index0 bps bps' :
  remove_resolved index0 bps = Some bps' ->
  store_ok bps = true -> store_ok bps' = true.
Proof.
  unfold store_ok.
  revert bps'. induction bps as [|[l m] bps IH]; simpl; intros bps';
    [discriminate|].
  rewrite !andb_true_iff.
  destruct (erase_by_index index0 m) as [m1|] eqn:Em.
  - intros Hr [[Hall Hs] [Hm Hrest]].
    assert (Hm1 : by_file_ok (l, m1) = true).
    { unfold by_file_ok in *; simpl in *. rewrite andb_true_iff in *.
      destruct Hm as [Hsm Ham]. split.
      - now apply (erase_by_index_sorted _ _ Em).
      - now apply (erase_by_index_sub _ _ Em). }
    destruct m1 as [|e m1]; injection Hr as <-.
    + now rewrite Hs, Hrest.
    + simpl. rewrite Hall, Hs, Hrest. simpl in Hm1. now rewrite Hm1.
  - destruct (remove_resolved index0 bps) as [b1|] eqn:Er; simpl;
      [|discriminate].
    intros [= <-] [[Hall Hs] [Hm Hrest]]. simpl.
    assert (H1 := IH b1 eq_refl (proj2 (andb_true_iff _ _) (conj Hs Hrest))).
    apply andb_true_iff in H1. destruct H1 as [Hs1 Hrest1].
    rewrite Hs1, Hrest1, Hm, andb_true_r. split; [|reflexivity].
    apply (remove_resolved_sub _ _ Er
             (fun k => match N.compare l k with Lt => true | _ => false end)).
    exact Hall.
Qed.

Lemma entry_ok_location l (e : string * BreakPoint) :
  entry_ok l e = true -> location (snd e) = (fst e, l).
Proof.
  unfold entry_ok, location. rewrite andb_true_iff, String.eqb_eq, N.eqb_eq.
  now intros [-> ->].
Qed.

Lemma by_file_NoDup_locations l (m : StdMap.t string BreakPoint) :
  by_file_ok (l, m) = true -> NoDup (map location (map snd m)).
Proof.
  unfold by_file_ok; simpl. rewrite andb_true_iff. intros [Hs Hall].
  induction m as [|[f bp] m IH]; simpl in *; [constructor|].
  rewrite andb_true_iff in Hs, Hall.
  destruct Hs as [Hbelow Hs], Hall as [Hbp Hall].
  constructor; [|auto].
  rewrite map_map, in_map_iff. intros (e & Hloc & Hin).
  rewrite forallb_forall in Hbelow, Hall.
  pose proof (entry_ok_location _ _ Hbp) as H1. simpl in H1.
  rewrite H1, (entry_ok_location _ _ (Hall _ Hin)) in Hloc.
  injection Hloc as Hf.
  specialize (Hbelow _ Hin). apply StdMapFacts.key_below_neq in Hbelow.
  congruence.
Qed.

(** Under the representation invariant no two resolved breakpoints stand
    at the same (file, line). *)
Lemma store_ok_NoDup_locations bps :
  store_ok bps = true ->
  NoDup (map location (flat_map (fun e => map snd (snd e)) bps)).
Proof.
  unfold store_ok.
  induction bps as [|[l m] bps IH]; simpl; [constructor|].
  rewrite !andb_true_iff. intros [[Hbelow Hs] [Hm Hrest]].
  rewrite map_app. apply NoDup_app.
  - now apply by_file_NoDup_locations with l.
  - apply IH. now rewrite Hs, Hrest.
  - intros loc Hin1 Hin2.
    rewrite map_map, in_map_iff in Hin1. destruct Hin1 as (e1 & Hl1 & He1).
    rewrite in_map_iff in Hin2. destruct Hin2 as (bp2 & Hl2 & Hbp2).
    rewrite in_flat_map in Hbp2. destruct Hbp2 as ([l2 m2] & He2 & Hbp2).
    simpl in Hbp2. rewrite in_map_iff in Hbp2.
    destruct Hbp2 as (e2 & <- & Hin2).
    unfold by_file_ok in Hm; simpl in Hm. rewrite andb_true_iff in Hm.
    destruct Hm as [_ Hm]. rewrite forallb_forall in Hm, Hrest, Hbelow.
    rewrite (entry_ok_location _ _ (Hm _ He1)) in Hl1.
    specialize (Hrest _ He2). unfold by_file_ok in Hrest; simpl in Hrest.
    rewrite andb_true_iff in Hrest. destruct Hrest as [_ Hrest].
    rewrite forallb_forall in Hrest.
    rewrite (entry_ok_location _ _ (Hrest _ Hin2)) in Hl2.
    specialize (Hbelow _ He2). apply StdMapFacts.key_below_neq in Hbelow.
    simpl in Hbelow. congruence.
Qed.

(** ** What each operation leaves alone *)

Lemma Impl_AddBreakPoint_halt_view s bp r :
  halt_view (fst (Impl_AddBreakPoint s bp r)) = halt_view s.
Proof.
  unfold Impl_AddBreakPoint.
  destruct (index bp =? 0), r; reflexivity.
Qed.

Lemma Impl_AddBreakPoint_script_lines s bp r :
  script_lines_ (fst (Impl_AddBreakPoint s bp r)) = script_lines_ s.
Proof.
  unfold Impl_AddBreakPoint.
  destruct (index bp =? 0), r; reflexivity.
Qed.

Lemma Impl_AddBreakPoint_store_ok s bp r :
  store_ok (breakpoints_ s) = true ->
  store_ok (breakpoints_ (fst (Impl_AddBreakPoint s bp r))) = true.
Proof.
  unfold Impl_AddBreakPoint. intros Hok.
  destruct (index bp =? 0), r; simpl; auto.
  - apply (store_ok_add
             (set_index bp (size_t_wrap (last_breakpoint_index s + 1)))).
    exact Hok.
  - now apply store_ok_add.
Qed.

Lemma ResolveBreakPoints_from_frame s it :
  halt_view (fst (ResolveBreakPoints_from s it)) = halt_view s /\
  script_lines_ (fst (ResolveBreakPoints_from s it)) = script_lines_ s /\
  (store_ok (breakpoints_ s) = true ->
   store_ok (breakpoints_ (fst (ResolveBreakPoints_from s it))) = true).
Proof.
  revert s. induction it as [|bp it IH]; intros s; simpl.
  - auto.
  - destruct (ResolveBreakPoint s bp) as [[|] bp'].
    + destruct (IH (fst (Impl_AddBreakPoint s bp' true))) as (Hh & Hr & Hst).
      rewrite Hh, Hr, Impl_AddBreakPoint_halt_view,
        Impl_AddBreakPoint_script_lines.
      repeat split. intros Hok. apply Hst.
      now apply Impl_AddBreakPoint_store_ok.
    + specialize (IH s).
      destruct (ResolveBreakPoints_from s it) as [s' kept]. exact IH.
Qed.

Lemma EachKeyValFunc_registry_ok key val script_lines :
  registry_ok script_lines ->
  registry_ok (EachKeyValFunc key val script_lines).
Proof.
  unfold EachKeyValFunc, registry_ok. intros [Hs Hall].
  destruct (StdMap.find key script_lines); [auto|].
  split; [now apply StdMapFacts.sorted_subscript_set|].
  rewrite Forall_forall in *. intros e He.
  destruct (StdMapFacts.In_subscript_set _ _ _ _ He) as [->|Hin]; auto.
  simpl. apply size_firstn_int_bound.
Qed.

Lemma ReadScriptLinesHash_registry_ok s :
  registry_ok (script_lines_ s) ->
  registry_ok (script_lines_ (ReadScriptLinesHash s)).
Proof.
  unfold ReadScriptLinesHash; simpl.
  generalize (script_lines_ s). induction (script_lines_hash_ s) as [|kv h IH];
    simpl; intros m Hm; [exact Hm|].
  apply IH. now apply EachKeyValFunc_registry_ok.
Qed.

Lemma ResolveBreakPoints_frame s :
  halt_view (ResolveBreakPoints s) = halt_view s /\
  (registry_ok (script_lines_ s) ->
   registry_ok (script_lines_ (ResolveBreakPoints s))) /\
  (store_ok (breakpoints_ s) = true ->
   store_ok (breakpoints_ (ResolveBreakPoints s)) = true).
Proof.
  unfold ResolveBreakPoints.
  pose proof (ResolveBreakPoints_from_frame (ReadScriptLinesHash s)
                (unresolved_breakpoints_ (ReadScriptLinesHash s)))
    as (Hh & Hr & Hst).
  destruct (ResolveBreakPoints_from (ReadScriptLinesHash s)
              (unresolved_breakpoints_ (ReadScriptLinesHash s)))
    as [s' kept]; simpl in *.
  split; [exact Hh|]. split.
  - intros Hreg. rewrite Hr. now apply ReadScriptLinesHash_registry_ok.
  - exact Hst.
Qed.

(** ** The invariant of the reachable states *)

Lemma halt_ok_view s s' :
  halt_view s' = halt_view s -> halt_ok s -> halt_ok s'.
Proof.
  unfold halt_view, halt_ok. intros [= -> _ -> -> -> ->]. auto.
Qed.

Lemma halt_ok_ClearBreakData s : halt_ok s -> halt_ok (ClearBreakData s).
Proof.
  unfold halt_ok, ClearBreakData; simpl. intros (_ & _ & Hc).
  repeat split; auto. unfold INT_MAX. lia.
Qed.

Lemma size_Impl_GetStackFrames di :
  (Z.of_N (size (Impl_GetStackFrames di)) <= INT_MAX)%Z.
Proof.
  unfold Impl_GetStackFrames, DebugInspectorFunc, size; simpl.
  rewrite length_map. apply size_firstn_int_bound.
Qed.

Lemma halt_ok_ShiftActiveFrame s shift_up :
  halt_ok s -> halt_ok (ShiftActiveFrame s shift_up).
Proof.
  unfold ShiftActiveFrame, IsStopped. intros Hok.
  destruct (is_stopped_ s) eqn:Est; [|exact Hok].
  pose proof Hok as (H1 & H2 & H3).
  destruct shift_up.
  - destruct (size_t_wrap (active_frame_index_ s + 1) <? size (frames_ s))
      eqn:E; [|exact Hok].
    apply N.ltb_lt in E.
    unfold halt_ok; simpl. rewrite Est.
    split; [discriminate|]. split; [exact H2|].
    assert (active_frame_index_ s + 1 < SIZE_MOD)
      by (unfold SIZE_MOD, INT_MAX in *; lia).
    unfold size_t_wrap in *. rewrite N.mod_small in * by assumption.
    unfold INT_MAX in *. lia.
  - destruct (0 <? active_frame_index_ s) eqn:E; [|exact Hok].
    unfold halt_ok; simpl. rewrite Est.
    split; [discriminate|]. split; [exact H2|]. lia.
Qed.

Lemma Inv_new : Inv Impl_new.
Proof.
  unfold Inv, halt_ok, registry_ok, INT_MAX; simpl.
  repeat split; auto; lia.
Qed.

Lemma Inv_AddBreakPoint s bp : Inv s -> Inv (snd (fst (AddBreakPoint s bp))).
Proof.
  unfold AddBreakPoint. intros (Hh & Hr & Hs).
  destruct (ResolveBreakPoint (ReadScriptLinesHash s) bp) as [r bp'].
  pose proof (Impl_AddBreakPoint_halt_view (ReadScriptLinesHash s) bp' r) as Ev.
  pose proof (Impl_AddBreakPoint_script_lines (ReadScriptLinesHash s) bp' r)
    as Er.
  pose proof (Impl_AddBreakPoint_store_ok (ReadScriptLinesHash s) bp' r Hs)
    as Es.
  destruct (Impl_AddBreakPoint (ReadScriptLinesHash s) bp' r) as [s' bp''].
  simpl in *. split; [|split].
  - now apply halt_ok_view with s.
  - rewrite Er. now apply ReadScriptLinesHash_registry_ok.
  - exact Es.
Qed.

Lemma Inv_RemoveBreakPoint s index0 :
  Inv s -> Inv (snd (RemoveBreakPoint s index0)).
Proof.
  unfold RemoveBreakPoint. intros (Hh & Hr & Hs).
  destruct (remove_resolved index0 (breakpoints_ s)) as [bps|] eqn:E; simpl.
  - split; [|split]; auto. now apply (store_ok_remove _ _ E).
  - destruct (remove_unresolved index0 (unresolved_breakpoints_ s));
      simpl; split; auto.
Qed.

Lemma Inv_ResolveBreakPoints s : Inv s -> Inv (ResolveBreakPoints s).
Proof.
  intros (Hh & Hr & Hs).
  destruct (ResolveBreakPoints_frame s) as (Ev & Er & Es).
  split; [|split]; auto. now apply halt_ok_view with s.
Qed.

Lemma Inv_GetCodeLines s beg_line end_line :
  Inv s -> Inv (snd (GetCodeLines s beg_line end_line)).
Proof.
  unfold GetCodeLines. intros (Hh & Hr & Hs).
  assert (Hread : Inv (ReadScriptLinesHash s)).
  { split; [|split]; auto. now apply ReadScriptLinesHash_registry_ok. }
  destruct (IsStopped s); [|split; auto].
  destruct (StdMap.find _ _); [|exact Hread].
  match goal with |- context [if ?c then _ else _] => destruct c end;
    exact Hread.
Qed.

Lemma Inv_run_command s c : Inv s -> Inv (run_command s c).
Proof.
  destruct c; simpl.
  - apply Inv_AddBreakPoint.
  - apply Inv_RemoveBreakPoint.
  - apply Inv_ResolveBreakPoints.
  - intros (Hh & Hr & Hs). split; [|split].
    + now apply halt_ok_ShiftActiveFrame.
    + unfold ShiftActiveFrame.
      repeat match goal with |- context [if ?c then _ else _] => destruct c end;
        exact Hr.
    + unfold ShiftActiveFrame.
      repeat match goal with |- context [if ?c then _ else _] => destruct c end;
        exact Hs.
  - intros (Hh & Hr & Hs). unfold Step.
    destruct (IsStopped s); split; auto.
  - apply Inv_GetCodeLines.
Qed.

Lemma Inv_ClearBreakData s : Inv s -> Inv (ClearBreakData s).
Proof.
  intros (Hh & Hr & Hs). split; [|split]; auto.
  now apply halt_ok_ClearBreakData.
Qed.

Lemma halted_ok s frames file_path line_no :
  (Z.of_N (size frames) <= INT_MAX)%Z ->
  (Z.of_N (active_frame_index_ s) <= INT_MAX)%Z ->
  halt_ok
    (with_is_stopped_
       (with_last_break_line_
          (with_last_break_file_path_ (with_frames_ s frames) file_path)
          line_no) true).
Proof.
  unfold halt_ok; simpl. intros Hf Hc. repeat split; try discriminate; auto.
Qed.

Lemma Inv_TraceFunc s trace_arg : Inv s -> Inv (fst (TraceFunc s trace_arg)).
Proof.
  intros HI. apply Inv_ClearBreakData in HI.
  unfold TraceFunc.
  set (c := ClearBreakData s) in *. clearbody c.
  destruct (tracearg_event trace_arg); simpl; try exact HI.
  destruct (break_at_next_line_ c) eqn:Eb; simpl.
  - destruct HI as ((H1 & H2 & H3) & Hr & Hs). split; [|split]; auto.
    apply (halted_ok (with_break_at_next_line_ c false)); auto.
    apply size_Impl_GetStackFrames.
  - set (c' := if negb (size (unresolved_breakpoints_ c) =? 0)
               then ResolveBreakPoints c else c).
    assert (HI' : Inv c').
    { subst c'. destruct (negb _); [now apply Inv_ResolveBreakPoints|exact HI]. }
    clearbody c'.
    destruct (GetBreakPoint c' _ _); simpl; [|exact HI'].
    destruct HI' as ((H1 & H2 & H3) & Hr & Hs). split; [|split]; auto.
    apply halted_ok; auto. apply size_Impl_GetStackFrames.
Qed.

Lemma Inv_handle s e : Inv s -> Inv (handle s e).
Proof.
  destruct e; simpl.
  - intros ((H1 & H2 & H3) & Hr & Hs). split; [|split]; auto.
    unfold halt_ok; simpl. repeat split; try discriminate; auto.
  - apply Inv_run_command.
  - intros (Hh & Hr & Hs). split; auto.
  - apply Inv_TraceFunc.
  - apply Inv_ClearBreakData.
Qed.

Lemma Inv_run events : forall s, Inv s -> Inv (run s events).
Proof.
  induction events as [|e events IH]; intros s HI; simpl; [exact HI|].
  apply IH. now apply Inv_handle.
Qed.

(** Every reachable state satisfies the invariant. *)
Lemma reachable_Inv s : reachable s -> Inv s.
Proof.
  intros [events ->]. apply Inv_run, Inv_new.
Qed.

Lemma reachable_handle s e : reachable s -> reachable (handle s e).
Proof.
  intros [events ->]. exists (events ++ [e]).
  unfold run. now rewrite fold_left_app.
Qed.

Lemma reachable_run s events : reachable s -> reachable (run s events).
Proof.
  intros [events0 ->]. exists (events0 ++ events).
  unfold run. now rewrite fold_left_app.
Qed.

(** ** Adding a breakpoint at a location that is already taken *)

Lemma reachable_NoDup_locations s :
  reachable s -> NoDup (map location (resolved_breakpoints s)).
Proof.
  intros Hr. apply reachable_Inv in Hr. destruct Hr as (_ & _ & Hs).
  now apply store_ok_NoDup_locations.
Qed.

Lemma GetBreakPoint_taken_insert s bp old :
  GetBreakPoint s (file bp) (line bp) = Some old ->
  StdMap.subscript_set (line bp)
    (StdMap.insert (file bp) bp
       match StdMap.find (line bp) (breakpoints_ s) with
       | Some m => m
       | None => []
       end) (breakpoints_ s) = breakpoints_ s.
Proof.
  unfold GetBreakPoint.
  destruct (StdMap.find (line bp) (breakpoints_ s)) as [m|] eqn:El;
    [|discriminate].
  intros Hf. rewrite (StdMapFacts.insert_present _ _ _ Hf).
  now apply StdMapFacts.subscript_set_same.
Qed.

(** At a free location the breakpoint is stored as it is. *)
Lemma AddBreakPoint_free_location_stores s bp :
  GetBreakPoint s (file bp) (line bp) = None ->
  GetBreakPoint (fst (Impl_AddBreakPoint s bp true)) (file bp) (line bp)
  = Some (snd (Impl_AddBreakPoint s bp true)).
Proof.
  assert (Hcore : forall s' bp',
    GetBreakPoint s' (file bp') (line bp') = None ->
    GetBreakPoint
      (with_breakpoints_ s'
         (StdMap.subscript_set (line bp')
            (StdMap.insert (file bp') bp'
               match StdMap.find (line bp') (breakpoints_ s') with
               | Some m => m
               | None => []
               end) (breakpoints_ s')))
      (file bp') (line bp') = Some bp').
  { intros s' bp'. unfold GetBreakPoint; simpl.
    rewrite StdMapFacts.find_subscript_set.
    destruct (StdMap.find (line bp') (breakpoints_ s')) as [m|].
    - apply StdMapFacts.find_insert_absent.
    - intros _. simpl. now rewrite string_compare_refl. }
  intros Hfree. unfold Impl_AddBreakPoint.
  destruct (index bp =? 0); simpl.
  - apply (Hcore (with_last_breakpoint_index s
                    (size_t_wrap (last_breakpoint_index s + 1)))
             (set_index bp (size_t_wrap (last_breakpoint_index s + 1)))).
    exact Hfree.
  - now apply Hcore.
Qed.

(** C2 (as the code has it). When a breakpoint is inserted into the
    resolved set at a (file, line) key that already holds a resolved
    breakpoint, the prior entry for that key is kept and the new breakpoint
    is not stored: the resolved maps are left exactly as they were and a
    lookup at the key still returns the prior breakpoint.  The resolved set
    never holds two breakpoints with the same (file, line) pair, and the
    earliest added one is the one retained. *)
Theorem AddBreakPoint_taken_location_keeps_prior
  (s : Impl) (bp old : BreakPoint) :
  reachable s ->
  GetBreakPoint s (file bp) (line bp) = Some old ->
  breakpoints_ (fst (Impl_AddBreakPoint s bp true)) = breakpoints_ s /\
  GetBreakPoint (fst (Impl_AddBreakPoint s bp true)) (file bp) (line bp)
    = Some old /\
  NoDup (map location
           (resolved_breakpoints (fst (Impl_AddBreakPoint s bp true)))).
Proof.
  intros Hr Hold.
  assert (Hsame : breakpoints_ (fst (Impl_AddBreakPoint s bp true))
                  = breakpoints_ s).
  { unfold Impl_AddBreakPoint. destruct (index bp =? 0); simpl.
    - apply (GetBreakPoint_taken_insert
               (with_last_breakpoint_index s
                  (size_t_wrap (last_breakpoint_index s + 1)))
               (set_index bp (size_t_wrap (last_breakpoint_index s + 1)))
               Hold).
    - now apply GetBreakPoint_taken_insert with old. }
  split; [exact Hsame|]. split.
  - unfold GetBreakPoint in *. now rewrite Hsame.
  - unfold resolved_breakpoints. rewrite Hsame.
    now apply reachable_NoDup_locations.
Qed.

Lemma AddBreakPoint_taken_location_keeps_prior_witness :
  let s := run Impl_new
             [EvStart; EvEngineLoads [("/a.rb", ["x"; "y"; "z"])];
              EvCommand (CmdAddBreakPoint (mkBreakPoint 0 "a.rb" 3))] in
  let bp := mkBreakPoint 0 "/a.rb" 3 in
  breakpoints_ (fst (Impl_AddBreakPoint s bp true)) = breakpoints_ s /\
  GetBreakPoint (fst (Impl_AddBreakPoint s bp true)) (file bp) (line bp)
    = Some (mkBreakPoint 1 "/a.rb" 3) /\
  NoDup (map location
           (resolved_breakpoints (fst (Impl_AddBreakPoint s bp true)))).
Proof.
  intros s bp.
  apply (@AddBreakPoint_taken_location_keeps_prior s bp
           (mkBreakPoint 1 "/a.rb" 3)).
  - eexists. reflexivity.
  - reflexivity.
Defined.

(** C2 (as stated) fails: a second breakpoint added at a location that is
    already taken does not replace the first.  The caller's breakpoint
    comes back with index 2, but the store still holds, and reports, only
    the breakpoint with index 1. *)
Lemma AddBreakPoint_taken_location_not_overwritten :
  let s0 := run Impl_new
              [EvStart; EvEngineLoads [("/a.rb", ["x"; "y"; "z"])]] in
  let r1 := AddBreakPoint s0 (mkBreakPoint 0 "a.rb" 3) in
  let r2 := AddBreakPoint (snd (fst r1)) (mkBreakPoint 0 "A.RB" 3) in
  snd r1 = mkBreakPoint 1 "/a.rb" 3 /\
  snd r2 = mkBreakPoint 2 "/a.rb" 3 /\
  GetBreakPoint (snd (fst r1)) "/a.rb" 3 = Some (snd r1) /\
  GetBreakPoint (snd (fst r2)) "/a.rb" 3 = Some (snd r1) /\
  GetBreakPoint (snd (fst r2)) "/a.rb" 3 <> Some (snd r2) /\
  fst (GetBreakPoints (snd (fst r2))) = [snd r1].
Proof.
  vm_compute. repeat split; discriminate.
Qed.

(** ** Removing a breakpoint by index *)

Lemma remove_first_none index0 l :
  (forall bp, In bp l -> index bp <> index0) -> remove_first index0 l = l.
Proof.
  induction l as [|bp l IH]; simpl; intros Hno; [reflexivity|].
  destruct (index bp =? index0) eqn:E.
  - apply N.eqb_eq in E. exfalso. apply (Hno bp); auto.
  - rewrite IH; auto.
Qed.

Lemma remove_first_app_l index0 l1 l2 :
  (exists bp, In bp l1 /\ index bp = index0) ->
  remove_first index0 (l1 ++ l2) = remove_first index0 l1 ++ l2.
Proof.
  induction l1 as [|bp l1 IH]; simpl; intros (bp0 & Hin & Hi); [contradiction|].
  destruct (index bp =? index0) eqn:E; [reflexivity|].
  simpl. f_equal. apply IH.
  destruct Hin as [->|Hin]; [|eauto].
  apply N.eqb_neq in E. contradiction.
Qed.

Lemma remove_first_app_r index0 l1 l2 :
  (forall bp, In bp l1 -> index bp <> index0) ->
  remove_first index0 (l1 ++ l2) = l1 ++ remove_first index0 l2.
Proof.
  induction l1 as [|bp l1 IH]; simpl; intros Hno; [reflexivity|].
  destruct (index bp =? index0) eqn:E.
  - apply N.eqb_eq in E. exfalso. apply (Hno bp); auto.
  - f_equal. apply IH. auto.
Qed.

Lemma erase_by_index_spec index0 m :
  match erase_by_index index0 m with
  | Some m' =>
      map snd m' = remove_first index0 (map snd m) /\
      exists bp, In bp (map snd m) /\ index bp = index0
  | None => forall bp, In bp (map snd m) -> index bp <> index0
  end.
Proof.
  induction m as [|[f bp] m IH]; simpl; [tauto|].
  destruct (index bp =? index0) eqn:E.
  - apply N.eqb_eq in E. split; [reflexivity|]. exists bp. auto.
  - apply N.eqb_neq in E.
    destruct (erase_by_index index0 m) as [m'|]; simpl.
    + destruct IH as [Hm (bp0 & Hin & Hi)]. split; [now rewrite Hm|].
      exists bp0. auto.
    + intros bp0 [<-|Hin]; auto.
Qed.

Lemma remove_resolved_spec index0 bps :
  match remove_resolved index0 bps with
  | Some bps' =>
      flat_map (fun e => map snd (snd e)) bps'
      = remove_first index0 (flat_map (fun e => map snd (snd e)) bps) /\
      exists bp, In bp (flat_map (fun e => map snd (snd e)) bps) /\
                 index bp = index0
  | None =>
      forall bp, In bp (flat_map (fun e => map snd (snd e)) bps) ->
                 index bp <> index0
  end.
Proof.
  induction bps as [|[l m] bps IH]; simpl; [tauto|].
  pose proof (erase_by_index_spec index0 m) as Hm.
  destruct (erase_by_index index0 m) as [m'|].
  - destruct Hm as [Hm Hex].
    assert (Hgoal :
      map snd m' ++ flat_map (fun e => map snd (snd e)) bps
      = remove_first index0
          (map snd m ++ flat_map (fun e => map snd (snd e)) bps) /\
      exists bp,
        In bp (map snd m ++ flat_map (fun e => map snd (snd e)) bps) /\
        index bp = index0).
    { split; [now rewrite remove_first_app_l, Hm|].
      destruct Hex as (bp & Hin & Hi). exists bp. split; [|exact Hi].
      apply in_or_app. now left. }
    destruct m' as [|e m']; exact Hgoal.
  - destruct (remove_resolved index0 bps) as [bps'|]; simpl.
    + destruct IH as [Hb (bp & Hin & Hi)]. split.
      * now rewrite remove_first_app_r, Hb.
      * exists bp. split; [|exact Hi]. apply in_or_app. now right.
    + intros bp Hin. apply in_app_or in Hin. destruct Hin; auto.
Qed.

Lemma remove_unresolved_spec index0 v :
  match remove_unresolved index0 v with
  | Some v' =>
      v' = remove_first index0 v /\
      exists bp, In bp v /\ index bp = index0
  | None => forall bp, In bp v -> index bp <> index0
  end.
Proof.
  induction v as [|bp v IH]; simpl; [tauto|].
  rewrite (N.eqb_sym index0 (index bp)).
  destruct (index bp =? index0) eqn:E.
  - apply N.eqb_eq in E. split; [reflexivity|]. exists bp. auto.
  - apply N.eqb_neq in E.
    destruct (remove_unresolved index0 v) as [v'|]; simpl.
    + destruct IH as [-> (bp0 & Hin & Hi)]. split; [reflexivity|].
      exists bp0. auto.
    + intros bp0 [<-|Hin]; auto.
Qed.

(** C6. [RemoveBreakPoint] with an index that no resolved and no
    unresolved breakpoint has returns false and leaves the state as it
    was.  When a resolved breakpoint has the index, the call returns true,
    the resolved breakpoints lose the first one (in iteration order) with
    that index and nothing else, and the unresolved list is untouched, even
    if it holds a match.  When only unresolved breakpoints have the index,
    the call returns true, the resolved maps are untouched and the
    unresolved list loses its first match and nothing else. *)
Theorem RemoveBreakPoint_removes_first_match (s : Impl) (index0 : N) :
  ((forall bp,
       In bp (resolved_breakpoints s ++ unresolved_breakpoints_ s) ->
       index bp <> index0) ->
   RemoveBreakPoint s index0 = (false, s)) /\
  ((exists bp, In bp (resolved_breakpoints s) /\ index bp = index0) ->
   fst (RemoveBreakPoint s index0) = true /\
   resolved_breakpoints (snd (RemoveBreakPoint s index0))
     = remove_first index0 (resolved_breakpoints s) /\
   unresolved_breakpoints_ (snd (RemoveBreakPoint s index0))
     = unresolved_breakpoints_ s) /\
  ((forall bp, In bp (resolved_breakpoints s) -> index bp <> index0) ->
   (exists bp, In bp (unresolved_breakpoints_ s) /\ index bp = index0) ->
   fst (RemoveBreakPoint s index0) = true /\
   breakpoints_ (snd (RemoveBreakPoint s index0)) = breakpoints_ s /\
   unresolved_breakpoints_ (snd (RemoveBreakPoint s index0))
     = remove_first index0 (unresolved_breakpoints_ s)).
Proof.
  unfold RemoveBreakPoint, resolved_breakpoints.
  pose proof (remove_resolved_spec index0 (breakpoints_ s)) as Hr.
  pose proof (remove_unresolved_spec index0 (unresolved_breakpoints_ s)) as Hu.
  destruct (remove_resolved index0 (breakpoints_ s)) as [bps'|].
  - destruct Hr as [Hflat (bp0 & Hin0 & Hi0)]. split; [|split].
    + intros Hno. exfalso. apply (Hno bp0); [|exact Hi0].
      apply in_or_app. now left.
    + intros _. simpl. auto.
    + intros Hno _. exfalso. exact (Hno bp0 Hin0 Hi0).
  - destruct (remove_unresolved index0 (unresolved_breakpoints_ s)) as [v'|].
    + destruct Hu as [-> (bp0 & Hin0 & Hi0)]. split; [|split].
      * intros Hno. exfalso. apply (Hno bp0); [|exact Hi0].
        apply in_or_app. now right.
      * intros (bp1 & Hin1 & Hi1). exfalso. exact (Hr bp1 Hin1 Hi1).
      * intros _ _. simpl. auto.
    + split; [|split].
      * reflexivity.
      * intros (bp1 & Hin1 & Hi1). exfalso. exact (Hr bp1 Hin1 Hi1).
      * intros _ (bp1 & Hin1 & Hi1). exfalso. exact (Hu bp1 Hin1 Hi1).
Qed.

Lemma RemoveBreakPoint_removes_first_match_witness :
  let s := with_unresolved_breakpoints_
             (with_breakpoints_ Impl_new
                [(3, [("/a.rb", mkBreakPoint 1 "/a.rb" 3);
                      ("/b.rb", mkBreakPoint 2 "/b.rb" 3)])])
             [mkBreakPoint 4 "c.rb" 9; mkBreakPoint 4 "d.rb" 1] in
  RemoveBreakPoint s 7 = (false, s) /\
  (fst (RemoveBreakPoint s 2) = true /\
   resolved_breakpoints (snd (RemoveBreakPoint s 2))
     = remove_first 2 (resolved_breakpoints s) /\
   unresolved_breakpoints_ (snd (RemoveBreakPoint s 2))
     = unresolved_breakpoints_ s) /\
  (fst (RemoveBreakPoint s 4) = true /\
   breakpoints_ (snd (RemoveBreakPoint s 4)) = breakpoints_ s /\
   unresolved_breakpoints_ (snd (RemoveBreakPoint s 4))
     = remove_first 4 (unresolved_breakpoints_ s)).
Proof.
  intros s. split; [|split].
  - apply (proj1 (@RemoveBreakPoint_removes_first_match s 7)).
    intros bp [<-|[<-|[<-|[<-|[]]]]]; discriminate.
  - apply (proj1 (proj2 (@RemoveBreakPoint_removes_first_match s 2))).
    exists (mkBreakPoint 2 "/b.rb" 3). split; [right; left|]; reflexivity.
  - apply (proj2 (proj2 (@RemoveBreakPoint_removes_first_match s 4))).
    + intros bp [<-|[<-|[]]]; discriminate.
    + exists (mkBreakPoint 4 "c.rb" 9). split; [left|]; reflexivity.
Defined.

(** Two breakpoints on one line and one unresolved: removing index 2
    empties nothing else; removing an index nobody has changes nothing. *)
Example RemoveBreakPoint_example :
  let s := with_unresolved_breakpoints_
             (with_breakpoints_ Impl_new
                [(3, [("/a.rb", mkBreakPoint 1 "/a.rb" 3);
                      ("/b.rb", mkBreakPoint 2 "/b.rb" 3)])])
             [mkBreakPoint 4 "c.rb" 9] in
  fst (RemoveBreakPoint s 2) = true /\
  breakpoints_ (snd (RemoveBreakPoint s 2))
    = [(3, [("/a.rb", mkBreakPoint 1 "/a.rb" 3)])] /\
  RemoveBreakPoint s 7 = (false, s) /\
  unresolved_breakpoints_ (snd (RemoveBreakPoint s 4)) = [].
Proof. repeat split. Qed.

(** ** The trace hook with the step flag armed *)

(** A backtrace of at most [INT_MAX] entries is captured whole. *)
Lemma Impl_GetStackFrames_all (di : list (string * VALUE)) :
  (Z.of_nat (List.length di) <= INT_MAX)%Z ->
  Impl_GetStackFrames di = map (fun e => mkStackFrame (fst e) (snd e)) di.
Proof.
  intros Hlen. unfold Impl_GetStackFrames, DebugInspectorFunc; simpl.
  rewrite int_of_long_small by lia.
  now rewrite Nat2Z.id, firstn_all.
Qed.

(** C5. A line event delivered while [break_at_next_line_] is set makes
    the hook clear the flag, capture the frames of the live backtrace,
    record the event's file and line, set the stopped state and call the
    UI's [Break(file, line)].  Nothing is asked of the breakpoint store:
    the statement holds for every state, whatever breakpoints it holds, and
    neither the resolved maps nor the unresolved list are touched. *)
Theorem TraceFunc_step_armed_halts
  (s : Impl) (file_path : string) (lineno : Z)
  (backtrace : list (string * VALUE)) :
  break_at_next_line_ s = true ->
  let r := TraceFunc s (mkTraceArg id_line file_path lineno backtrace) in
  break_at_next_line_ (fst r) = false /\
  frames_ (fst r) = Impl_GetStackFrames backtrace /\
  ((Z.of_nat (List.length backtrace) <= INT_MAX)%Z ->
   frames_ (fst r)
   = map (fun e => mkStackFrame (fst e) (snd e)) backtrace) /\
  last_break_file_path_ (fst r) = file_path /\
  last_break_line_ (fst r) = size_t_of_int lineno /\
  ((0 <= lineno <= INT_MAX)%Z -> last_break_line_ (fst r) = Z.to_N lineno) /\
  is_stopped_ (fst r) = true /\
  snd r = Some (Break_line file_path (size_t_of_int lineno)) /\
  breakpoints_ (fst r) = breakpoints_ s /\
  unresolved_breakpoints_ (fst r) = unresolved_breakpoints_ s.
Proof.
  intros Harmed r. subst r. unfold TraceFunc; simpl. rewrite Harmed; simpl.
  split; [reflexivity|]. split; [reflexivity|].
  split; [apply Impl_GetStackFrames_all|].
  repeat split. apply size_t_of_int_nonneg.
Qed.

Lemma TraceFunc_step_armed_halts_witness :
  let s := run Impl_new [EvStart; EvCommand CmdStep; EvContinue] in
  let r := TraceFunc s (mkTraceArg id_line "/a.rb" 12 [("/a.rb:12", 77)]) in
  break_at_next_line_ (fst r) = false /\
  frames_ (fst r) = Impl_GetStackFrames [("/a.rb:12", 77)] /\
  ((Z.of_nat (List.length [("/a.rb:12", 77)]) <= INT_MAX)%Z ->
   frames_ (fst r)
   = map (fun e => mkStackFrame (fst e) (snd e)) [("/a.rb:12", 77)]) /\
  last_break_file_path_ (fst r) = "/a.rb" /\
  last_break_line_ (fst r) = size_t_of_int 12 /\
  ((0 <= 12 <= INT_MAX)%Z -> last_break_line_ (fst r) = Z.to_N 12) /\
  is_stopped_ (fst r) = true /\
  snd r = Some (Break_line "/a.rb" (size_t_of_int 12)) /\
  breakpoints_ (fst r) = breakpoints_ s /\
  unresolved_breakpoints_ (fst r) = unresolved_breakpoints_ s.
Proof.
  intros s.
  apply (@TraceFunc_step_armed_halts s "/a.rb" 12%Z [("/a.rb:12", 77)]).
  reflexivity.
Defined.

(** With the flag armed the hook halts on a line that has no breakpoint,
    and does not halt there when the flag is clear. *)
Example TraceFunc_step_example :
  let s := run Impl_new [EvStart; EvCommand CmdStep; EvContinue] in
  GetBreakPoint s "/a.rb" 12 = None /\
  snd (TraceFunc s (mkTraceArg id_line "/a.rb" 12 [])) =
    Some (Break_line "/a.rb" 12) /\
  snd (TraceFunc (run Impl_new [EvStart; EvContinue])
         (mkTraceArg id_line "/a.rb" 12 [])) = None.
Proof. repeat split. Qed.

(** ** Queries outside a halt *)

(** C7. In every reachable state where [IsStopped] is false,
    [GetStackFrames] returns no frame, [EvaluateExpression] returns the
    fixed message whatever the expression and the engine's evaluator, and
    [GetCodeLines] returns no line whatever its arguments. *)
Theorem queries_while_running_are_empty (s : Impl) :
  reachable s ->
  IsStopped s = false ->
  GetStackFrames s = [] /\
  (forall eval expr,
     EvaluateExpression eval s expr = "Expression cannot be evaluated") /\
  (forall beg_line end_line, fst (GetCodeLines s beg_line end_line) = []).
Proof.
  intros Hr Hrun. apply reachable_Inv in Hr.
  destruct Hr as ((Hhalt & _) & _). unfold IsStopped in Hrun.
  destruct (Hhalt Hrun) as (Hframes & _).
  split; [exact Hframes|]. split.
  - intros eval expr. unfold EvaluateExpression. now rewrite Hframes.
  - intros b e. unfold GetCodeLines, IsStopped. now rewrite Hrun.
Qed.

Lemma queries_while_running_are_empty_witness :
  let s := run Impl_new
             [EvStart; EvCommand CmdStep; EvContinue;
              EvTrace (mkTraceArg id_line "/a.rb" 2 [("/a.rb:2", 77)]);
              EvContinue] in
  GetStackFrames s = [] /\
  (forall eval expr,
     EvaluateExpression eval s expr = "Expression cannot be evaluated") /\
  (forall beg_line end_line, fst (GetCodeLines s beg_line end_line) = []).
Proof.
  intros s. apply (@queries_while_running_are_empty s).
  - eexists. reflexivity.
  - reflexivity.
Defined.

(** ** The recorded break line outside a halt *)

(** C10. [ClearBreakData] leaves the server not stopped with a break line
    of 0, and in every reachable state where [IsStopped] is false
    [GetBreakLineNumber] returns 0; so a break line other than 0 is only
    seen in a stopped state. *)
Theorem break_line_is_zero_while_running (s : Impl) :
  reachable s ->
  (IsStopped (ClearBreakData s) = false /\
   GetBreakLineNumber (ClearBreakData s) = 0) /\
  (IsStopped s = false -> GetBreakLineNumber s = 0) /\
  (GetBreakLineNumber s <> 0 -> IsStopped s = true).
Proof.
  intros Hr. apply reachable_Inv in Hr.
  destruct Hr as ((Hhalt & _) & _).
  unfold IsStopped, GetBreakLineNumber.
  split; [split; reflexivity|]. split.
  - intros Hrun. now destruct (Hhalt Hrun) as (_ & _ & Hline).
  - intros Hline. destruct (is_stopped_ s) eqn:E; [reflexivity|].
    destruct (Hhalt eq_refl) as (_ & _ & H0). contradiction.
Qed.

Lemma break_line_is_zero_while_running_witness :
  let s := run Impl_new
             [EvStart; EvCommand CmdStep; EvContinue;
              EvTrace (mkTraceArg id_line "/a.rb" 2 [("/a.rb:2", 77)]);
              EvContinue] in
  (IsStopped (ClearBreakData s) = false /\
   GetBreakLineNumber (ClearBreakData s) = 0) /\
  (IsStopped s = false -> GetBreakLineNumber s = 0) /\
  (GetBreakLineNumber s <> 0 -> IsStopped s = true).
Proof.
  intros s. apply (@break_line_is_zero_while_running s).
  eexists. reflexivity.
Defined.

(** During the halt of the same history the break line is the event's. *)
Example break_line_during_halt :
  let s := run Impl_new
             [EvStart; EvCommand CmdStep; EvContinue;
              EvTrace (mkTraceArg id_line "/a.rb" 2 [("/a.rb:2", 77)])] in
  IsStopped s = true /\ GetBreakLineNumber s = 2.
Proof. split; reflexivity. Qed.

(** ** The active-frame cursor *)

(** C9. What [ShiftActiveFrame] does, and where the bound on the cursor
    breaks.  In every reachable state the call changes nothing but the
    cursor: while stopped it moves the cursor up by one when there is a
    frame above it and down by one when the cursor is above 0; it changes
    nothing while running, at index 0 when shifting toward newer frames,
    and at index [frame_count - 1] or beyond when shifting toward older
    ones; a cursor below the frame count stays below it.  But the cursor
    it starts from need not be below the frame count: [ClearBreakData]
    does not reset it.  After a halt with five frames in which the cursor
    was moved to 3, the next halt, with two frames, starts with the cursor
    at 3, and a shift toward newer frames moves it to 2, above
    [frame_count - 1 = 1]. *)
Theorem ShiftActiveFrame_from_stale_cursor :
  (forall s shift_up,
     reachable s ->
     let s' := ShiftActiveFrame s shift_up in
     s' = with_active_frame_index_ s (active_frame_index_ s') /\
     (IsStopped s = true -> shift_up = true ->
      active_frame_index_ s + 1 < size (frames_ s) ->
      active_frame_index_ s' = active_frame_index_ s + 1) /\
     (IsStopped s = true -> shift_up = false ->
      0 < active_frame_index_ s ->
      active_frame_index_ s' + 1 = active_frame_index_ s) /\
     (IsStopped s = false -> s' = s) /\
     (shift_up = false -> active_frame_index_ s = 0 -> s' = s) /\
     (shift_up = true ->
      size (frames_ s) <= active_frame_index_ s + 1 -> s' = s) /\
     (active_frame_index_ s < size (frames_ s) ->
      active_frame_index_ s' < size (frames_ s'))) /\
  let first_halt :=
    run Impl_new
      [EvStart; EvCommand CmdStep; EvContinue;
       EvTrace (mkTraceArg id_line "/a.rb" 5
                  [("/a.rb:5", 71); ("/a.rb:4", 72); ("/a.rb:3", 73);
                   ("/a.rb:2", 74); ("/a.rb:1", 75)]);
       EvCommand (CmdShiftActiveFrame true);
       EvCommand (CmdShiftActiveFrame true);
       EvCommand (CmdShiftActiveFrame true)] in
  let second_halt :=
    run first_halt
      [EvCommand CmdStep; EvContinue;
       EvTrace (mkTraceArg id_line "/b.rb" 2
                  [("/b.rb:2", 81); ("/b.rb:1", 82)])] in
  GetActiveFrameIndex first_halt = 3 /\
  IsStopped second_halt = true /\
  size (GetStackFrames second_halt) = 2 /\
  GetActiveFrameIndex second_halt = 3 /\
  GetActiveFrameIndex (ShiftActiveFrame second_halt false) = 2 /\
  size (GetStackFrames (ShiftActiveFrame second_halt false)) = 2 /\
  ~ GetActiveFrameIndex (ShiftActiveFrame second_halt false)
    <= size (GetStackFrames (ShiftActiveFrame second_halt false)) - 1.
Proof.
  split.
  - intros s shift_up Hr s'. apply reachable_Inv in Hr.
    destruct Hr as ((_ & Hframes & Hcursor) & _).
    assert (Hwrap : size_t_wrap (active_frame_index_ s + 1)
                    = active_frame_index_ s + 1).
    { unfold size_t_wrap, SIZE_MOD. apply N.mod_small.
      unfold INT_MAX in Hcursor. lia. }
    subst s'. unfold ShiftActiveFrame, IsStopped. rewrite Hwrap.
    destruct s as [u b li h sl st bn fr c lf ll]; simpl in *.
    destruct st, shift_up; simpl.
    + destruct (c + 1 <? size fr) eqn:E; simpl;
        [apply N.ltb_lt in E|apply N.ltb_ge in E];
        repeat split; auto; try discriminate; lia.
    + destruct (0 <? c) eqn:E; simpl;
        [apply N.ltb_lt in E|apply N.ltb_ge in E];
        repeat split; auto; try discriminate; lia.
    + repeat split; auto; try discriminate; lia.
    + repeat split; auto; discriminate.
  - vm_compute. repeat split; try reflexivity. intros H. now apply H.
Qed.

(** Two frames: up once, then the upper end holds; down once, then the
    lower end holds. *)
Example ShiftActiveFrame_example :
  let s := run Impl_new
             [EvStart; EvCommand CmdStep; EvContinue;
              EvTrace (mkTraceArg id_line "/a.rb" 2
                         [("/a.rb:2", 77); ("/a.rb:9", 78)])] in
  GetActiveFrameIndex s = 0 /\
  GetActiveFrameIndex (ShiftActiveFrame s false) = 0 /\
  GetActiveFrameIndex (ShiftActiveFrame s true) = 1 /\
  GetActiveFrameIndex (ShiftActiveFrame (ShiftActiveFrame s true) true) = 1 /\
  GetActiveFrameIndex (ShiftActiveFrame (ShiftActiveFrame s true) false) = 0.
Proof. repeat split. Qed.

(** C3. What the code does where the specification asks for a reset of the
    cursor: [ClearBreakData] discards the frames but never writes
    [active_frame_index_].  After a halt in which the cursor was moved to
    frame 1, the resumed server has no frames and a cursor of 1; at the
    next halt, on a stack of a single frame, the cursor is still 1, past
    the only frame, and [EvaluateExpression] answers with the fixed message
    although the server is stopped. *)
Theorem ClearBreakData_leaves_cursor_stale :
  (forall s, frames_ (ClearBreakData s) = [] /\
             active_frame_index_ (ClearBreakData s) = active_frame_index_ s) /\
  let halted :=
    run Impl_new
      [EvStart; EvCommand CmdStep; EvContinue;
       EvTrace (mkTraceArg id_line "/a.rb" 2
                  [("/a.rb:2", 77); ("/a.rb:9", 78)]);
       EvCommand (CmdShiftActiveFrame true); EvCommand CmdStep] in
  let resumed := TraceFunc_resume halted in
  let next :=
    fst (TraceFunc resumed (mkTraceArg id_line "/a.rb" 9 [("/a.rb:9", 78)])) in
  GetActiveFrameIndex halted = 1 /\
  IsStopped resumed = false /\
  GetStackFrames resumed = [] /\
  GetActiveFrameIndex resumed = 1 /\
  IsStopped next = true /\
  GetStackFrames next = [mkStackFrame "/a.rb:9" 78] /\
  GetActiveFrameIndex next = 1 /\
  (forall eval expr,
     EvaluateExpression eval next expr = "Expression cannot be evaluated").
Proof.
  split; [intros s; split; reflexivity|].
  repeat split.
Qed.

(** ** Breakpoint indices *)

Lemma ResolveBreakPoint_from_index it bp :
  index (snd (ResolveBreakPoint_from it bp)) = index bp.
Proof.
  induction it as [|[file_path lines] it IH]; simpl; [reflexivity|].
  destruct (0 <=? FindSubstringCaseInsensitive file_path (file bp))%Z;
    [destruct (line bp <=? size lines)|]; auto.
Qed.

(** An [AddBreakPoint] call on a breakpoint that arrives with index 0
    hands out the successor of the counter and stores it in the counter. *)
Lemma AddBreakPoint_assigns_next s bp :
  index bp = 0 ->
  last_breakpoint_index s < SIZE_MAX ->
  index (snd (AddBreakPoint s bp)) = last_breakpoint_index s + 1 /\
  last_breakpoint_index (snd (fst (AddBreakPoint s bp)))
    = last_breakpoint_index s + 1.
Proof.
  intros Hzero Hroom. unfold AddBreakPoint, ResolveBreakPoint.
  pose proof (ResolveBreakPoint_from_index
                (script_lines_ (ReadScriptLinesHash s)) bp) as Hidx.
  destruct (ResolveBreakPoint_from (script_lines_ (ReadScriptLinesHash s)) bp)
    as [r bp']. simpl in Hidx.
  unfold Impl_AddBreakPoint. rewrite Hidx, Hzero. simpl.
  assert (Hwrap : size_t_wrap (last_breakpoint_index s + 1)
                  = last_breakpoint_index s + 1).
  { unfold size_t_wrap. apply N.mod_small. unfold SIZE_MAX in Hroom. lia. }
  rewrite Hwrap. destruct r; simpl; auto.
Qed.

Lemma RemoveBreakPoint_counter s index0 :
  last_breakpoint_index (snd (RemoveBreakPoint s index0))
  = last_breakpoint_index s.
Proof.
  unfold RemoveBreakPoint.
  destruct (remove_resolved _ _); [reflexivity|].
  destruct (remove_unresolved _ _); reflexivity.
Qed.

Lemma run_ops_assigned ops : forall s,
  Forall arrives_unindexed ops ->
  last_breakpoint_index s + N.of_nat (count_adds ops) <= SIZE_MAX ->
  snd (run_ops s ops)
  = map (fun k => last_breakpoint_index s + N.of_nat k)
        (seq 1 (count_adds ops)) /\
  last_breakpoint_index (fst (run_ops s ops))
  = last_breakpoint_index s + N.of_nat (count_adds ops).
Proof.
  induction ops as [|[bp|index0] ops IH]; intros s Hall Hroom.
  - simpl. split; [reflexivity|lia].
  - inversion Hall as [|op ops' Hbp Hrest]; subst.
    change (index bp = 0) in Hbp.
    change (count_adds (OpAdd bp :: ops)) with (S (count_adds ops)) in *.
    rewrite Nat2N.inj_succ in *.
    change (run_ops s (OpAdd bp :: ops))
      with (let '(_, s', bp') := AddBreakPoint s bp in
            let '(s'', assigned) := run_ops s' ops in
            (s'', index bp' :: assigned)).
    assert (Hlt : last_breakpoint_index s < SIZE_MAX) by lia.
    destruct (AddBreakPoint_assigns_next s bp Hbp Hlt) as [Hi Hl].
    destruct (AddBreakPoint s bp) as [[ok s'] bp'].
    cbn [fst snd] in Hi, Hl.
    assert (Hroom' : last_breakpoint_index s' + N.of_nat (count_adds ops)
                     <= SIZE_MAX) by lia.
    destruct (IH s' Hrest Hroom') as [Ha Hc].
    destruct (run_ops s' ops) as [s'' assigned].
    cbn [fst snd] in *.
    split; [|lia].
    rewrite Hi, Ha, Hl.
    change (seq 1 (S (count_adds ops))) with (1%nat :: seq 2 (count_adds ops)).
    rewrite <- (seq_shift (count_adds ops) 1), map_cons, map_map. f_equal.
    apply map_ext. intros k. lia.
  - inversion Hall as [|op ops' _ Hrest]; subst.
    change (count_adds (OpRemove index0 :: ops)) with (count_adds ops) in *.
    change (run_ops s (OpRemove index0 :: ops))
      with (run_ops (snd (RemoveBreakPoint s index0)) ops).
    rewrite <- (RemoveBreakPoint_counter s index0). apply IH; auto.
    now rewrite RemoveBreakPoint_counter.
Qed.

Lemma offsets_increase (base : N) n : forall start,
  StronglySorted N.lt (map (fun k => base + N.of_nat k) (seq start n)).
Proof.
  induction n as [|n IH]; intros start; simpl; constructor.
  - apply IH.
  - rewrite Forall_forall. intros x Hx.
    rewrite in_map_iff in Hx. destruct Hx as (k & <- & Hk).
    rewrite in_seq in Hk. lia.
Qed.

(** C4. Take any state and any sequence of [AddBreakPoint] and
    [RemoveBreakPoint] calls in which every added breakpoint arrives with
    index 0, and which does not exhaust the [size_t] counter.  Then the
    indices handed out are, in call order, the successors of the counter:
    none is zero, they are strictly increasing, so an index handed out
    once is never handed out again, whatever was removed in between.  On a
    freshly started server, adding three breakpoints and removing index 2
    leaves the breakpoints with indices 1 and 3, and a fourth addition
    receives index 4. *)
Theorem breakpoint_indices_increase_without_reuse
  (s : Impl) (ops : list StoreOp) :
  Forall arrives_unindexed ops ->
  last_breakpoint_index s + N.of_nat (count_adds ops) <= SIZE_MAX ->
  snd (run_ops s ops)
    = map (fun k => last_breakpoint_index s + N.of_nat k)
          (seq 1 (count_adds ops)) /\
  Forall (fun i => i <> 0) (snd (run_ops s ops)) /\
  StronglySorted N.lt (snd (run_ops s ops)) /\
  (forall f1 l1 f2 l2 f3 l3 f4 l4,
     let s3 :=
       fst (run_ops (Start Impl_new)
              [OpAdd (mkBreakPoint 0 f1 l1); OpAdd (mkBreakPoint 0 f2 l2);
               OpAdd (mkBreakPoint 0 f3 l3); OpRemove 2]) in
     map index (fst (GetBreakPoints s3)) = [1; 3] /\
     index (snd (AddBreakPoint (snd (GetBreakPoints s3))
                   (mkBreakPoint 0 f4 l4))) = 4).
Proof.
  intros Hall Hroom.
  destruct (run_ops_assigned s Hall Hroom) as [Ha _].
  split; [exact Ha|]. rewrite Ha. split; [|split].
  - rewrite Forall_forall. intros i Hi.
    rewrite in_map_iff in Hi. destruct Hi as (k & <- & Hk).
    rewrite in_seq in Hk. lia.
  - apply offsets_increase.
  - intros. split; vm_compute; reflexivity.
Qed.

Lemma breakpoint_indices_increase_without_reuse_witness :
  let s := Start Impl_new in
  let ops := [OpAdd (mkBreakPoint 0 "a.rb" 1); OpAdd (mkBreakPoint 0 "b.rb" 2);
              OpRemove 1; OpAdd (mkBreakPoint 0 "c.rb" 3)] in
  snd (run_ops s ops)
    = map (fun k => last_breakpoint_index s + N.of_nat k)
          (seq 1 (count_adds ops)) /\
  Forall (fun i => i <> 0) (snd (run_ops s ops)) /\
  StronglySorted N.lt (snd (run_ops s ops)) /\
  (forall f1 l1 f2 l2 f3 l3 f4 l4,
     let s3 :=
       fst (run_ops (Start Impl_new)
              [OpAdd (mkBreakPoint 0 f1 l1); OpAdd (mkBreakPoint 0 f2 l2);
               OpAdd (mkBreakPoint 0 f3 l3); OpRemove 2]) in
     map index (fst (GetBreakPoints s3)) = [1; 3] /\
     index (snd (AddBreakPoint (snd (GetBreakPoints s3))
                   (mkBreakPoint 0 f4 l4))) = 4).
Proof.
  intros s ops.
  apply (@breakpoint_indices_increase_without_reuse s ops).
  - repeat constructor.
  - vm_compute. discriminate.
Defined.

(** The scenario with resolved breakpoints: three lines of one loaded
    file. *)
Example breakpoint_indices_resolved_example :
  let s0 := run Impl_new
              [EvStart; EvEngineLoads [("/a.rb", ["x"; "y"; "z"])]] in
  let r := run_ops s0
             [OpAdd (mkBreakPoint 0 "a.rb" 1); OpAdd (mkBreakPoint 0 "a.rb" 2);
              OpAdd (mkBreakPoint 0 "a.rb" 3); OpRemove 2;
              OpAdd (mkBreakPoint 0 "a.rb" 2)] in
  snd r = [1; 2; 3; 4] /\
  fst (GetBreakPoints (fst r))
  = [mkBreakPoint 1 "/a.rb" 1; mkBreakPoint 3 "/a.rb" 3;
     mkBreakPoint 4 "/a.rb" 2].
Proof. split; reflexivity. Qed.

(** ** The source window *)

Lemma code_lines_from_seq lines count : forall i,
  code_lines_from lines i count
  = map (fun k => (N.of_nat k, nth (k - 1) lines ""))
        (seq (N.to_nat i + 1) count).
Proof.
  induction count as [|count IH]; intros i; simpl; [reflexivity|].
  f_equal.
  - f_equal; [lia|]. f_equal. lia.
  - rewrite IH. f_equal. f_equal. lia.
Qed.

Lemma code_window_inverted lines lo hi : hi < lo -> code_window lines lo hi = [].
Proof.
  intros Hlt. unfold code_window.
  replace (N.to_nat (hi + 1 - lo)) with O by lia. reflexivity.
Qed.

Lemma length_code_window lines lo hi :
  List.length (code_window lines lo hi) = N.to_nat (hi + 1 - lo).
Proof.
  unfold code_window. now rewrite length_map, length_seq.
Qed.

(** What [GetCodeLines] returns while stopped in a known file. *)
Lemma GetCodeLines_known_file s lines beg_line end_line :
  reachable s ->
  IsStopped s = true ->
  StdMap.find (last_break_file_path_ s) (script_lines_ (ReadScriptLinesHash s))
    = Some lines ->
  fst (GetCodeLines s beg_line end_line)
  = code_window lines
      (window_begin (last_break_line_ s) beg_line)
      (N.min (size lines)
         (if end_line =? 0 then size_t_wrap (last_break_line_ s + 5)
          else end_line)).
Proof.
  intros Hr Hst Hfind.
  assert (Hsize : (Z.of_N (size lines) <= INT_MAX)%Z).
  { apply reachable_Inv in Hr. destruct Hr as (_ & Hreg & _).
    apply ReadScriptLinesHash_registry_ok in Hreg. destruct Hreg as [_ Hall].
    rewrite Forall_forall in Hall.
    apply (Hall (last_break_file_path_ s, lines)).
    now apply StdMapFacts.find_In. }
  unfold GetCodeLines. rewrite Hst.
  change (last_break_file_path_ (ReadScriptLinesHash s))
    with (last_break_file_path_ s).
  change (last_break_line_ (ReadScriptLinesHash s)) with (last_break_line_ s).
  rewrite Hfind.
  set (L := last_break_line_ s).
  set (e1 := if end_line =? 0 then size_t_wrap (L + 5) else end_line).
  assert (Hwrap : size_t_wrap (size lines + 1) = size lines + 1).
  { unfold size_t_wrap, SIZE_MOD. apply N.mod_small.
    unfold INT_MAX in Hsize. lia. }
  rewrite Hwrap.
  assert (Hend : (if size lines + 1 <=? e1 then size lines else e1)
                 = N.min (size lines) e1).
  { destruct (size lines + 1 <=? e1) eqn:E.
    - apply N.leb_le in E. lia.
    - apply N.leb_gt in E. lia. }
  rewrite Hend.
  assert (Hbeg : (if beg_line =? 0
                  then if 5 <? L then L - 5 else 1
                  else beg_line) = window_begin L beg_line).
  { unfold window_begin. destruct (beg_line =? 0); [|reflexivity].
    destruct (5 <? L) eqn:E.
    - apply N.ltb_lt in E. lia.
    - apply N.ltb_ge in E. lia. }
  rewrite Hbeg.
  assert (Hpos : 1 <= window_begin L beg_line).
  { unfold window_begin. destruct (beg_line =? 0) eqn:E; [lia|].
    apply N.eqb_neq in E. lia. }
  destruct (window_begin L beg_line <=? N.min (size lines) e1) eqn:E; simpl.
  - apply N.leb_le in E. rewrite code_lines_from_seq. unfold code_window.
    f_equal. f_equal; lia.
  - apply N.leb_gt in E. now rewrite code_window_inverted.
Qed.

(** C8. While the server is stopped: if the break file is known and the
    break line is one of its lines, [GetCodeLines(0, 0)] returns the lines
    from five before the break line, but not before line 1, through five
    after it, but not after the last line, each with its number: at most
    11 lines.  If the break file is unknown the result is empty whatever
    the arguments.  In a known file, whenever the last line asked for
    (clamped to the file) lies before the first, the result is empty; in
    particular for an explicit range whose end is below its begin. *)
Theorem GetCodeLines_window (s : Impl) :
  reachable s ->
  IsStopped s = true ->
  (forall lines,
     StdMap.find (last_break_file_path_ s)
       (script_lines_ (ReadScriptLinesHash s)) = Some lines ->
     1 <= last_break_line_ s <= size lines ->
     fst (GetCodeLines s 0 0)
     = code_window lines (N.max 1 (last_break_line_ s - 5))
         (N.min (size lines) (last_break_line_ s + 5)) /\
     (1 <= List.length (fst (GetCodeLines s 0 0)) <= 11)%nat) /\
  (StdMap.find (last_break_file_path_ s)
     (script_lines_ (ReadScriptLinesHash s)) = None ->
   forall beg_line end_line, fst (GetCodeLines s beg_line end_line) = []) /\
  (forall lines beg_line end_line,
     StdMap.find (last_break_file_path_ s)
       (script_lines_ (ReadScriptLinesHash s)) = Some lines ->
     last_break_line_ s + 5 < SIZE_MOD ->
     fst (GetCodeLines s beg_line end_line)
     = code_window lines (window_begin (last_break_line_ s) beg_line)
         (window_end (size lines) (last_break_line_ s) end_line) /\
     (window_end (size lines) (last_break_line_ s) end_line
      < window_begin (last_break_line_ s) beg_line ->
      fst (GetCodeLines s beg_line end_line) = [])) /\
  (forall lines beg_line end_line,
     StdMap.find (last_break_file_path_ s)
       (script_lines_ (ReadScriptLinesHash s)) = Some lines ->
     beg_line <> 0 -> end_line <> 0 -> end_line < beg_line ->
     fst (GetCodeLines s beg_line end_line) = []) /\
  (forall lines,
     StdMap.find (last_break_file_path_ s)
       (script_lines_ (ReadScriptLinesHash s)) = Some lines ->
     size lines = 20 -> last_break_line_ s = 2 ->
     fst (GetCodeLines s 0 0) = code_window lines 1 7).
Proof.
  intros Hr Hst.
  assert (Hmain : forall lines,
     StdMap.find (last_break_file_path_ s)
       (script_lines_ (ReadScriptLinesHash s)) = Some lines ->
     1 <= last_break_line_ s <= size lines ->
     fst (GetCodeLines s 0 0)
     = code_window lines (N.max 1 (last_break_line_ s - 5))
         (N.min (size lines) (last_break_line_ s + 5)) /\
     (1 <= List.length (fst (GetCodeLines s 0 0)) <= 11)%nat);
    [|split; [exact Hmain|split; [|split; [|split]]]].
  - intros lines Hfind Hline.
    assert (Hsize : (Z.of_N (size lines) <= INT_MAX)%Z).
    { apply reachable_Inv in Hr. destruct Hr as (_ & Hreg & _).
      apply ReadScriptLinesHash_registry_ok in Hreg. destruct Hreg as [_ Hall].
      rewrite Forall_forall in Hall.
      apply (Hall (last_break_file_path_ s, lines)).
      now apply StdMapFacts.find_In. }
    rewrite (GetCodeLines_known_file 0 0 Hr Hst Hfind).
    unfold window_begin. simpl (0 =? 0).  cbv iota.
    assert (Hwrap : size_t_wrap (last_break_line_ s + 5)
                    = last_break_line_ s + 5).
    { unfold size_t_wrap, SIZE_MOD. apply N.mod_small.
      unfold INT_MAX in Hsize. lia. }
    rewrite Hwrap. split; [reflexivity|].
    rewrite length_code_window. lia.
  - intros Hfind b e. unfold GetCodeLines. rewrite Hst.
    change (last_break_file_path_ (ReadScriptLinesHash s))
      with (last_break_file_path_ s).
    now rewrite Hfind.
  - intros lines b e Hfind Hroom.
    rewrite (GetCodeLines_known_file b e Hr Hst Hfind).
    assert (Hwrap : size_t_wrap (last_break_line_ s + 5)
                    = last_break_line_ s + 5).
    { unfold size_t_wrap. now apply N.mod_small. }
    rewrite Hwrap. fold (window_end (size lines) (last_break_line_ s) e).
    split; [reflexivity|]. apply code_window_inverted.
  - intros lines b e Hfind Hb He Hlt.
    rewrite (GetCodeLines_known_file b e Hr Hst Hfind).
    apply code_window_inverted.
    unfold window_begin.
    apply N.eqb_neq in Hb, He. rewrite Hb, He. lia.
  - intros lines Hfind H20 H2.
    destruct (Hmain lines Hfind ltac:(lia)) as [-> _].
    rewrite H20, H2. reflexivity.
Qed.

Lemma GetCodeLines_window_witness :
  let s := run Impl_new
             [EvStart;
              EvEngineLoads
                [("/a.rb", ["l1"; "l2"; "l3"; "l4"; "l5"; "l6"; "l7"; "l8";
                            "l9"; "l10"; "l11"; "l12"; "l13"; "l14"; "l15";
                            "l16"; "l17"; "l18"; "l19"; "l20"])];
              EvCommand CmdStep; EvContinue;
              EvTrace (mkTraceArg id_line "/a.rb" 2 [("/a.rb:2", 77)])] in
  IsStopped s = true /\
  fst (GetCodeLines s 0 0)
  = [(1, "l1"); (2, "l2"); (3, "l3"); (4, "l4"); (5, "l5"); (6, "l6");
     (7, "l7")] /\
  fst (GetCodeLines s 9 4) = [] /\
  fst (GetCodeLines s 19 25) = [(19, "l19"); (20, "l20")].
Proof.
  intros s.
  assert (Hr : reachable s) by (eexists; reflexivity).
  assert (Hst : IsStopped s = true) by reflexivity.
  pose proof (@GetCodeLines_window s Hr Hst) as (H00 & _ & Hany & Hinv & H20).
  split; [exact Hst|]. split; [|split].
  - exact (H20 _ eq_refl eq_refl eq_refl).
  - apply (Hinv _ 9 4 eq_refl); [discriminate|discriminate|reflexivity].
  - destruct (Hany _ 19 25 eq_refl eq_refl) as [Heq _]. exact Heq.
Defined.

(** An unknown break file: the halt reached from [Start], before any line
    event, has an empty break file. *)
Example GetCodeLines_unknown_file :
  let s := run Impl_new [EvStart] in
  IsStopped s = true /\ fst (GetCodeLines s 0 0) = [] /\
  fst (GetCodeLines s 1 3) = [].
Proof. repeat split. Qed.

(* ------------------------------------------------------------------ *)
(** * Further properties of the server *)

(** ** More facts about the ordered maps *)

Module StdMapLookup.
Section Lookup.
Context {K V : Type} `{KeyOrdLaws K}.
Implicit Types (k : K) (v : V) (m : StdMap.t K V).

Lemma kcmp_neq_cases k k' :
  k' <> k -> kcmp k' k = Lt \/ kcmp k' k = Gt.
Proof.
  intros Hne. destruct (kcmp k' k) eqn:E; auto.
  apply kcmp_eq in E. contradiction.
Qed.

Lemma find_subscript_set_other k k' v m :
  k' <> k ->
  StdMap.find k' (StdMap.subscript_set k v m) = StdMap.find k' m.
Proof.
  intros Hne. induction m as [|[k0 v0] m IH]; simpl.
  - destruct (kcmp_neq_cases Hne) as [E|E]; now rewrite E.
  - destruct (kcmp k k0) eqn:E0; simpl.
    + apply kcmp_eq in E0. subst k0.
      destruct (kcmp_neq_cases Hne) as [E|E]; now rewrite E.
    + destruct (kcmp_neq_cases Hne) as [E|E]; rewrite E; [|reflexivity].
      now rewrite (kcmp_trans _ _ _ E E0).
    + destruct (kcmp k' k0); auto.
Qed.

Lemma find_insert_other k k' v m :
  k' <> k ->
  StdMap.find k' (StdMap.insert k v m) = StdMap.find k' m.
Proof.
  intros Hne. induction m as [|[k0 v0] m IH]; simpl.
  - destruct (kcmp_neq_cases Hne) as [E|E]; now rewrite E.
  - destruct (kcmp k k0) eqn:E0; simpl.
    + reflexivity.
    + destruct (kcmp_neq_cases Hne) as [E|E]; rewrite E; [|reflexivity].
      now rewrite (kcmp_trans _ _ _ E E0).
    + destruct (kcmp k' k0); auto.
Qed.

(** An entry that is there survives any [insert]. *)
Lemma find_insert_kept k k' v v' m :
  StdMap.find k' m = Some v' ->
  StdMap.find k' (StdMap.insert k v m) = Some v'.
Proof.
  intros Hf. destruct (kcmp k' k) eqn:E.
  - apply kcmp_eq in E. subst k'.
    now rewrite (StdMapFacts.insert_present _ _ _ Hf).
  - rewrite find_insert_other; [exact Hf|].
    intros ->. now rewrite kcmp_refl in E.
  - rewrite find_insert_other; [exact Hf|].
    intros ->. now rewrite kcmp_refl in E.
Qed.

(** Where a new key goes: the entries before and after it are the old
    ones, in their order. *)
Lemma insert_absent_split k v m :
  StdMap.find k m = None ->
  exists l1 l2, m = l1 ++ l2 /\ StdMap.insert k v m = l1 ++ (k, v) :: l2.
Proof.
  induction m as [|[k0 v0] m IH]; simpl.
  - intros _. exists [], []. split; reflexivity.
  - destruct (kcmp k k0) eqn:E; try discriminate.
    + intros _. exists [], ((k0, v0) :: m). split; reflexivity.
    + intros Hf. destruct (IH Hf) as (l1 & l2 & -> & ->).
      exists ((k0, v0) :: l1), l2. split; reflexivity.
Qed.

Lemma subscript_set_split k v m :
  (exists l1 l2, m = l1 ++ l2 /\ StdMap.find k m = None /\
                 StdMap.subscript_set k v m = l1 ++ (k, v) :: l2) \/
  (exists l1 v0 l2, m = l1 ++ (k, v0) :: l2 /\
                    StdMap.find k m = Some v0 /\
                    StdMap.subscript_set k v m = l1 ++ (k, v) :: l2).
Proof.
  induction m as [|[k0 v0] m IH]; simpl.
  - left. exists [], []. repeat split.
  - destruct (kcmp k k0) eqn:E.
    + apply kcmp_eq in E. subst k0. right. exists [], v0, m. repeat split.
    + left. exists [], ((k0, v0) :: m). repeat split.
    + destruct IH as [(l1 & l2 & -> & Hf & ->)|(l1 & v1 & l2 & -> & Hf & ->)].
      * left. exists ((k0, v0) :: l1), l2. repeat split. exact Hf.
      * right. exists ((k0, v0) :: l1), v1, l2. repeat split. exact Hf.
Qed.

Lemma find_None_not_In k m :
  StdMap.sorted m = true -> StdMap.find k m = None ->
  forall v, ~ In (k, v) m.
Proof.
  intros Hs Hf v Hin. now rewrite (StdMapFacts.In_find _ _ _ Hs Hin) in Hf.
Qed.
End Lookup.
End StdMapLookup.

Unset Implicit Arguments.

(** ** The source registry *)

Lemma EachKeyValFunc_find path key val script_lines :
  StdMap.find path (EachKeyValFunc key val script_lines)
  = match StdMap.find path script_lines with
    | Some lines => Some lines
    | None => if String.eqb key path then Some (copied_lines val) else None
    end.
Proof.
  unfold EachKeyValFunc, copied_lines.
  destruct (String.eqb_spec key path) as [->|Hne].
  - destruct (StdMap.find path script_lines) as [lines|] eqn:E.
    + now rewrite E.
    + now rewrite StdMapFacts.find_subscript_set.
  - destruct (StdMap.find key script_lines) eqn:Ek.
    + now destruct (StdMap.find path script_lines).
    + rewrite StdMapLookup.find_subscript_set_other by congruence.
      now destruct (StdMap.find path script_lines).
Qed.

Lemma fold_EachKeyValFunc_find path hash : forall script_lines,
  StdMap.find path
    (fold_left (fun m kv => EachKeyValFunc (fst kv) (snd kv) m)
       hash script_lines)
  = match StdMap.find path script_lines with
    | Some lines => Some lines
    | None => option_map copied_lines (hash_first path hash)
    end.
Proof.
  induction hash as [|[key val] hash IH]; intros m; simpl.
  - now destruct (StdMap.find path m).
  - rewrite IH, EachKeyValFunc_find.
    destruct (StdMap.find path m); [reflexivity|].
    now destruct (String.eqb key path).
Qed.

(** X1. What a path looks up to after the registry is refreshed: a file
    the registry already knew keeps its lines, whatever the engine's hash
    now holds for it; an unknown file gets the lines of the first hash
    entry for its path, as many as that array's length read as an [int];
    a path the hash does not have stays unknown. *)
Theorem ReadScriptLinesHash_lookup (s : Impl) (path : string) :
  StdMap.find path (script_lines_ (ReadScriptLinesHash s))
  = match StdMap.find path (script_lines_ s) with
    | Some lines => Some lines
    | None => option_map copied_lines (hash_first path (script_lines_hash_ s))
    end.
Proof.
  unfold ReadScriptLinesHash; simpl. apply fold_EachKeyValFunc_find.
Qed.

Lemma copied_lines_all (val : list string) :
  (Z.of_nat (List.length val) <= INT_MAX)%Z -> copied_lines val = val.
Proof.
  intros Hlen. unfold copied_lines.
  rewrite int_of_long_small by lia.
  now rewrite Nat2Z.id, firstn_all.
Qed.

Lemma hash_first_In path val hash :
  In (path, val) hash -> hash_first path hash <> None.
Proof.
  induction hash as [|[k v] hash IH]; simpl; [contradiction|].
  intros [[= -> ->]|Hin].
  - now rewrite String.eqb_refl.
  - destruct (String.eqb k path); [discriminate|auto].
Qed.

Lemma fold_EachKeyValFunc_known hash : forall script_lines,
  (forall kv, In kv hash -> StdMap.find (fst kv) script_lines <> None) ->
  fold_left (fun m kv => EachKeyValFunc (fst kv) (snd kv) m) hash script_lines
  = script_lines.
Proof.
  induction hash as [|[key val] hash IH]; intros m Hknown; simpl;
    [reflexivity|].
  assert (Hsame : EachKeyValFunc key val m = m).
  { unfold EachKeyValFunc.
    destruct (StdMap.find key m) eqn:E; [reflexivity|].
    exfalso. apply (Hknown (key, val)); [now left|exact E]. }
  rewrite Hsame. apply IH. intros kv Hin. apply Hknown. now right.
Qed.

Lemma ReadScriptLinesHash_knows_hash (s : Impl) path val :
  In (path, val) (script_lines_hash_ s) ->
  StdMap.find path (script_lines_ (ReadScriptLinesHash s)) <> None.
Proof.
  intros Hin. unfold ReadScriptLinesHash; simpl.
  rewrite fold_EachKeyValFunc_find.
  destruct (StdMap.find path (script_lines_ s)); [discriminate|].
  pose proof (hash_first_In _ _ _ Hin) as Hh.
  destruct (hash_first path (script_lines_hash_ s)); [discriminate|].
  contradiction.
Qed.

(** X2. Refreshing the registry makes every file of the engine's hash
    known, and a second refresh from the same hash changes nothing. *)
Theorem ReadScriptLinesHash_complete_and_idempotent (s : Impl) :
  (forall path val,
     In (path, val) (script_lines_hash_ s) ->
     StdMap.find path (script_lines_ (ReadScriptLinesHash s)) <> None) /\
  ReadScriptLinesHash (ReadScriptLinesHash s) = ReadScriptLinesHash s.
Proof.
  split; [apply ReadScriptLinesHash_knows_hash|].
  unfold ReadScriptLinesHash at 1.
  change (script_lines_hash_ (ReadScriptLinesHash s))
    with (script_lines_hash_ s).
  rewrite fold_EachKeyValFunc_known.
  - now destruct s.
  - intros [path val] Hin. now apply (ReadScriptLinesHash_knows_hash s path val).
Qed.

(** The engine reloads a file with other content: the registry keeps the
    lines it saw first. *)
Example ReadScriptLinesHash_keeps_first_content :
  let s1 := ReadScriptLinesHash
              (with_script_lines_hash_ Impl_new [("/a.rb", ["old"])]) in
  let s2 := ReadScriptLinesHash
              (with_script_lines_hash_ s1
                 [("/a.rb", ["new"; "er"]); ("/b.rb", ["x"])]) in
  script_lines_ s2 = [("/a.rb", ["old"]); ("/b.rb", ["x"])].
Proof. reflexivity. Qed.

(** ** Lookup and iteration of the resolved breakpoints *)

Lemma In_resolved_of (bp : BreakPoint)
  (bps : StdMap.t N (StdMap.t string BreakPoint)) :
  In bp (flat_map (fun e => map snd (snd e)) bps) <->
  exists l m f, In (l, m) bps /\ In (f, bp) m.
Proof.
  rewrite in_flat_map. split.
  - intros ([l m] & Hin & Hbp). simpl in Hbp. rewrite in_map_iff in Hbp.
    destruct Hbp as ([f b] & Hb & Hinm). simpl in Hb. subst b.
    exists l, m, f. auto.
  - intros (l & m & f & Hin & Hinm). exists (l, m). split; [exact Hin|].
    simpl. rewrite in_map_iff. exists (f, bp). auto.
Qed.

Lemma store_ok_entry l m f bp bps :
  store_ok bps = true -> In (l, m) bps -> In (f, bp) m ->
  StdMap.sorted bps = true /\ StdMap.sorted m = true /\
  file bp = f /\ line bp = l.
Proof.
  unfold store_ok. rewrite andb_true_iff. intros [Hs Hall] Hin Hinm.
  rewrite forallb_forall in Hall. specialize (Hall _ Hin).
  unfold by_file_ok in Hall; simpl in Hall. rewrite andb_true_iff in Hall.
  destruct Hall as [Hsm Hm]. rewrite forallb_forall in Hm.
  specialize (Hm _ Hinm). apply entry_ok_location in Hm.
  unfold location in Hm; simpl in Hm. injection Hm as Hf Hl. auto.
Qed.

Lemma store_ok_lookup bps f l bp :
  store_ok bps = true ->
  (match StdMap.find l bps with
   | Some by_file => StdMap.find f by_file
   | None => None
   end = Some bp <->
   In bp (flat_map (fun e => map snd (snd e)) bps) /\ location bp = (f, l)).
Proof.
  intros Hok. rewrite In_resolved_of. split.
  - destruct (StdMap.find l bps) as [m|] eqn:El; [|discriminate].
    intros Hf. apply StdMapFacts.find_In in El, Hf.
    destruct (store_ok_entry _ _ _ _ _ Hok El Hf) as (_ & _ & <- & <-).
    split; [|reflexivity]. exists (line bp), m, (file bp). auto.
  - intros [(l' & m & f' & Hin & Hinm) Hloc].
    destruct (store_ok_entry _ _ _ _ _ Hok Hin Hinm) as (Hs & Hsm & Hf & Hl).
    unfold location in Hloc. injection Hloc as <- <-. subst f' l'.
    rewrite (StdMapFacts.In_find _ _ _ Hs Hin).
    now apply StdMapFacts.In_find.
Qed.

(** X3. In every reachable state the lookup the trace hook uses and the
    iteration [GetBreakPoints] uses agree: [GetBreakPoint(file, line)]
    returns a breakpoint exactly when that breakpoint is among the
    resolved ones and stands at exactly this file and line.  The
    unresolved list plays no part. *)
Theorem GetBreakPoint_agrees_with_iteration
  (s : Impl) (f : string) (l : N) (bp : BreakPoint) :
  reachable s ->
  (GetBreakPoint s f l = Some bp <->
   In bp (resolved_breakpoints s) /\ location bp = (f, l)).
Proof.
  intros Hr. apply reachable_Inv in Hr. destruct Hr as (_ & _ & Hok).
  unfold GetBreakPoint, resolved_breakpoints. now apply store_ok_lookup.
Qed.

Lemma GetBreakPoint_agrees_with_iteration_witness :
  let s := run Impl_new
             [EvStart; EvEngineLoads [("/a.rb", ["x"; "y"; "z"])];
              EvCommand (CmdAddBreakPoint (mkBreakPoint 0 "A.rb" 2));
              EvCommand (CmdAddBreakPoint (mkBreakPoint 0 "zzz.rb" 2))] in
  GetBreakPoint s "/a.rb" 2 = Some (mkBreakPoint 1 "/a.rb" 2) <->
  In (mkBreakPoint 1 "/a.rb" 2) (resolved_breakpoints s) /\
  location (mkBreakPoint 1 "/a.rb" 2) = ("/a.rb", 2).
Proof.
  intros s.
  apply (@GetBreakPoint_agrees_with_iteration s "/a.rb" 2
           (mkBreakPoint 1 "/a.rb" 2)).
  eexists. reflexivity.
Defined.

(** ** What adding a breakpoint does to the store *)

Lemma Impl_AddBreakPoint_location s bp r :
  location (snd (Impl_AddBreakPoint s bp r)) = location bp.
Proof.
  unfold Impl_AddBreakPoint. destruct (index bp =? 0), r; reflexivity.
Qed.

Lemma Impl_AddBreakPoint_hash s bp r :
  script_lines_hash_ (fst (Impl_AddBreakPoint s bp r)) = script_lines_hash_ s.
Proof.
  unfold Impl_AddBreakPoint. destruct (index bp =? 0), r; reflexivity.
Qed.

Lemma Impl_AddBreakPoint_resolved_unresolved s bp :
  unresolved_breakpoints_ (fst (Impl_AddBreakPoint s bp true))
  = unresolved_breakpoints_ s.
Proof.
  unfold Impl_AddBreakPoint. destruct (index bp =? 0); reflexivity.
Qed.

Lemma Impl_AddBreakPoint_unresolved s bp :
  breakpoints_ (fst (Impl_AddBreakPoint s bp false)) = breakpoints_ s /\
  unresolved_breakpoints_ (fst (Impl_AddBreakPoint s bp false))
  = unresolved_breakpoints_ s ++ [snd (Impl_AddBreakPoint s bp false)].
Proof.
  unfold Impl_AddBreakPoint. destruct (index bp =? 0); split; reflexivity.
Qed.

Lemma Impl_AddBreakPoint_index_kept s bp r :
  index bp <> 0 ->
  index (snd (Impl_AddBreakPoint s bp r)) = index bp /\
  last_breakpoint_index (fst (Impl_AddBreakPoint s bp r))
  = last_breakpoint_index s.
Proof.
  intros Hne. unfold Impl_AddBreakPoint.
  apply N.eqb_neq in Hne. rewrite Hne. destruct r; split; reflexivity.
Qed.

Lemma filing_keeps_lookups bps (bp : BreakPoint) f l b :
  match StdMap.find l bps with
  | Some by_file => StdMap.find f by_file
  | None => None
  end = Some b ->
  match StdMap.find l
          (StdMap.subscript_set (line bp)
             (StdMap.insert (file bp) bp
                match StdMap.find (line bp) bps with
                | Some m => m
                | None => []
                end) bps) with
  | Some by_file => StdMap.find f by_file
  | None => None
  end = Some b.
Proof.
  intros Hb. destruct (N.eq_dec l (line bp)) as [->|Hne].
  - rewrite StdMapFacts.find_subscript_set.
    destruct (StdMap.find (line bp) bps) as [m|]; [|discriminate].
    now apply StdMapLookup.find_insert_kept.
  - now rewrite StdMapLookup.find_subscript_set_other.
Qed.

(** Filing a breakpoint never changes what a lookup found before. *)
Lemma Impl_AddBreakPoint_keeps_lookups s bp r f l b :
  GetBreakPoint s f l = Some b ->
  GetBreakPoint (fst (Impl_AddBreakPoint s bp r)) f l = Some b.
Proof.
  unfold GetBreakPoint, Impl_AddBreakPoint. intros Hb.
  destruct (index bp =? 0), r; simpl; auto.
  - now apply (filing_keeps_lookups (breakpoints_ s)
                 (set_index bp (size_t_wrap (last_breakpoint_index s + 1)))).
  - now apply filing_keeps_lookups.
Qed.

(** After a breakpoint is filed as resolved its location is taken. *)
Lemma Impl_AddBreakPoint_location_taken s bp :
  GetBreakPoint (fst (Impl_AddBreakPoint s bp true)) (file bp) (line bp)
  <> None.
Proof.
  destruct (GetBreakPoint s (file bp) (line bp)) as [b|] eqn:E.
  - now rewrite (Impl_AddBreakPoint_keeps_lookups s bp true _ _ b E).
  - now rewrite (AddBreakPoint_free_location_stores s bp E).
Qed.

Lemma ResolveBreakPoint_from_location it bp :
  line (snd (ResolveBreakPoint_from it bp)) = line bp /\
  (fst (ResolveBreakPoint_from it bp) = false ->
   snd (ResolveBreakPoint_from it bp) = bp).
Proof.
  pose proof (ResolveBreakPoint_from_spec it bp) as H.
  destruct (ResolveBreakPoint_from it bp) as [[|] bp']; simpl.
  - destruct H as (_ & e & _ & _ & _ & _ & ->). split; [reflexivity|].
    discriminate.
  - destruct H as [_ ->]. auto.
Qed.

(** A successful resolution puts the breakpoint in a registry file that
    has its line. *)
Lemma ResolveBreakPoint_from_in_registry script_lines bp :
  StdMap.sorted script_lines = true ->
  fst (ResolveBreakPoint_from script_lines bp) = true ->
  in_registry script_lines (snd (ResolveBreakPoint_from script_lines bp)).
Proof.
  intros Hs Hok.
  pose proof (ResolveBreakPoint_from_spec script_lines bp) as H.
  destruct (ResolveBreakPoint_from script_lines bp) as [[|] bp'];
    [|discriminate].
  destruct H as (before & [path lines] & after & Heq & _ & [_ Hline] & ->).
  exists lines. simpl in *. split; [|exact Hline].
  apply StdMapFacts.In_find; [exact Hs|].
  rewrite Heq. apply in_or_app. right. now left.
Qed.

(** X4. What [AddBreakPoint] does, in any reachable state.  With the
    registry refreshed first: a breakpoint that cannot be resolved is
    appended, with its file and line as given, to the unresolved list, and
    the resolved maps are untouched; a breakpoint that can be resolved
    leaves the unresolved list untouched, comes back standing in a loaded
    file that has its line, and, if that location was free, is what a
    lookup there now returns.  A breakpoint that arrives with an index
    other than 0 keeps it, and the counter stays. *)
Theorem AddBreakPoint_outcome (s : Impl) (bp : BreakPoint) :
  reachable s ->
  let r := AddBreakPoint s bp in
  let s' := snd (fst r) in
  let bp' := snd r in
  fst (fst r) = true /\
  line bp' = line bp /\
  (resolvable (script_lines_ (ReadScriptLinesHash s)) bp = false ->
   file bp' = file bp /\
   unresolved_breakpoints_ s' = unresolved_breakpoints_ s ++ [bp'] /\
   breakpoints_ s' = breakpoints_ s) /\
  (resolvable (script_lines_ (ReadScriptLinesHash s)) bp = true ->
   unresolved_breakpoints_ s' = unresolved_breakpoints_ s /\
   in_registry (script_lines_ s') bp' /\
   (GetBreakPoint s (file bp') (line bp') = None ->
    GetBreakPoint s' (file bp') (line bp') = Some bp')) /\
  (index bp <> 0 ->
   index bp' = index bp /\
   last_breakpoint_index s' = last_breakpoint_index s).
Proof.
  intros Hr r s' bp'. subst r s' bp'.
  assert (Hsorted : StdMap.sorted (script_lines_ (ReadScriptLinesHash s))
                    = true).
  { apply reachable_Inv in Hr. destruct Hr as (_ & Hreg & _).
    apply ReadScriptLinesHash_registry_ok in Hreg. apply Hreg. }
  unfold AddBreakPoint, resolvable, ResolveBreakPoint.
  set (s1 := ReadScriptLinesHash s) in *.
  pose proof (ResolveBreakPoint_from_location (script_lines_ s1) bp)
    as [Hline Hsame].
  pose proof (ResolveBreakPoint_from_index (script_lines_ s1) bp) as Hidx.
  pose proof (ResolveBreakPoint_from_in_registry (script_lines_ s1) bp Hsorted)
    as Hreg.
  destruct (ResolveBreakPoint_from (script_lines_ s1) bp) as [ok bp1].
  simpl in Hline, Hsame, Hidx, Hreg.
  pose proof (Impl_AddBreakPoint_location s1 bp1 ok) as Hloc.
  pose proof (Impl_AddBreakPoint_script_lines s1 bp1 ok) as Hsl.
  pose proof (Impl_AddBreakPoint_index_kept s1 bp1 ok) as Hkeep.
  destruct (Impl_AddBreakPoint s1 bp1 ok) as [s2 bp2] eqn:Eadd.
  simpl in *. unfold location in Hloc. injection Hloc as Hf2 Hl2.
  split; [reflexivity|]. split; [congruence|]. split; [|split].
  - intros ->. rewrite (Hsame eq_refl) in *.
    pose proof (Impl_AddBreakPoint_unresolved s1 bp) as [Hb Hu].
    rewrite Eadd in Hb, Hu. simpl in Hb, Hu. auto.
  - intros ->.
    pose proof (Impl_AddBreakPoint_resolved_unresolved s1 bp1) as Hu.
    rewrite Eadd in Hu. simpl in Hu. split; [exact Hu|]. split.
    + rewrite Hsl. destruct (Hreg eq_refl) as (lines & Hfind & Hle).
      exists lines. rewrite Hf2, Hl2. auto.
    + rewrite Hf2, Hl2. intros Hfree.
      pose proof (AddBreakPoint_free_location_stores s1 bp1 Hfree) as Hst.
      now rewrite Eadd in Hst.
  - intros Hne. rewrite <- Hidx in Hne. destruct (Hkeep Hne) as [Hi Hc].
    split; [congruence|exact Hc].
Qed.

Lemma AddBreakPoint_outcome_witness :
  let s := run Impl_new
             [EvStart; EvEngineLoads [("/lib/Foo.rb", ["x"; "y"; "z"])]] in
  let bp := mkBreakPoint 0 "foo.rb" 3 in
  let r := AddBreakPoint s bp in
  let s' := snd (fst r) in
  let bp' := snd r in
  fst (fst r) = true /\
  line bp' = line bp /\
  (resolvable (script_lines_ (ReadScriptLinesHash s)) bp = false ->
   file bp' = file bp /\
   unresolved_breakpoints_ s' = unresolved_breakpoints_ s ++ [bp'] /\
   breakpoints_ s' = breakpoints_ s) /\
  (resolvable (script_lines_ (ReadScriptLinesHash s)) bp = true ->
   unresolved_breakpoints_ s' = unresolved_breakpoints_ s /\
   in_registry (script_lines_ s') bp' /\
   (GetBreakPoint s (file bp') (line bp') = None ->
    GetBreakPoint s' (file bp') (line bp') = Some bp')) /\
  (index bp <> 0 ->
   index bp' = index bp /\
   last_breakpoint_index s' = last_breakpoint_index s).
Proof.
  intros s bp. apply (AddBreakPoint_outcome s bp).
  eexists. reflexivity.
Defined.

(** A fragment in another letter case resolves to the loaded path; a file
    that is too short does not take the breakpoint. *)
Example AddBreakPoint_outcome_example :
  let s := run Impl_new
             [EvStart; EvEngineLoads [("/lib/Foo.rb", ["x"; "y"; "z"])]] in
  snd (AddBreakPoint s (mkBreakPoint 0 "foo.rb" 3))
    = mkBreakPoint 1 "/lib/Foo.rb" 3 /\
  unresolved_breakpoints_ (snd (fst (AddBreakPoint s (mkBreakPoint 0 "foo.rb" 4))))
    = [mkBreakPoint 1 "foo.rb" 4].
Proof. split; reflexivity. Qed.

(** ** The resolution pass *)

Lemma ResolveBreakPoints_from_fields it : forall s,
  script_lines_hash_ (fst (ResolveBreakPoints_from s it))
    = script_lines_hash_ s /\
  unresolved_breakpoints_ (fst (ResolveBreakPoints_from s it))
    = unresolved_breakpoints_ s.
Proof.
  induction it as [|bp it IH]; intros s; simpl; [auto|].
  destruct (ResolveBreakPoint s bp) as [[|] bp'].
  - destruct (IH (fst (Impl_AddBreakPoint s bp' true))) as [Hh Hu].
    rewrite Hh, Hu, Impl_AddBreakPoint_hash,
      Impl_AddBreakPoint_resolved_unresolved. auto.
  - specialize (IH s). destruct (ResolveBreakPoints_from s it). exact IH.
Qed.

Lemma ResolveBreakPoints_from_kept it : forall s,
  snd (ResolveBreakPoints_from s it)
  = filter (fun bp => negb (resolvable (script_lines_ s) bp)) it.
Proof.
  induction it as [|bp it IH]; intros s; simpl; [reflexivity|].
  unfold resolvable at 1, ResolveBreakPoint.
  destruct (ResolveBreakPoint_from (script_lines_ s) bp) as [[|] bp']; simpl.
  - rewrite IH, Impl_AddBreakPoint_script_lines. reflexivity.
  - specialize (IH s). destruct (ResolveBreakPoints_from s it) as [s' kept].
    simpl in *. now rewrite IH.
Qed.

Lemma ResolveBreakPoints_from_keeps_lookups it f l b : forall s,
  GetBreakPoint s f l = Some b ->
  GetBreakPoint (fst (ResolveBreakPoints_from s it)) f l = Some b.
Proof.
  induction it as [|bp it IH]; intros s Hb; simpl; [exact Hb|].
  destruct (ResolveBreakPoint s bp) as [[|] bp'].
  - apply IH. now apply Impl_AddBreakPoint_keeps_lookups.
  - specialize (IH s Hb). destruct (ResolveBreakPoints_from s it). exact IH.
Qed.

Lemma ResolveBreakPoints_from_taken it : forall s bp,
  In bp it ->
  resolvable (script_lines_ s) bp = true ->
  GetBreakPoint (fst (ResolveBreakPoints_from s it))
    (file (snd (ResolveBreakPoint_from (script_lines_ s) bp))) (line bp)
  <> None.
Proof.
  induction it as [|bp0 it IH]; intros s bp Hin Hres; [contradiction|].
  simpl. unfold ResolveBreakPoint.
  destruct Hin as [->|Hin].
  - unfold resolvable in Hres.
    pose proof (ResolveBreakPoint_from_location (script_lines_ s) bp)
      as [Hline _].
    destruct (ResolveBreakPoint_from (script_lines_ s) bp) as [ok bp'].
    simpl in Hres, Hline. subst ok. simpl.
    pose proof (Impl_AddBreakPoint_location_taken s bp') as Htaken.
    destruct (GetBreakPoint (fst (Impl_AddBreakPoint s bp' true))
                (file bp') (line bp')) as [b|] eqn:E; [|contradiction].
    rewrite <- Hline.
    now rewrite (ResolveBreakPoints_from_keeps_lookups it _ _ b _ E).
  - destruct (ResolveBreakPoint_from (script_lines_ s) bp0) as [[|] bp0'].
    + rewrite <- (Impl_AddBreakPoint_script_lines s bp0' true).
      apply IH; [exact Hin|].
      now rewrite Impl_AddBreakPoint_script_lines.
    + specialize (IH s bp Hin Hres).
      destruct (ResolveBreakPoints_from s it). exact IH.
Qed.

Lemma ResolveBreakPoints_from_nothing it : forall s,
  Forall (fun bp => resolvable (script_lines_ s) bp = false) it ->
  ResolveBreakPoints_from s it = (s, it).
Proof.
  induction it as [|bp it IH]; intros s Hall; simpl; [reflexivity|].
  inversion Hall as [|bp0 it0 Hbp Hrest]; subst.
  unfold resolvable in Hbp. unfold ResolveBreakPoint.
  pose proof (ResolveBreakPoint_from_location (script_lines_ s) bp)
    as [_ Hsame].
  destruct (ResolveBreakPoint_from (script_lines_ s) bp) as [ok bp'].
  simpl in Hbp, Hsame. subst ok. now rewrite (IH s Hrest).
Qed.

Lemma ResolveBreakPoints_rest (s : Impl) :
  script_lines_ (ResolveBreakPoints s)
    = script_lines_ (ReadScriptLinesHash s) /\
  script_lines_hash_ (ResolveBreakPoints s) = script_lines_hash_ s /\
  unresolved_breakpoints_ (ResolveBreakPoints s)
    = filter (fun bp =>
                negb (resolvable (script_lines_ (ReadScriptLinesHash s)) bp))
        (unresolved_breakpoints_ s).
Proof.
  unfold ResolveBreakPoints.
  set (s1 := ReadScriptLinesHash s).
  pose proof (ResolveBreakPoints_from_kept (unresolved_breakpoints_ s1) s1)
    as Hkept.
  pose proof (ResolveBreakPoints_from_frame s1 (unresolved_breakpoints_ s1))
    as (_ & Hreg & _).
  pose proof (ResolveBreakPoints_from_fields (unresolved_breakpoints_ s1) s1)
    as [Hh _].
  destruct (ResolveBreakPoints_from s1 (unresolved_breakpoints_ s1))
    as [s2 kept]. simpl in *. auto.
Qed.

Lemma ResolveBreakPoints_leaves_unresolvable (s : Impl) :
  Forall (fun bp => resolvable (script_lines_ (ResolveBreakPoints s)) bp
                    = false)
    (unresolved_breakpoints_ (ResolveBreakPoints s)).
Proof.
  destruct (ResolveBreakPoints_rest s) as (Hreg & _ & Hkept).
  rewrite Hreg, Hkept. rewrite Forall_forall. intros bp Hin.
  apply filter_In in Hin. destruct Hin as [_ Hneg].
  now apply negb_true_iff in Hneg.
Qed.

Lemma ResolveBreakPoints_keeps_lookups (s : Impl) f l b :
  GetBreakPoint s f l = Some b ->
  GetBreakPoint (ResolveBreakPoints s) f l = Some b.
Proof.
  intros Hb. unfold ResolveBreakPoints.
  pose proof (ResolveBreakPoints_from_keeps_lookups
                (unresolved_breakpoints_ (ReadScriptLinesHash s)) f l b
                (ReadScriptLinesHash s) Hb) as Hlook.
  destruct (ResolveBreakPoints_from (ReadScriptLinesHash s)
              (unresolved_breakpoints_ (ReadScriptLinesHash s))).
  exact Hlook.
Qed.

Lemma ResolveBreakPoints_takes_locations (s : Impl) bp :
  In bp (unresolved_breakpoints_ s) ->
  resolvable (script_lines_ (ReadScriptLinesHash s)) bp = true ->
  GetBreakPoint (ResolveBreakPoints s)
    (file (snd (ResolveBreakPoint_from
                  (script_lines_ (ReadScriptLinesHash s)) bp))) (line bp)
  <> None.
Proof.
  intros Hin Hres. unfold ResolveBreakPoints.
  pose proof (ResolveBreakPoints_from_taken
                (unresolved_breakpoints_ (ReadScriptLinesHash s))
                (ReadScriptLinesHash s) bp Hin Hres) as Htaken.
  destruct (ResolveBreakPoints_from (ReadScriptLinesHash s)
              (unresolved_breakpoints_ (ReadScriptLinesHash s))).
  exact Htaken.
Qed.

(** X5. A resolution pass, with the registry refreshed first, keeps in the
    unresolved list exactly the breakpoints that cannot be resolved, in
    their order; none of those left could be resolved against the
    registry as it then is; every breakpoint that left the list finds its
    location (the path it resolved to, at its line) taken in the resolved
    maps afterwards; and every lookup that found a breakpoint before the
    pass finds the same one after it. *)
Theorem ResolveBreakPoints_pass (s : Impl) :
  let registry := script_lines_ (ReadScriptLinesHash s) in
  let s' := ResolveBreakPoints s in
  script_lines_ s' = registry /\
  unresolved_breakpoints_ s'
    = filter (fun bp => negb (resolvable registry bp))
        (unresolved_breakpoints_ s) /\
  Forall (fun bp => resolvable (script_lines_ s') bp = false)
    (unresolved_breakpoints_ s') /\
  (forall bp,
     In bp (unresolved_breakpoints_ s) -> resolvable registry bp = true ->
     GetBreakPoint s'
       (file (snd (ResolveBreakPoint_from registry bp))) (line bp) <> None) /\
  (forall f l b,
     GetBreakPoint s f l = Some b -> GetBreakPoint s' f l = Some b).
Proof.
  intros registry s'. subst registry s'.
  destruct (ResolveBreakPoints_rest s) as (Hreg & _ & Hkept).
  split; [exact Hreg|]. split; [exact Hkept|]. split; [|split].
  - apply ResolveBreakPoints_leaves_unresolvable.
  - intros bp. apply ResolveBreakPoints_takes_locations.
  - intros f l b. apply ResolveBreakPoints_keeps_lookups.
Qed.

Lemma ReadScriptLinesHash_refreshed (s : Impl) :
  (forall kv, In kv (script_lines_hash_ s) ->
              StdMap.find (fst kv) (script_lines_ s) <> None) ->
  ReadScriptLinesHash s = s.
Proof.
  intros Hknown. unfold ReadScriptLinesHash.
  rewrite fold_EachKeyValFunc_known by exact Hknown. now destruct s.
Qed.

(** X6. A resolution pass run twice in a row, with nothing happening in
    between, does the second time nothing at all. *)
Theorem ResolveBreakPoints_idempotent (s : Impl) :
  ResolveBreakPoints (ResolveBreakPoints s) = ResolveBreakPoints s.
Proof.
  destruct (ResolveBreakPoints_rest s) as (Hreg & Hhash & _).
  pose proof (ResolveBreakPoints_leaves_unresolvable s) as Hnone.
  set (s' := ResolveBreakPoints s) in *.
  assert (Hfresh : ReadScriptLinesHash s' = s').
  { apply ReadScriptLinesHash_refreshed. rewrite Hhash, Hreg.
    intros [path val] Hin.
    now apply (ReadScriptLinesHash_knows_hash s path val). }
  unfold ResolveBreakPoints at 1. rewrite Hfresh.
  rewrite (ResolveBreakPoints_from_nothing (unresolved_breakpoints_ s') s' Hnone).
  now destruct s'.
Qed.

(** ** The decisions of the trace hook *)

Lemma before_lookup_halt_view (s : Impl) :
  halt_view (before_lookup s) = halt_view (ClearBreakData s).
Proof.
  unfold before_lookup. destruct (negb _); [|reflexivity].
  apply (proj1 (ResolveBreakPoints_frame (ClearBreakData s))).
Qed.

Lemma TraceFunc_not_armed (s : Impl) path lineno backtrace :
  break_at_next_line_ s = false ->
  TraceFunc s (line_event path lineno backtrace)
  = match GetBreakPoint (before_lookup s) path (size_t_of_int lineno) with
    | Some bp =>
        (with_is_stopped_
           (with_last_break_line_
              (with_last_break_file_path_
                 (with_frames_ (before_lookup s)
                    (Impl_GetStackFrames backtrace)) path)
              (size_t_of_int lineno)) true,
         Some (Break_breakpoint bp))
    | None => (before_lookup s, None)
    end.
Proof.
  intros Hflag. unfold TraceFunc, line_event, before_lookup; simpl.
  rewrite Hflag. reflexivity.
Qed.

(** X7. The hook blocks in the UI exactly when it leaves the server
    stopped.  On an event other than a line event it only clears the break
    data.  In a reachable state, a halt that is reported as a breakpoint
    hit reports a resolved breakpoint that stands at exactly the file and
    line of the event, and the recorded break location is the event's. *)
Theorem TraceFunc_halts_iff_stopped (s : Impl) (trace_arg : TraceArg) :
  reachable s ->
  (snd (TraceFunc s trace_arg) <> None <->
   is_stopped_ (fst (TraceFunc s trace_arg)) = true) /\
  (tracearg_event trace_arg <> id_line ->
   TraceFunc s trace_arg = (ClearBreakData s, None)) /\
  (forall bp,
     snd (TraceFunc s trace_arg) = Some (Break_breakpoint bp) ->
     In bp (resolved_breakpoints (fst (TraceFunc s trace_arg))) /\
     location bp
       = (tracearg_path trace_arg, size_t_of_int (tracearg_lineno trace_arg)) /\
     last_break_file_path_ (fst (TraceFunc s trace_arg)) = file bp /\
     last_break_line_ (fst (TraceFunc s trace_arg)) = line bp).
Proof.
  intros Hr.
  destruct trace_arg as [ev path lineno backtrace].
  assert (Hother : ev <> id_line ->
            TraceFunc s (mkTraceArg ev path lineno backtrace)
            = (ClearBreakData s, None)).
  { intros Hne. unfold TraceFunc; simpl. destruct ev; try reflexivity.
    now contradiction Hne. }
  split; [|split; [exact Hother|]].
  - destruct ev; try (rewrite Hother by discriminate; simpl;
                      split; [intros H; now contradiction H|discriminate]).
    destruct (break_at_next_line_ s) eqn:Hflag.
    + unfold TraceFunc; simpl. rewrite Hflag; simpl.
      split; [reflexivity|discriminate].
    + change (mkTraceArg id_line path lineno backtrace)
        with (line_event path lineno backtrace).
      rewrite TraceFunc_not_armed by exact Hflag.
      pose proof (before_lookup_halt_view s) as Hv.
      destruct (GetBreakPoint (before_lookup s) path (size_t_of_int lineno));
        simpl.
      * split; [reflexivity|discriminate].
      * unfold halt_view in Hv. injection Hv as Hst _ _ _ _ _.
        rewrite Hst. simpl.
        split; [intros H; now contradiction H|discriminate].
  - intros bp. simpl.
    destruct ev; try (rewrite Hother by discriminate; discriminate).
    destruct (break_at_next_line_ s) eqn:Hflag.
    + unfold TraceFunc; simpl. rewrite Hflag; simpl. discriminate.
    + change (mkTraceArg id_line path lineno backtrace)
        with (line_event path lineno backtrace).
      rewrite TraceFunc_not_armed by exact Hflag.
      assert (Hok : store_ok (breakpoints_ (before_lookup s)) = true).
      { apply reachable_Inv in Hr. apply Inv_ClearBreakData in Hr.
        unfold before_lookup. destruct (negb _).
        - apply Inv_ResolveBreakPoints in Hr. apply Hr.
        - apply Hr. }
      destruct (GetBreakPoint (before_lookup s) path (size_t_of_int lineno))
        as [b|] eqn:E; simpl; [|discriminate].
      intros [= ->].
      apply (store_ok_lookup _ _ _ _ Hok) in E. destruct E as [Hin Hloc].
      unfold location in Hloc. injection Hloc as Hf Hl.
      unfold resolved_breakpoints; simpl. unfold location.
      rewrite Hf, Hl. auto.
Qed.

Lemma TraceFunc_halts_iff_stopped_witness :
  let s := run Impl_new
             [EvStart; EvEngineLoads [("/a.rb", ["x"; "y"; "z"])];
              EvCommand (CmdAddBreakPoint (mkBreakPoint 0 "a.rb" 2));
              EvContinue] in
  let trace_arg := line_event "/a.rb" 2 [("/a.rb:2", 77)] in
  (snd (TraceFunc s trace_arg) <> None <->
   is_stopped_ (fst (TraceFunc s trace_arg)) = true) /\
  (tracearg_event trace_arg <> id_line ->
   TraceFunc s trace_arg = (ClearBreakData s, None)) /\
  (forall bp,
     snd (TraceFunc s trace_arg) = Some (Break_breakpoint bp) ->
     In bp (resolved_breakpoints (fst (TraceFunc s trace_arg))) /\
     location bp
       = (tracearg_path trace_arg, size_t_of_int (tracearg_lineno trace_arg)) /\
     last_break_file_path_ (fst (TraceFunc s trace_arg)) = file bp /\
     last_break_line_ (fst (TraceFunc s trace_arg)) = line bp).
Proof.
  intros s trace_arg. apply (TraceFunc_halts_iff_stopped s trace_arg).
  eexists. reflexivity.
Defined.

(** The hook of that history does halt, on the breakpoint with index 1. *)
Example TraceFunc_breakpoint_hit_example :
  let s := run Impl_new
             [EvStart; EvEngineLoads [("/a.rb", ["x"; "y"; "z"])];
              EvCommand (CmdAddBreakPoint (mkBreakPoint 0 "a.rb" 2));
              EvContinue] in
  snd (TraceFunc s (line_event "/a.rb" 2 [("/a.rb:2", 77)]))
    = Some (Break_breakpoint (mkBreakPoint 1 "/a.rb" 2)) /\
  snd (TraceFunc s (line_event "/a.rb" 3 [("/a.rb:3", 77)])) = None /\
  snd (TraceFunc s (line_event "a.rb" 2 [("a.rb:2", 77)])) = None.
Proof. repeat split. Qed.

(** ** Breakpoints and the next line event *)

Lemma before_lookup_keeps_lookups (s : Impl) f l b :
  GetBreakPoint s f l = Some b ->
  GetBreakPoint (before_lookup s) f l = Some b.
Proof.
  intros Hb. unfold before_lookup. destruct (negb _).
  - now apply ResolveBreakPoints_keeps_lookups.
  - exact Hb.
Qed.

(** X8. A breakpoint that waits in the unresolved list takes effect
    without any command: if the step flag is clear and the breakpoint can
    be resolved against the registry as refreshed from the engine's hash,
    the next line event at the path it resolves to and at its line halts
    the script with a breakpoint-hit notification. *)
Theorem unresolved_breakpoint_hit_at_next_line_event
  (s : Impl) (bp : BreakPoint) (lineno : Z)
  (backtrace : list (string * VALUE)) :
  break_at_next_line_ s = false ->
  In bp (unresolved_breakpoints_ s) ->
  resolvable (script_lines_ (ReadScriptLinesHash s)) bp = true ->
  size_t_of_int lineno = line bp ->
  let path :=
    file (snd (ResolveBreakPoint_from
                 (script_lines_ (ReadScriptLinesHash s)) bp)) in
  exists b,
    snd (TraceFunc s (line_event path lineno backtrace))
      = Some (Break_breakpoint b) /\
    is_stopped_ (fst (TraceFunc s (line_event path lineno backtrace))) = true /\
    ~ In bp (unresolved_breakpoints_
               (fst (TraceFunc s (line_event path lineno backtrace)))).
Proof.
  intros Hflag Hin Hres Hline path.
  rewrite TraceFunc_not_armed by exact Hflag.
  assert (Hne : negb (size (unresolved_breakpoints_ (ClearBreakData s)) =? 0)
                = true).
  { simpl. destruct (unresolved_breakpoints_ s); [contradiction|reflexivity]. }
  assert (Hbl : before_lookup s = ResolveBreakPoints (ClearBreakData s)).
  { unfold before_lookup. now rewrite Hne. }
  rewrite Hbl.
  pose proof (ResolveBreakPoints_takes_locations (ClearBreakData s) bp Hin Hres)
    as Htaken.
  change (script_lines_ (ReadScriptLinesHash (ClearBreakData s)))
    with (script_lines_ (ReadScriptLinesHash s)) in Htaken.
  fold path in Htaken. rewrite Hline.
  destruct (ResolveBreakPoints_rest (ClearBreakData s)) as (_ & _ & Hkept).
  destruct (GetBreakPoint (ResolveBreakPoints (ClearBreakData s)) path (line bp))
    as [b|]; [|contradiction].
  exists b. simpl. split; [reflexivity|]. split; [reflexivity|].
  rewrite Hkept. intros Hin'. apply filter_In in Hin'.
  destruct Hin' as [_ Hneg].
  change (script_lines_ (ReadScriptLinesHash (ClearBreakData s)))
    with (script_lines_ (ReadScriptLinesHash s)) in Hneg.
  rewrite Hres in Hneg. discriminate.
Qed.

Lemma unresolved_breakpoint_hit_at_next_line_event_witness :
  let s := run Impl_new
             [EvStart;
              EvCommand (CmdAddBreakPoint (mkBreakPoint 0 "foo.rb" 10));
              EvContinue;
              EvEngineLoads
                [("/abs/path/foo.rb",
                  ["1"; "2"; "3"; "4"; "5"; "6"; "7"; "8"; "9"; "10"])]] in
  let bp := mkBreakPoint 1 "foo.rb" 10 in
  let path :=
    file (snd (ResolveBreakPoint_from
                 (script_lines_ (ReadScriptLinesHash s)) bp)) in
  path = "/abs/path/foo.rb" /\
  exists b,
    snd (TraceFunc s (line_event path 10 []))
      = Some (Break_breakpoint b) /\
    is_stopped_ (fst (TraceFunc s (line_event path 10 []))) = true /\
    ~ In bp (unresolved_breakpoints_
               (fst (TraceFunc s (line_event path 10 [])))).
Proof.
  intros s bp path. split; [reflexivity|].
  apply (unresolved_breakpoint_hit_at_next_line_event s bp 10%Z []).
  - reflexivity.
  - left. reflexivity.
  - reflexivity.
  - reflexivity.
Defined.

(** X9. A breakpoint added by a command is seen by the very next line
    event: if the step flag is clear and [AddBreakPoint] could resolve the
    breakpoint, a line event at the returned file and line halts with a
    breakpoint-hit notification; when that location was free before the
    call, the notification carries the returned breakpoint itself. *)
Theorem added_breakpoint_hit_at_next_line_event
  (s : Impl) (bp : BreakPoint) (lineno : Z)
  (backtrace : list (string * VALUE)) :
  break_at_next_line_ s = false ->
  resolvable (script_lines_ (ReadScriptLinesHash s)) bp = true ->
  size_t_of_int lineno = line bp ->
  let s' := snd (fst (AddBreakPoint s bp)) in
  let bp' := snd (AddBreakPoint s bp) in
  exists b,
    snd (TraceFunc s' (line_event (file bp') lineno backtrace))
      = Some (Break_breakpoint b) /\
    (GetBreakPoint s (file bp') (line bp') = None -> b = bp').
Proof.
  intros Hflag Hres Hline s' bp'. subst s' bp'.
  unfold AddBreakPoint, resolvable, ResolveBreakPoint in *.
  set (s1 := ReadScriptLinesHash s) in *.
  pose proof (ResolveBreakPoint_from_location (script_lines_ s1) bp)
    as [Hl1 _].
  destruct (ResolveBreakPoint_from (script_lines_ s1) bp) as [ok bp1].
  simpl in Hres, Hl1. subst ok.
  pose proof (Impl_AddBreakPoint_location s1 bp1 true) as Hloc.
  pose proof (Impl_AddBreakPoint_location_taken s1 bp1) as Htaken.
  pose proof (AddBreakPoint_free_location_stores s1 bp1) as Hfree.
  pose proof (Impl_AddBreakPoint_halt_view s1 bp1 true) as Hview.
  destruct (Impl_AddBreakPoint s1 bp1 true) as [s2 bp2]. simpl in *.
  unfold location in Hloc. injection Hloc as Hf2 Hl2.
  assert (Hflag2 : break_at_next_line_ s2 = false).
  { unfold halt_view in Hview. injection Hview as _ Hb _ _ _ _.
    now rewrite Hb. }
  rewrite TraceFunc_not_armed by exact Hflag2.
  rewrite Hline, <- Hl1, Hf2.
  destruct (GetBreakPoint s2 (file bp1) (line bp1)) as [b|] eqn:E;
    [|contradiction].
  rewrite (before_lookup_keeps_lookups s2 _ _ _ E).
  exists b. split; [reflexivity|].
  rewrite Hl2. intros Hnone. specialize (Hfree Hnone). congruence.
Qed.

Lemma added_breakpoint_hit_at_next_line_event_witness :
  let s := run Impl_new
             [EvStart; EvEngineLoads [("/lib/Foo.rb", ["x"; "y"; "z"])];
              EvContinue] in
  let bp := mkBreakPoint 0 "foo.rb" 3 in
  let s' := snd (fst (AddBreakPoint s bp)) in
  let bp' := snd (AddBreakPoint s bp) in
  exists b,
    snd (TraceFunc s' (line_event (file bp') 3 []))
      = Some (Break_breakpoint b) /\
    (GetBreakPoint s (file bp') (line bp') = None -> b = bp').
Proof.
  intros s bp.
  apply (added_breakpoint_hit_at_next_line_event s bp 3%Z []);
    reflexivity.
Defined.

(** ** Stepping *)

Lemma TraceFunc_without_flag (s : Impl) (trace_arg : TraceArg) :
  break_at_next_line_ s = false ->
  is_Break_line (snd (TraceFunc s trace_arg)) = false /\
  break_at_next_line_ (fst (TraceFunc s trace_arg)) = false.
Proof.
  intros Hflag. destruct trace_arg as [ev path lineno backtrace].
  destruct ev; try solve [unfold TraceFunc; simpl; auto].
  change (mkTraceArg id_line path lineno backtrace)
    with (line_event path lineno backtrace).
  rewrite TraceFunc_not_armed by exact Hflag.
  pose proof (before_lookup_halt_view s) as Hv.
  unfold halt_view in Hv. injection Hv as _ Hb _ _ _ _. simpl in Hb.
  destruct (GetBreakPoint (before_lookup s) path (size_t_of_int lineno));
    simpl; rewrite Hb; auto.
Qed.

(** X10. [Step], issued while the server is stopped, makes the script
    halt at the next line event, wherever that is, with the step
    notification; events other than line events in between leave the
    request pending; and the request is used up by that halt: after the
    next resume no event produces a step notification.  A [Step] issued
    while the server is running arms nothing. *)
Theorem Step_halts_at_one_line_event
  (s : Impl) (path : string) (lineno : Z)
  (backtrace : list (string * VALUE)) :
  IsStopped s = true ->
  let resumed := ClearBreakData (Step s) in
  let r := TraceFunc resumed (line_event path lineno backtrace) in
  snd r = Some (Break_line path (size_t_of_int lineno)) /\
  IsStopped (fst r) = true /\
  (forall trace_arg,
     tracearg_event trace_arg <> id_line ->
     snd (TraceFunc resumed trace_arg) = None /\
     break_at_next_line_ (fst (TraceFunc resumed trace_arg)) = true) /\
  (forall trace_arg,
     is_Break_line (snd (TraceFunc (ClearBreakData (fst r)) trace_arg))
     = false) /\
  (forall s0 trace_arg,
     IsStopped s0 = false -> break_at_next_line_ s0 = false ->
     Step s0 = s0 /\
     is_Break_line (snd (TraceFunc (Step s0) trace_arg)) = false).
Proof.
  intros Hst resumed r. subst r resumed.
  unfold Step. rewrite Hst.
  split; [reflexivity|]. split; [reflexivity|]. split; [|split].
  - intros [ev p l bt] Hne. simpl in Hne.
    destruct ev; try (split; reflexivity). now contradiction Hne.
  - intros trace_arg. apply TraceFunc_without_flag. reflexivity.
  - intros s0 trace_arg Hrun Hflag. rewrite Hrun.
    split; [reflexivity|]. now apply TraceFunc_without_flag.
Qed.

Lemma Step_halts_at_one_line_event_witness :
  let s := run Impl_new [EvStart] in
  let resumed := ClearBreakData (Step s) in
  let r := TraceFunc resumed (line_event "/a.rb" 1 [("/a.rb:1", 77)]) in
  snd r = Some (Break_line "/a.rb" (size_t_of_int 1)) /\
  IsStopped (fst r) = true /\
  (forall trace_arg,
     tracearg_event trace_arg <> id_line ->
     snd (TraceFunc resumed trace_arg) = None /\
     break_at_next_line_ (fst (TraceFunc resumed trace_arg)) = true) /\
  (forall trace_arg,
     is_Break_line (snd (TraceFunc (ClearBreakData (fst r)) trace_arg))
     = false) /\
  (forall s0 trace_arg,
     IsStopped s0 = false -> break_at_next_line_ s0 = false ->
     Step s0 = s0 /\
     is_Break_line (snd (TraceFunc (Step s0) trace_arg)) = false).
Proof.
  intros s.
  apply (Step_halts_at_one_line_event s "/a.rb" 1%Z [("/a.rb:1", 77)]).
  reflexivity.
Defined.

(** ** The indices of the stored breakpoints *)

Lemma submulti_refl l : submulti l l.
Proof. exists []. now rewrite app_nil_r. Qed.

Lemma submulti_trans l1 l2 l3 :
  submulti l1 l2 -> submulti l2 l3 -> submulti l1 l3.
Proof.
  intros [d1 H1] [d2 H2]. exists (d1 ++ d2).
  rewrite H2, H1. now rewrite app_assoc.
Qed.

Lemma submulti_NoDup l' l : submulti l' l -> NoDup l -> NoDup l'.
Proof.
  intros [d Hp] Hnd. apply (Permutation_NoDup Hp) in Hnd.
  now apply NoDup_app_remove_r in Hnd.
Qed.

Lemma submulti_Forall (P : N -> Prop) l' l :
  submulti l' l -> Forall P l -> Forall P l'.
Proof.
  intros [d Hp] Hall. rewrite Forall_forall in *. intros x Hx.
  apply Hall. apply (Permutation_in x (Permutation_sym Hp)).
  apply in_or_app. now left.
Qed.

Lemma submulti_drop x l1 l2 : submulti (l1 ++ l2) (l1 ++ x :: l2).
Proof.
  exists [x]. rewrite <- app_assoc. apply Permutation_app_head.
  change (x :: l2) with ([x] ++ l2). apply Permutation_app_comm.
Qed.

Lemma submulti_app_tail l' l t : submulti l' l -> submulti (l' ++ t) (l ++ t).
Proof.
  intros [d Hp]. exists d.
  rewrite Hp, <- !app_assoc. apply Permutation_app_head.
  apply Permutation_app_comm.
Qed.

Lemma submulti_app_head l' l h : submulti l' l -> submulti (h ++ l') (h ++ l).
Proof.
  intros [d Hp]. exists d. rewrite Hp. now rewrite app_assoc.
Qed.

(** Where [Impl::AddBreakPoint] puts a resolved breakpoint among the
    resolved ones: nowhere if its location is taken, and otherwise between
    the ones that were there, which keep their order. *)
Lemma filing_split bps (bp : BreakPoint) :
  let bps' :=
    StdMap.subscript_set (line bp)
      (StdMap.insert (file bp) bp
         match StdMap.find (line bp) bps with
         | Some m => m
         | None => []
         end) bps in
  match (match StdMap.find (line bp) bps with
         | Some by_file => StdMap.find (file bp) by_file
         | None => None
         end) with
  | Some _ => bps' = bps
  | None =>
      exists l1 l2,
        flat_map (fun e => map snd (snd e)) bps = l1 ++ l2 /\
        flat_map (fun e => map snd (snd e)) bps' = l1 ++ bp :: l2
  end.
Proof.
  intros bps'. subst bps'.
  destruct (StdMapLookup.subscript_set_split (line bp)
              (StdMap.insert (file bp) bp
                 match StdMap.find (line bp) bps with
                 | Some m => m
                 | None => []
                 end) bps)
    as [(a & b & Hbps & Hf & Hset)|(a & m0 & b & Hbps & Hf & Hset)];
    rewrite Hset, Hf.
  - exists (flat_map (fun e => map snd (snd e)) a),
           (flat_map (fun e => map snd (snd e)) b).
    rewrite Hbps at 1. rewrite !flat_map_app. simpl. auto.
  - destruct (StdMap.find (file bp) m0) as [old|] eqn:Em.
    + rewrite (StdMapFacts.insert_present _ _ _ Em). symmetry. exact Hbps.
    + destruct (StdMapLookup.insert_absent_split (file bp) bp m0 Em)
        as (c & d & Hm0 & Hins).
      rewrite Hins.
      exists (flat_map (fun e => map snd (snd e)) a ++ map snd c),
             (map snd d ++ flat_map (fun e => map snd (snd e)) b).
      rewrite Hbps at 1. rewrite !flat_map_app. simpl.
      rewrite Hm0, !map_app. simpl. rewrite <- !app_assoc. simpl. auto.
Qed.

Lemma Impl_AddBreakPoint_resolved_split s bp :
  let s' := fst (Impl_AddBreakPoint s bp true) in
  let bp' := snd (Impl_AddBreakPoint s bp true) in
  match GetBreakPoint s (file bp) (line bp) with
  | Some _ => resolved_breakpoints s' = resolved_breakpoints s
  | None =>
      exists l1 l2,
        resolved_breakpoints s = l1 ++ l2 /\
        resolved_breakpoints s' = l1 ++ bp' :: l2
  end.
Proof.
  unfold Impl_AddBreakPoint, GetBreakPoint, resolved_breakpoints.
  destruct (index bp =? 0); simpl.
  - pose proof (filing_split (breakpoints_ s)
                  (set_index bp (size_t_wrap (last_breakpoint_index s + 1))))
      as H. simpl in H.
    destruct (match StdMap.find (line bp) (breakpoints_ s) with
              | Some by_file => StdMap.find (file bp) by_file
              | None => None
              end); [now rewrite H|exact H].
  - pose proof (filing_split (breakpoints_ s) bp) as H. simpl in H.
    destruct (match StdMap.find (line bp) (breakpoints_ s) with
              | Some by_file => StdMap.find (file bp) by_file
              | None => None
              end); [now rewrite H|exact H].
Qed.

Lemma submulti_perm l' l l2 :
  submulti l' l -> Permutation l l2 -> submulti l' l2.
Proof.
  intros [d Hp] Hperm. exists d. now rewrite <- Hperm.
Qed.

Lemma submulti_insert x a' b' a b :
  submulti (a' ++ b') (a ++ b) -> submulti (a' ++ x :: b') (a ++ x :: b).
Proof.
  intros [d Hp]. exists d.
  rewrite <- !Permutation_middle. simpl. now rewrite Hp.
Qed.

Lemma submulti_cons_drop x l : submulti l (x :: l).
Proof. apply (submulti_drop x [] l). Qed.

Lemma submulti_remove_first index0 l :
  submulti (map index (remove_first index0 l)) (map index l).
Proof.
  induction l as [|bp l IH]; simpl; [apply submulti_refl|].
  destruct (index bp =? index0).
  - apply submulti_cons_drop.
  - simpl. apply (submulti_insert (index bp) [] _ [] _). exact IH.
Qed.

Lemma Impl_AddBreakPoint_resolved_indices s bp :
  submulti
    (map index (resolved_breakpoints (fst (Impl_AddBreakPoint s bp true))))
    (index (snd (Impl_AddBreakPoint s bp true))
       :: map index (resolved_breakpoints s)).
Proof.
  pose proof (Impl_AddBreakPoint_resolved_split s bp) as H. simpl in H.
  destruct (GetBreakPoint s (file bp) (line bp)).
  - rewrite H. apply submulti_cons_drop.
  - destruct H as (l1 & l2 & -> & ->). rewrite !map_app. simpl.
    exists []. rewrite app_nil_r. apply Permutation_middle.
Qed.

Lemma ResolveBreakPoints_from_indices it : forall s,
  Forall (fun bp => index bp <> 0) it ->
  last_breakpoint_index (fst (ResolveBreakPoints_from s it))
    = last_breakpoint_index s /\
  submulti
    (map index (resolved_breakpoints (fst (ResolveBreakPoints_from s it))
                ++ snd (ResolveBreakPoints_from s it)))
    (map index (resolved_breakpoints s ++ it)).
Proof.
  induction it as [|bp it IH]; intros s Hall; simpl.
  - split; [reflexivity|apply submulti_refl].
  - inversion Hall as [|bp0 it0 Hbp Hrest]; subst.
    unfold ResolveBreakPoint.
    pose proof (ResolveBreakPoint_from_index (script_lines_ s) bp) as Hidx.
    destruct (ResolveBreakPoint_from (script_lines_ s) bp) as [[|] bp1];
      simpl in Hidx.
    + assert (Hne : index bp1 <> 0) by congruence.
      destruct (Impl_AddBreakPoint_index_kept s bp1 true Hne) as [Hi Hc].
      pose proof (Impl_AddBreakPoint_resolved_indices s bp1) as Hsub.
      destruct (IH (fst (Impl_AddBreakPoint s bp1 true)) Hrest) as [Hl Hs].
      split; [congruence|].
      eapply submulti_trans; [exact Hs|].
      rewrite !map_app. simpl.
      apply submulti_perm
        with (l := (index bp :: map index (resolved_breakpoints s))
                   ++ map index it).
      * apply submulti_app_tail. rewrite Hi, Hidx in Hsub. exact Hsub.
      * simpl. apply Permutation_middle.
    + destruct (IH s Hrest) as [Hl Hs].
      destruct (ResolveBreakPoints_from s it) as [s' kept]. simpl in *.
      split; [exact Hl|].
      rewrite !map_app in *. simpl. now apply submulti_insert.
Qed.

Lemma ResolveBreakPoints_indices s :
  Forall (fun bp => index bp <> 0) (unresolved_breakpoints_ s) ->
  last_breakpoint_index (ResolveBreakPoints s) = last_breakpoint_index s /\
  submulti (stored_indices (ResolveBreakPoints s)) (stored_indices s).
Proof.
  intros Hall. unfold ResolveBreakPoints, stored_indices, all_breakpoints.
  pose proof (ResolveBreakPoints_from_indices
                (unresolved_breakpoints_ (ReadScriptLinesHash s))
                (ReadScriptLinesHash s) Hall) as H.
  destruct (ResolveBreakPoints_from (ReadScriptLinesHash s)
              (unresolved_breakpoints_ (ReadScriptLinesHash s)))
    as [s' kept]. simpl in *. exact H.
Qed.

Lemma RemoveBreakPoint_indices s index0 :
  submulti (stored_indices (snd (RemoveBreakPoint s index0)))
    (stored_indices s).
Proof.
  unfold RemoveBreakPoint, stored_indices, all_breakpoints,
    resolved_breakpoints.
  pose proof (remove_resolved_spec index0 (breakpoints_ s)) as Hr.
  pose proof (remove_unresolved_spec index0 (unresolved_breakpoints_ s)) as Hu.
  destruct (remove_resolved index0 (breakpoints_ s)) as [bps'|]; simpl.
  - destruct Hr as [-> _]. rewrite !map_app.
    apply submulti_app_tail, submulti_remove_first.
  - destruct (remove_unresolved index0 (unresolved_breakpoints_ s))
      as [v'|]; simpl.
    + destruct Hu as [-> _]. rewrite !map_app.
      apply submulti_app_head, submulti_remove_first.
    + apply submulti_refl.
Qed.

Lemma AddBreakPoint_indices s bp :
  index bp = 0 ->
  last_breakpoint_index s < SIZE_MAX ->
  last_breakpoint_index (snd (fst (AddBreakPoint s bp)))
    = last_breakpoint_index s + 1 /\
  submulti (stored_indices (snd (fst (AddBreakPoint s bp))))
    ((last_breakpoint_index s + 1) :: stored_indices s).
Proof.
  intros Hzero Hroom.
  destruct (AddBreakPoint_assigns_next s bp Hzero Hroom) as [Hi Hl].
  split; [exact Hl|]. rewrite <- Hi. clear Hi Hl.
  unfold AddBreakPoint, ResolveBreakPoint, stored_indices, all_breakpoints.
  set (s1 := ReadScriptLinesHash s).
  destruct (ResolveBreakPoint_from (script_lines_ s1) bp) as [[|] bp1].
  - pose proof (Impl_AddBreakPoint_resolved_indices s1 bp1) as Hsub.
    pose proof (Impl_AddBreakPoint_resolved_unresolved s1 bp1) as Hu.
    destruct (Impl_AddBreakPoint s1 bp1 true) as [s2 bp2]. simpl in *.
    rewrite Hu, !map_app.
    apply (submulti_app_tail _ _ (map index (unresolved_breakpoints_ s)))
      in Hsub.
    exact Hsub.
  - pose proof (Impl_AddBreakPoint_unresolved s1 bp1) as [Hb Hu].
    destruct (Impl_AddBreakPoint s1 bp1 false) as [s2 bp2]. simpl in *.
    unfold resolved_breakpoints. rewrite Hb, Hu, !map_app. simpl.
    exists []. rewrite app_nil_r.
    change (index bp2 :: map index (resolved_breakpoints s1)
                         ++ map index (unresolved_breakpoints_ s))
      with (index bp2 :: (map index (resolved_breakpoints s1)
                          ++ map index (unresolved_breakpoints_ s))).
    rewrite app_assoc. apply Permutation_cons_append.
Qed.

Lemma indices_fresh_unresolved_nonzero s :
  indices_fresh s ->
  Forall (fun bp => index bp <> 0) (unresolved_breakpoints_ s).
Proof.
  intros [_ Hall]. unfold stored_indices, all_breakpoints in Hall.
  rewrite Forall_forall in *. intros bp Hin.
  assert (Hi : In (index bp)
                 (map index (resolved_breakpoints s
                             ++ unresolved_breakpoints_ s))).
  { apply in_map. apply in_or_app. now right. }
  specialize (Hall _ Hi). lia.
Qed.

Lemma indices_fresh_sub s s' :
  submulti (stored_indices s') (stored_indices s) ->
  last_breakpoint_index s' = last_breakpoint_index s ->
  indices_fresh s -> indices_fresh s'.
Proof.
  intros Hsub Hl [Hnd Hall]. split.
  - now apply (submulti_NoDup _ _ Hsub).
  - rewrite Hl. now apply (submulti_Forall _ _ _ Hsub).
Qed.

Lemma indices_fresh_ResolveBreakPoints s :
  indices_fresh s ->
  indices_fresh (ResolveBreakPoints s) /\
  last_breakpoint_index (ResolveBreakPoints s) = last_breakpoint_index s.
Proof.
  intros Hf.
  destruct (ResolveBreakPoints_indices s
              (indices_fresh_unresolved_nonzero s Hf)) as [Hl Hsub].
  split; [|exact Hl]. now apply (indices_fresh_sub s).
Qed.

Lemma indices_fresh_TraceFunc s trace_arg :
  indices_fresh s ->
  indices_fresh (fst (TraceFunc s trace_arg)) /\
  last_breakpoint_index (fst (TraceFunc s trace_arg))
    = last_breakpoint_index s.
Proof.
  intros Hf. destruct trace_arg as [ev path lineno backtrace].
  destruct ev; try (unfold TraceFunc; simpl; split; [exact Hf|reflexivity]).
  destruct (break_at_next_line_ s) eqn:Hflag.
  - unfold TraceFunc; simpl. rewrite Hflag. simpl.
    split; [exact Hf|reflexivity].
  - change (mkTraceArg id_line path lineno backtrace)
      with (line_event path lineno backtrace).
    rewrite TraceFunc_not_armed by exact Hflag.
    assert (Hb : indices_fresh (before_lookup s) /\
                 last_breakpoint_index (before_lookup s)
                 = last_breakpoint_index s).
    { unfold before_lookup. destruct (negb _).
      - apply (indices_fresh_ResolveBreakPoints (ClearBreakData s)). exact Hf.
      - split; [exact Hf|reflexivity]. }
    destruct (GetBreakPoint (before_lookup s) path (size_t_of_int lineno));
      simpl; exact Hb.
Qed.

Lemma indices_fresh_handle s e n :
  unindexed_event e ->
  n < SIZE_MAX ->
  indices_fresh s /\ last_breakpoint_index s <= n ->
  indices_fresh (handle s e) /\ last_breakpoint_index (handle s e) <= n + 1.
Proof.
  intros He Hn [Hf Hle].
  destruct e as [|c|hash|trace_arg|]; simpl.
  - split; [exact Hf|simpl; lia].
  - destruct c as [bp|index0| |up| |b e]; simpl in *.
    + destruct (AddBreakPoint_indices s bp He ltac:(lia)) as [Hl Hsub].
      split; [|lia]. destruct Hf as [Hnd Hall]. split.
      * apply (submulti_NoDup _ _ Hsub). constructor; [|exact Hnd].
        intros Hin. rewrite Forall_forall in Hall.
        specialize (Hall _ Hin). lia.
      * rewrite Hl. apply (submulti_Forall _ _ _ Hsub).
        constructor; [lia|].
        rewrite Forall_forall in *. intros i Hi.
        specialize (Hall _ Hi). lia.
    + pose proof (RemoveBreakPoint_counter s index0) as Hl.
      split; [|lia].
      apply (indices_fresh_sub s); auto. apply RemoveBreakPoint_indices.
    + destruct (indices_fresh_ResolveBreakPoints s Hf) as [Hf' Hl].
      split; [exact Hf'|lia].
    + assert (Hsame : all_breakpoints (ShiftActiveFrame s up)
                      = all_breakpoints s /\
                      last_breakpoint_index (ShiftActiveFrame s up)
                      = last_breakpoint_index s).
      { unfold ShiftActiveFrame.
        repeat match goal with
               | |- context [if ?c then _ else _] => destruct c
               end; split; reflexivity. }
      destruct Hsame as [Ha Hl]. unfold indices_fresh, stored_indices.
      rewrite Ha, Hl. split; [exact Hf|lia].
    + unfold Step. destruct (IsStopped s); (split; [exact Hf|simpl; lia]).
    + assert (Hsame : all_breakpoints (snd (GetCodeLines s b e))
                      = all_breakpoints s /\
                      last_breakpoint_index (snd (GetCodeLines s b e))
                      = last_breakpoint_index s).
      { unfold GetCodeLines.
        destruct (IsStopped s); [|split; reflexivity].
        destruct (StdMap.find _ _); [|split; reflexivity].
        match goal with
        | |- context [if ?c then _ else _] => destruct c
        end; split; reflexivity. }
      destruct Hsame as [Ha Hl]. unfold indices_fresh, stored_indices.
      rewrite Ha, Hl. split; [exact Hf|lia].
  - split; [exact Hf|simpl; lia].
  - destruct (indices_fresh_TraceFunc s trace_arg Hf) as [Hf' Hl].
    split; [exact Hf'|lia].
  - split; [exact Hf|simpl; lia].
Qed.

Lemma indices_fresh_run events : forall s n,
  Forall unindexed_event events ->
  n + N.of_nat (List.length events) <= SIZE_MAX ->
  indices_fresh s /\ last_breakpoint_index s <= n ->
  indices_fresh (run s events) /\
  last_breakpoint_index (run s events) <= n + N.of_nat (List.length events).
Proof.
  induction events as [|e events IH]; intros s n Hall Hn HJ.
  - simpl. rewrite N.add_0_r. exact HJ.
  - inversion Hall as [|e0 ev0 He Hrest]; subst.
    change (run s (e :: events)) with (run (handle s e) events).
    change (List.length (e :: events)) with (S (List.length events)) in *.
    rewrite Nat2N.inj_succ in *.
    replace (n + N.succ (N.of_nat (List.length events)))
      with ((n + 1) + N.of_nat (List.length events)) by lia.
    apply IH; [exact Hrest|lia|].
    apply indices_fresh_handle; [exact He|lia|exact HJ].
Qed.

(** X11. Indices identify breakpoints.  After any history of events in
    which every breakpoint handed to [AddBreakPoint] arrives with index 0
    (and which is too short to wrap the counter), the breakpoints the
    server holds, resolved and unresolved together, have pairwise distinct
    indices, all between 1 and the counter; resolution passes, removals
    and halts never create a duplicate or a zero. *)
Theorem stored_indices_are_distinct (events : list Event) :
  Forall unindexed_event events ->
  N.of_nat (List.length events) <= SIZE_MAX ->
  NoDup (stored_indices (run Impl_new events)) /\
  Forall (fun i => 1 <= i <= last_breakpoint_index (run Impl_new events))
    (stored_indices (run Impl_new events)) /\
  last_breakpoint_index (run Impl_new events)
    <= N.of_nat (List.length events).
Proof.
  intros Hall Hlen.
  destruct (indices_fresh_run events Impl_new 0 Hall ltac:(lia)) as [[Hnd Hb] Hl].
  - split; [split; constructor|simpl; lia].
  - auto.
Qed.

Lemma stored_indices_are_distinct_witness :
  let events :=
    [EvStart;
     EvCommand (CmdAddBreakPoint (mkBreakPoint 0 "foo.rb" 2));
     EvCommand (CmdAddBreakPoint (mkBreakPoint 0 "bar.rb" 1));
     EvContinue;
     EvEngineLoads [("/abs/foo.rb", ["x"; "y"])];
     EvTrace (line_event "/abs/foo.rb" 1 []);
     EvCommand (CmdRemoveBreakPoint 2);
     EvCommand (CmdAddBreakPoint (mkBreakPoint 0 "foo.rb" 1))] in
  stored_indices (run Impl_new events) = [3; 1] /\
  NoDup (stored_indices (run Impl_new events)) /\
  Forall (fun i => 1 <= i <= last_breakpoint_index (run Impl_new events))
    (stored_indices (run Impl_new events)) /\
  last_breakpoint_index (run Impl_new events)
    <= N.of_nat (List.length events).
Proof.
  intros events. split; [reflexivity|].
  apply (stored_indices_are_distinct events).
  - repeat constructor.
  - vm_compute. discriminate.
Defined.

(** ** Removal, by the lists of breakpoints *)

Lemma has_index_false index0 l :
  has_index index0 l = false <-> forall bp, In bp l -> index bp <> index0.
Proof.
  unfold has_index. split.
  - intros Hno bp Hin Hi.
    assert (Hex : existsb (fun bp => index bp =? index0) l = true).
    { apply existsb_exists. exists bp. split; [exact Hin|].
      now apply N.eqb_eq. }
    congruence.
  - intros Hno. destruct (existsb _ l) eqn:E; [|reflexivity].
    apply existsb_exists in E. destruct E as (bp & Hin & Hi).
    apply N.eqb_eq in Hi. exfalso. exact (Hno bp Hin Hi).
Qed.

Lemma has_index_true index0 l :
  has_index index0 l = true <-> exists bp, In bp l /\ index bp = index0.
Proof.
  unfold has_index. rewrite existsb_exists. split.
  - intros (bp & Hin & Hi). apply N.eqb_eq in Hi. eauto.
  - intros (bp & Hin & Hi). exists bp. split; [exact Hin|].
    now apply N.eqb_eq.
Qed.

Lemma has_index_In index0 l :
  has_index index0 l = true <-> In index0 (map index l).
Proof.
  rewrite has_index_true, in_map_iff. split.
  - intros (bp & Hin & Hi). eauto.
  - intros (bp & Hi & Hin). eauto.
Qed.

(** [RemoveBreakPoint] in terms of the two lists of breakpoints. *)
Lemma RemoveBreakPoint_lists s index0 :
  fst (RemoveBreakPoint s index0) = has_index index0 (all_breakpoints s) /\
  resolved_breakpoints (snd (RemoveBreakPoint s index0))
    = remove_first index0 (resolved_breakpoints s) /\
  unresolved_breakpoints_ (snd (RemoveBreakPoint s index0))
    = (if has_index index0 (resolved_breakpoints s)
       then unresolved_breakpoints_ s
       else remove_first index0 (unresolved_breakpoints_ s)) /\
  (has_index index0 (all_breakpoints s) = false ->
   snd (RemoveBreakPoint s index0) = s).
Proof.
  unfold RemoveBreakPoint, all_breakpoints, resolved_breakpoints.
  pose proof (remove_resolved_spec index0 (breakpoints_ s)) as Hr.
  pose proof (remove_unresolved_spec index0 (unresolved_breakpoints_ s)) as Hu.
  unfold has_index at 1 3. rewrite existsb_app.
  fold (has_index index0 (flat_map (fun e => map snd (snd e)) (breakpoints_ s))).
  fold (has_index index0 (unresolved_breakpoints_ s)).
  destruct (remove_resolved index0 (breakpoints_ s)) as [bps'|]; simpl.
  - destruct Hr as [Hflat Hex]. apply has_index_true in Hex.
    rewrite Hex. simpl. repeat split; auto. discriminate.
  - apply has_index_false in Hr. rewrite Hr. simpl.
    rewrite (@remove_first_none index0 _ (proj1 (has_index_false _ _) Hr)).
    destruct (remove_unresolved index0 (unresolved_breakpoints_ s))
      as [v'|]; simpl.
    + destruct Hu as [-> Hex]. apply has_index_true in Hex.
      rewrite Hex. repeat split. discriminate.
    + apply has_index_false in Hu. rewrite Hu.
      rewrite (@remove_first_none index0 _ (proj1 (has_index_false _ _) Hu)).
      repeat split.
Qed.

Lemma remove_first_index_gone index0 l :
  NoDup (map index l) -> ~ In index0 (map index (remove_first index0 l)).
Proof.
  induction l as [|bp l IH]; simpl; [auto|].
  intros Hnd. inversion Hnd as [|i l0 Hnotin Hnd']; subst.
  destruct (index bp =? index0) eqn:E.
  - apply N.eqb_eq in E. now subst index0.
  - apply N.eqb_neq in E. simpl. intros [Hi|Hin]; [contradiction|].
    now apply IH.
Qed.

Lemma In_remove_first_other index0 l bp :
  In bp l -> index bp <> index0 -> In bp (remove_first index0 l).
Proof.
  induction l as [|bp0 l IH]; simpl; [auto|].
  intros [->|Hin] Hne.
  - apply N.eqb_neq in Hne. rewrite Hne. now left.
  - destruct (index bp0 =? index0); [exact Hin|]. right. auto.
Qed.

Lemma NoDup_app_not_both (x : N) l1 l2 :
  NoDup (l1 ++ l2) -> In x l1 -> ~ In x l2.
Proof.
  induction l1 as [|a l1 IH]; simpl; [contradiction|].
  intros Hnd [->|Hin] Hin2.
  - inversion Hnd as [|y l Hnotin _]; subst.
    apply Hnotin. apply in_or_app. now right.
  - inversion Hnd as [|y l _ Hnd']; subst. now apply (IH Hnd' Hin).
Qed.

(** X12. When the stored indices are pairwise distinct, [RemoveBreakPoint]
    returns true exactly if some stored breakpoint has the index; after the
    call no stored breakpoint has it, every breakpoint with another index
    is still stored, and a second call with the same index returns false
    and changes nothing. *)
Theorem RemoveBreakPoint_then_index_is_gone (s : Impl) (index0 : N) :
  NoDup (stored_indices s) ->
  let s' := snd (RemoveBreakPoint s index0) in
  (fst (RemoveBreakPoint s index0) = true <-> In index0 (stored_indices s)) /\
  ~ In index0 (stored_indices s') /\
  (forall bp, In bp (all_breakpoints s) -> index bp <> index0 ->
              In bp (all_breakpoints s')) /\
  RemoveBreakPoint s' index0 = (false, s').
Proof.
  intros Hnd s'. subst s'.
  destruct (RemoveBreakPoint_lists s index0) as (Hfst & Hres & Hunres & _).
  assert (Hgone : ~ In index0
                    (stored_indices (snd (RemoveBreakPoint s index0)))).
  { unfold stored_indices, all_breakpoints in *.
    rewrite Hres, Hunres, map_app. rewrite map_app in Hnd.
    intros Hin. apply in_app_or in Hin.
    destruct (has_index index0 (resolved_breakpoints s)) eqn:Eres.
    - destruct Hin as [Hin|Hin].
      + apply NoDup_app_remove_r in Hnd.
        now apply (remove_first_index_gone index0 _ Hnd).
      + apply has_index_In in Eres.
        now apply (NoDup_app_not_both index0 _ _ Hnd Eres).
    - destruct Hin as [Hin|Hin].
      + apply NoDup_app_remove_r in Hnd.
        now apply (remove_first_index_gone index0 _ Hnd).
      + apply NoDup_app_remove_l in Hnd.
        now apply (remove_first_index_gone index0 _ Hnd). }
  split; [|split; [exact Hgone|split]].
  - rewrite Hfst. apply has_index_In.
  - intros bp Hin Hne. unfold all_breakpoints in *.
    rewrite Hres, Hunres. apply in_app_or in Hin. apply in_or_app.
    destruct Hin as [Hin|Hin].
    + left. now apply In_remove_first_other.
    + right. destruct (has_index index0 (resolved_breakpoints s));
        [exact Hin|now apply In_remove_first_other].
  - destruct (RemoveBreakPoint_lists (snd (RemoveBreakPoint s index0)) index0)
      as (Hfst2 & _ & _ & Hsame).
    assert (Hno : has_index index0
                    (all_breakpoints (snd (RemoveBreakPoint s index0)))
                  = false).
    { destruct (has_index index0
                  (all_breakpoints (snd (RemoveBreakPoint s index0)))) eqn:E;
        [|reflexivity].
      apply has_index_In in E. contradiction. }
    rewrite Hno in Hfst2. specialize (Hsame Hno).
    destruct (RemoveBreakPoint (snd (RemoveBreakPoint s index0)) index0)
      as [removed s2]. simpl in *. congruence.
Qed.

Lemma RemoveBreakPoint_then_index_is_gone_witness :
  let s := run Impl_new
             [EvStart; EvEngineLoads [("/a.rb", ["x"; "y"; "z"])];
              EvCommand (CmdAddBreakPoint (mkBreakPoint 0 "a.rb" 2));
              EvCommand (CmdAddBreakPoint (mkBreakPoint 0 "b.rb" 2));
              EvCommand (CmdAddBreakPoint (mkBreakPoint 0 "a.rb" 3))] in
  let s' := snd (RemoveBreakPoint s 2) in
  (fst (RemoveBreakPoint s 2) = true <-> In 2 (stored_indices s)) /\
  ~ In 2 (stored_indices s') /\
  (forall bp, In bp (all_breakpoints s) -> index bp <> 2 ->
              In bp (all_breakpoints s')) /\
  RemoveBreakPoint s' 2 = (false, s').
Proof.
  intros s. apply (RemoveBreakPoint_then_index_is_gone s 2).
  vm_compute. repeat constructor; simpl; intuition discriminate.
Defined.

(** ** Adding, then removing by the returned index *)

Lemma remove_first_middle index0 l1 bp l2 :
  (forall b, In b l1 -> index b <> index0) -> index bp = index0 ->
  remove_first index0 (l1 ++ bp :: l2) = l1 ++ l2.
Proof.
  intros Hno Hi. rewrite (@remove_first_app_r index0 l1 (bp :: l2) Hno).
  simpl. apply N.eqb_eq in Hi. now rewrite Hi.
Qed.

(** X13. The index [AddBreakPoint] returns, used at once.  Let a
    breakpoint arrive with index 0 in a state whose stored indices do not
    exceed the counter.  If the breakpoint was stored (it stayed
    unresolved, or it resolved to a free location), [RemoveBreakPoint]
    with the returned index returns true and puts the resolved and the
    unresolved breakpoints back exactly as they were before the addition.
    If it resolved to a location that was already taken, the returned
    index designates nothing: [RemoveBreakPoint] returns false and changes
    nothing. *)
Theorem AddBreakPoint_then_RemoveBreakPoint (s : Impl) (bp : BreakPoint) :
  index bp = 0 ->
  last_breakpoint_index s < SIZE_MAX ->
  Forall (fun i => i <= last_breakpoint_index s) (stored_indices s) ->
  let s' := snd (fst (AddBreakPoint s bp)) in
  let bp' := snd (AddBreakPoint s bp) in
  let taken :=
    resolvable (script_lines_ (ReadScriptLinesHash s)) bp
    && match GetBreakPoint s (file bp') (line bp') with
       | Some _ => true
       | None => false
       end in
  (taken = true -> RemoveBreakPoint s' (index bp') = (false, s')) /\
  (taken = false ->
   fst (RemoveBreakPoint s' (index bp')) = true /\
   resolved_breakpoints (snd (RemoveBreakPoint s' (index bp')))
     = resolved_breakpoints s /\
   unresolved_breakpoints_ (snd (RemoveBreakPoint s' (index bp')))
     = unresolved_breakpoints_ s).
Proof.
  intros Hzero Hroom Hbound s' bp' taken. subst s' bp' taken.
  destruct (AddBreakPoint_assigns_next s bp Hzero Hroom) as [Hi _].
  assert (Hfresh : forall b, In b (all_breakpoints s) ->
                             index b <> last_breakpoint_index s + 1).
  { intros b Hin. rewrite Forall_forall in Hbound.
    assert (Hle : index b <= last_breakpoint_index s)
      by (apply Hbound; unfold stored_indices; now apply in_map).
    lia. }
  revert Hi. unfold AddBreakPoint, resolvable, ResolveBreakPoint.
  set (s1 := ReadScriptLinesHash s).
  destruct (ResolveBreakPoint_from (script_lines_ s1) bp) as [ok bp1].
  pose proof (Impl_AddBreakPoint_location s1 bp1 ok) as Hloc.
  pose proof (Impl_AddBreakPoint_resolved_split s1 bp1) as Hsplit.
  pose proof (Impl_AddBreakPoint_resolved_unresolved s1 bp1) as Hu_res.
  pose proof (Impl_AddBreakPoint_unresolved s1 bp1) as [Hb_un Hu_un].
  simpl in Hsplit.
  destruct (Impl_AddBreakPoint s1 bp1 ok) as [s2 bp2] eqn:Eadd.
  simpl. intros Hi.
  unfold location in Hloc. simpl in Hloc. injection Hloc as Hf2 Hl2.
  rewrite Hf2, Hl2.
  change (GetBreakPoint s (file bp1) (line bp1))
    with (GetBreakPoint s1 (file bp1) (line bp1)).
  destruct (RemoveBreakPoint_lists s2 (index bp2))
    as (Hfst & Hres & Hunres & Hsame).
  assert (Hall_s1 : all_breakpoints s1 = all_breakpoints s) by reflexivity.
  destruct ok; simpl.
  - rewrite Eadd in Hsplit, Hu_res. simpl in Hsplit, Hu_res.
    destruct (GetBreakPoint s1 (file bp1) (line bp1)) as [old|].
    + split; [intros _|discriminate].
      assert (Hno : has_index (index bp2) (all_breakpoints s2) = false).
      { apply has_index_false. unfold all_breakpoints.
        rewrite Hsplit, Hu_res, Hi. exact Hfresh. }
      rewrite Hno in Hfst. specialize (Hsame Hno).
      destruct (RemoveBreakPoint s2 (index bp2)) as [removed s3].
      simpl in *. congruence.
    + split; [discriminate|intros _].
      destruct Hsplit as (l1 & l2 & Hold & Hnew).
      assert (Hno1 : forall b, In b l1 -> index b <> index bp2).
      { intros b Hin. rewrite Hi. apply Hfresh. unfold all_breakpoints.
        apply in_or_app. left.
        change (resolved_breakpoints s) with (resolved_breakpoints s1).
        rewrite Hold. apply in_or_app. now left. }
      assert (Hhas : has_index (index bp2) (resolved_breakpoints s2) = true).
      { apply has_index_true. exists bp2. split; [|reflexivity].
        rewrite Hnew. apply in_or_app. right. now left. }
      rewrite Hhas in Hunres.
      split; [|split].
      * rewrite Hfst. unfold all_breakpoints, has_index.
        rewrite existsb_app. fold (has_index (index bp2) (resolved_breakpoints s2)).
        now rewrite Hhas.
      * rewrite Hres, Hnew, (remove_first_middle _ _ _ _ Hno1 eq_refl).
        symmetry. exact Hold.
      * rewrite Hunres. exact Hu_res.
  - rewrite Eadd in Hb_un, Hu_un. simpl in Hb_un, Hu_un.
    split; [discriminate|intros _].
    assert (Hres_same : resolved_breakpoints s2 = resolved_breakpoints s).
    { unfold resolved_breakpoints. now rewrite Hb_un. }
    assert (Hno_res : has_index (index bp2) (resolved_breakpoints s2) = false).
    { apply has_index_false. rewrite Hres_same, Hi. intros b Hin.
      apply Hfresh. unfold all_breakpoints. apply in_or_app. now left. }
    assert (Hno_un : forall b, In b (unresolved_breakpoints_ s) ->
                               index b <> index bp2).
    { intros b Hin. rewrite Hi. apply Hfresh. unfold all_breakpoints.
      apply in_or_app. now right. }
    rewrite Hno_res in Hunres.
    split; [|split].
    + rewrite Hfst. apply has_index_true. exists bp2. split; [|reflexivity].
      unfold all_breakpoints. apply in_or_app. right. rewrite Hu_un.
      apply in_or_app. right. now left.
    + rewrite Hres, Hres_same.
      apply remove_first_none. rewrite <- Hres_same.
      now apply has_index_false.
    + rewrite Hunres, Hu_un.
      rewrite (remove_first_middle _ _ _ [] Hno_un eq_refl).
      apply app_nil_r.
Qed.

Lemma AddBreakPoint_then_RemoveBreakPoint_witness :
  let s := run Impl_new
             [EvStart; EvEngineLoads [("/a.rb", ["x"; "y"; "z"])];
              EvCommand (CmdAddBreakPoint (mkBreakPoint 0 "a.rb" 2))] in
  let bp := mkBreakPoint 0 "A.rb" 2 in
  let s' := snd (fst (AddBreakPoint s bp)) in
  let bp' := snd (AddBreakPoint s bp) in
  index bp' = 2 /\
  RemoveBreakPoint s' (index bp') = (false, s') /\
  fst (RemoveBreakPoint s' 1) = true.
Proof.
  intros s bp s' bp'. split; [reflexivity|]. split; [|reflexivity].
  apply (proj1 (AddBreakPoint_then_RemoveBreakPoint s bp
                  eq_refl eq_refl
                  ltac:(repeat constructor; vm_compute; discriminate))).
  reflexivity.
Defined.

(** ** The listing of the breakpoints *)

Lemma sort_insert_perm bp l : Permutation (sort_insert bp l) (bp :: l).
Proof.
  induction l as [|bp' l IH]; simpl; [reflexivity|].
  destruct (index bp' <? index bp); [|reflexivity].
  rewrite IH. apply perm_swap.
Qed.

Lemma sort_by_index_perm l : Permutation (sort_by_index l) l.
Proof.
  induction l as [|bp l IH]; simpl; [reflexivity|].
  rewrite sort_insert_perm. now apply perm_skip.
Qed.

Lemma sort_insert_sorted bp l :
  StronglySorted index_le l -> StronglySorted index_le (sort_insert bp l).
Proof.
  induction l as [|bp' l IH]; simpl; intros Hs.
  - repeat constructor.
  - inversion Hs as [|b0 l0 Hs' Hall]; subst.
    destruct (index bp' <? index bp) eqn:E.
    + apply N.ltb_lt in E. constructor; [now apply IH|].
      rewrite Forall_forall in *. intros x Hx.
      apply (Permutation_in x (sort_insert_perm bp l)) in Hx.
      destruct Hx as [<-|Hx]; [unfold index_le; lia|now apply Hall].
    + apply N.ltb_ge in E. constructor; [exact Hs|].
      constructor; [unfold index_le; lia|].
      rewrite Forall_forall in *. intros x Hx.
      specialize (Hall x Hx). unfold index_le in *. lia.
Qed.

(** Equal indices keep their order. *)
Example sort_by_index_keeps_ties :
  sort_by_index [mkBreakPoint 2 "a" 1; mkBreakPoint 1 "b" 1;
                 mkBreakPoint 2 "c" 1]
  = [mkBreakPoint 1 "b" 1; mkBreakPoint 2 "a" 1; mkBreakPoint 2 "c" 1].
Proof. reflexivity. Qed.

Lemma sort_by_index_sorted l : StronglySorted index_le (sort_by_index l).
Proof.
  induction l as [|bp l IH]; simpl; [constructor|].
  now apply sort_insert_sorted.
Qed.

(** X14. [GetBreakPoints] first makes a resolution pass, which is all it
    does to the state, and then lists every breakpoint the server holds
    after that pass, resolved and unresolved, each as often as it is held,
    in ascending order of index. *)
Theorem GetBreakPoints_lists_all_by_index (s : Impl) :
  snd (GetBreakPoints s) = ResolveBreakPoints s /\
  Permutation (fst (GetBreakPoints s))
    (all_breakpoints (ResolveBreakPoints s)) /\
  StronglySorted index_le (fst (GetBreakPoints s)) /\
  List.length (fst (GetBreakPoints s))
    = List.length (all_breakpoints (ResolveBreakPoints s)).
Proof.
  unfold GetBreakPoints, all_breakpoints; simpl.
  split; [reflexivity|]. split; [apply sort_by_index_perm|].
  split; [apply sort_by_index_sorted|].
  apply Permutation_length, sort_by_index_perm.
Qed.

(** A listing that resolves a waiting breakpoint on the way. *)
Example GetBreakPoints_example :
  let s := run Impl_new
             [EvStart;
              EvCommand (CmdAddBreakPoint (mkBreakPoint 0 "b.rb" 1));
              EvCommand (CmdAddBreakPoint (mkBreakPoint 0 "zzz.rb" 7));
              EvEngineLoads [("/a.rb", ["x"]); ("/b.rb", ["y"])];
              EvCommand (CmdAddBreakPoint (mkBreakPoint 0 "a.rb" 1))] in
  fst (GetBreakPoints s)
  = [mkBreakPoint 1 "/b.rb" 1; mkBreakPoint 2 "zzz.rb" 7;
     mkBreakPoint 3 "/a.rb" 1].
Proof. reflexivity. Qed.

(** ** The lines [GetCodeLines] returns *)

Lemma In_code_window lines lo hi k text :
  1 <= lo -> hi <= size lines ->
  In (k, text) (code_window lines lo hi) ->
  lo <= k <= hi /\ nth_error lines (N.to_nat (k - 1)) = Some text.
Proof.
  unfold code_window. intros Hlo Hhi Hin.
  rewrite in_map_iff in Hin. destruct Hin as (j & Heq & Hj).
  injection Heq as Hk Ht. rewrite in_seq in Hj.
  assert (Hjk : j = N.to_nat k) by lia. subst j.
  split; [lia|].
  replace (N.to_nat (k - 1)) with (N.to_nat k - 1)%nat by lia.
  rewrite <- Ht. apply nth_error_nth'.
  unfold size in Hhi. lia.
Qed.

(** X15. [GetCodeLines] never reads outside the file.  In a reachable
    state, whatever the two arguments, every pair it returns was produced
    while the server was stopped in a file the refreshed registry knows,
    carries a line number between 1 and that file's line count, not below
    the first line asked for, and carries the text of exactly that line.
    The call changes the state only by refreshing the registry. *)
Theorem GetCodeLines_stays_in_file
  (s : Impl) (beg_line end_line k : N) (text : string) :
  reachable s ->
  In (k, text) (fst (GetCodeLines s beg_line end_line)) ->
  IsStopped s = true /\
  snd (GetCodeLines s beg_line end_line) = ReadScriptLinesHash s /\
  exists lines,
    StdMap.find (last_break_file_path_ s)
      (script_lines_ (ReadScriptLinesHash s)) = Some lines /\
    1 <= k <= size lines /\
    window_begin (last_break_line_ s) beg_line <= k /\
    (end_line <> 0 -> k <= end_line) /\
    nth_error lines (N.to_nat (k - 1)) = Some text.
Proof.
  intros Hr Hin.
  destruct (IsStopped s) eqn:Hst.
  2:{ unfold GetCodeLines in Hin. rewrite Hst in Hin. contradiction. }
  destruct (StdMap.find (last_break_file_path_ s)
              (script_lines_ (ReadScriptLinesHash s))) as [lines|] eqn:Hfind.
  2:{ unfold GetCodeLines in Hin. rewrite Hst in Hin.
      change (last_break_file_path_ (ReadScriptLinesHash s))
        with (last_break_file_path_ s) in Hin.
      rewrite Hfind in Hin. contradiction. }
  split; [reflexivity|]. split.
  - unfold GetCodeLines. rewrite Hst.
    change (last_break_file_path_ (ReadScriptLinesHash s))
      with (last_break_file_path_ s).
    rewrite Hfind.
    match goal with |- context [if ?c then _ else _] => destruct c end;
      reflexivity.
  - exists lines. split; [reflexivity|].
    rewrite (@GetCodeLines_known_file s lines beg_line end_line Hr Hst Hfind)
      in Hin.
    assert (Hlo : 1 <= window_begin (last_break_line_ s) beg_line).
    { unfold window_begin. destruct (beg_line =? 0) eqn:E; [lia|].
      apply N.eqb_neq in E. lia. }
    apply In_code_window in Hin; [|exact Hlo|lia].
    destruct Hin as [[Hk1 Hk2] Hnth].
    split; [lia|]. split; [lia|]. split; [|exact Hnth].
    intros Hne. apply N.eqb_neq in Hne. rewrite Hne in Hk2. lia.
Qed.

Lemma GetCodeLines_stays_in_file_witness :
  let s := run Impl_new
             [EvStart;
              EvEngineLoads [("/a.rb", ["l1"; "l2"; "l3"])];
              EvCommand CmdStep; EvContinue;
              EvTrace (line_event "/a.rb" 2 [("/a.rb:2", 77)])] in
  fst (GetCodeLines s 3 900) = [(3, "l3")] /\
  IsStopped s = true /\
  snd (GetCodeLines s 3 900) = ReadScriptLinesHash s /\
  exists lines,
    StdMap.find (last_break_file_path_ s)
      (script_lines_ (ReadScriptLinesHash s)) = Some lines /\
    1 <= 3 <= size lines /\
    window_begin (last_break_line_ s) 3 <= 3 /\
    (900 <> 0 -> 3 <= 900) /\
    nth_error lines (N.to_nat (3 - 1)) = Some "l3".
Proof.
  intros s. split; [reflexivity|].
  apply (GetCodeLines_stays_in_file s 3 900 3 "l3").
  - eexists. reflexivity.
  - left. reflexivity.
Defined.

(** ** Moving between frames and evaluating *)

Lemma EvaluateExpression_at_cursor eval s expr :
  active_frame_index_ s < size (frames_ s) ->
  exists frame,
    nth_error (frames_ s) (N.to_nat (active_frame_index_ s)) = Some frame /\
    EvaluateExpression eval s expr = eval expr (binding frame).
Proof.
  intros Hlt. unfold EvaluateExpression.
  assert (Hne : (size (frames_ s) =? 0) = false) by (apply N.eqb_neq; lia).
  rewrite Hne. apply N.ltb_lt in Hlt. rewrite Hlt. simpl.
  apply N.ltb_lt in Hlt. unfold size in Hlt.
  destruct (nth_error (frames_ s) (N.to_nat (active_frame_index_ s)))
    as [frame|] eqn:E.
  - exists frame. auto.
  - apply nth_error_None in E. lia.
Qed.

(** X16. During a halt, in a reachable state: a shift toward older frames
    that has room, followed by a shift toward newer frames, restores the
    state exactly, and so does a shift toward newer frames from a cursor
    above 0 and within the frames followed by a shift toward older ones.
    After a shift toward older frames that has room, expressions are
    evaluated in the binding of the frame one position further out. *)
Theorem ShiftActiveFrame_there_and_back
  (s : Impl) (eval : string -> VALUE -> string) (expr : string) :
  reachable s ->
  IsStopped s = true ->
  (active_frame_index_ s + 1 < size (frames_ s) ->
   ShiftActiveFrame (ShiftActiveFrame s true) false = s /\
   exists frame,
     nth_error (frames_ s) (N.to_nat (active_frame_index_ s + 1))
       = Some frame /\
     EvaluateExpression eval (ShiftActiveFrame s true) expr
       = eval expr (binding frame)) /\
  (0 < active_frame_index_ s -> active_frame_index_ s < size (frames_ s) ->
   ShiftActiveFrame (ShiftActiveFrame s false) true = s).
Proof.
  intros Hr Hst. apply reachable_Inv in Hr.
  destruct Hr as ((_ & Hframes & Hcursor) & _).
  unfold IsStopped in Hst.
  assert (Hwrap : forall c, (Z.of_N c <= INT_MAX)%Z ->
                            size_t_wrap (c + 1) = c + 1).
  { intros c Hc. unfold size_t_wrap, SIZE_MOD. apply N.mod_small.
    unfold INT_MAX in Hc. lia. }
  split.
  - intros Hroom.
    assert (Hup : ShiftActiveFrame s true
                  = with_active_frame_index_ s (active_frame_index_ s + 1)).
    { unfold ShiftActiveFrame, IsStopped. rewrite Hst, (Hwrap _ Hcursor).
      apply N.ltb_lt in Hroom. now rewrite Hroom. }
    rewrite Hup. split.
    + unfold ShiftActiveFrame, IsStopped. simpl. rewrite Hst.
      assert (Hpos : (0 <? active_frame_index_ s + 1) = true)
        by (apply N.ltb_lt; lia).
      rewrite Hpos. simpl.
      replace (active_frame_index_ s + 1 - 1) with (active_frame_index_ s)
        by lia.
      now destruct s.
    + apply (EvaluateExpression_at_cursor eval
               (with_active_frame_index_ s (active_frame_index_ s + 1)) expr).
      exact Hroom.
  - intros Hpos Hin.
    unfold ShiftActiveFrame at 2. unfold IsStopped. rewrite Hst.
    apply N.ltb_lt in Hpos. rewrite Hpos. apply N.ltb_lt in Hpos.
    unfold ShiftActiveFrame, IsStopped. simpl. rewrite Hst.
    assert (Hc1 : (Z.of_N (active_frame_index_ s - 1) <= INT_MAX)%Z) by lia.
    rewrite (Hwrap _ Hc1).
    replace (active_frame_index_ s - 1 + 1) with (active_frame_index_ s)
      by lia.
    apply N.ltb_lt in Hin. rewrite Hin. now destruct s.
Qed.

Lemma ShiftActiveFrame_there_and_back_witness :
  let s := run Impl_new
             [EvStart; EvCommand CmdStep; EvContinue;
              EvTrace (line_event "/a.rb" 2
                         [("/a.rb:2", 77); ("/a.rb:9", 78)])] in
  let eval := fun (expr : string) (b : VALUE) =>
                if b =? 78 then "outer" else "inner" in
  (active_frame_index_ s + 1 < size (frames_ s) ->
   ShiftActiveFrame (ShiftActiveFrame s true) false = s /\
   exists frame,
     nth_error (frames_ s) (N.to_nat (active_frame_index_ s + 1))
       = Some frame /\
     EvaluateExpression eval (ShiftActiveFrame s true) "x"
       = eval "x" (binding frame)) /\
  (0 < active_frame_index_ s -> active_frame_index_ s < size (frames_ s) ->
   ShiftActiveFrame (ShiftActiveFrame s false) true = s).
Proof.
  intros s eval. apply (ShiftActiveFrame_there_and_back s eval "x").
  - eexists. reflexivity.
  - reflexivity.
Defined.

(** ** Resolved breakpoints stand in loaded files *)

Lemma in_registry_refresh s bp :
  in_registry (script_lines_ s) bp ->
  in_registry (script_lines_ (ReadScriptLinesHash s)) bp.
Proof.
  intros (lines & Hfind & Hle). exists lines. split; [|exact Hle].
  unfold ReadScriptLinesHash; simpl.
  now rewrite fold_EachKeyValFunc_find, Hfind.
Qed.

Lemma Impl_AddBreakPoint_resolved_In s bp b :
  In b (resolved_breakpoints (fst (Impl_AddBreakPoint s bp true))) ->
  b = snd (Impl_AddBreakPoint s bp true) \/ In b (resolved_breakpoints s).
Proof.
  pose proof (Impl_AddBreakPoint_resolved_split s bp) as H. simpl in H.
  destruct (GetBreakPoint s (file bp) (line bp)).
  - rewrite H. auto.
  - destruct H as (l1 & l2 & -> & ->). intros Hin.
    apply in_app_or in Hin. destruct Hin as [Hin|[<-|Hin]]; auto.
    + right. apply in_or_app. now left.
    + right. apply in_or_app. now right.
Qed.

Lemma in_registry_location reg bp bp' :
  location bp' = location bp -> in_registry reg bp -> in_registry reg bp'.
Proof.
  unfold location, in_registry. intros [= -> ->]. auto.
Qed.

Lemma resolved_in_registry_from it : forall s,
  StdMap.sorted (script_lines_ s) = true ->
  Forall (in_registry (script_lines_ s)) (resolved_breakpoints s) ->
  Forall (in_registry (script_lines_ s))
    (resolved_breakpoints (fst (ResolveBreakPoints_from s it))).
Proof.
  induction it as [|bp it IH]; intros s Hs Hall; simpl; [exact Hall|].
  unfold ResolveBreakPoint.
  pose proof (ResolveBreakPoint_from_in_registry (script_lines_ s) bp Hs)
    as Hreg.
  destruct (ResolveBreakPoint_from (script_lines_ s) bp) as [[|] bp1];
    simpl in Hreg.
  - pose proof (Impl_AddBreakPoint_script_lines s bp1 true) as Hsl.
    pose proof (IH (fst (Impl_AddBreakPoint s bp1 true))) as IH'.
    rewrite Hsl in IH'. apply IH'; [exact Hs|].
    rewrite Forall_forall in *. intros b Hb.
    destruct (Impl_AddBreakPoint_resolved_In s bp1 b Hb) as [->|Hin];
      [|now apply Hall].
    apply (in_registry_location _ bp1); [|now apply Hreg].
    apply Impl_AddBreakPoint_location.
  - specialize (IH s Hs Hall).
    destruct (ResolveBreakPoints_from s it) as [s' kept]. exact IH.
Qed.

Lemma resolved_in_registry_ResolveBreakPoints s :
  registry_ok (script_lines_ s) ->
  Forall (in_registry (script_lines_ s)) (resolved_breakpoints s) ->
  Forall (in_registry (script_lines_ (ResolveBreakPoints s)))
    (resolved_breakpoints (ResolveBreakPoints s)).
Proof.
  intros Hreg Hall.
  destruct (ResolveBreakPoints_rest s) as (Hsl & _ & _). rewrite Hsl.
  apply ReadScriptLinesHash_registry_ok in Hreg. destruct Hreg as [Hs _].
  assert (Hall1 : Forall (in_registry (script_lines_ (ReadScriptLinesHash s)))
                    (resolved_breakpoints (ReadScriptLinesHash s))).
  { rewrite Forall_forall in *. intros b Hb.
    apply in_registry_refresh. now apply Hall. }
  pose proof (resolved_in_registry_from
                (unresolved_breakpoints_ (ReadScriptLinesHash s))
                (ReadScriptLinesHash s) Hs Hall1) as H.
  unfold ResolveBreakPoints.
  destruct (ResolveBreakPoints_from (ReadScriptLinesHash s)
              (unresolved_breakpoints_ (ReadScriptLinesHash s)))
    as [s' kept]. exact H.
Qed.

Lemma In_remove_first index0 l b : In b (remove_first index0 l) -> In b l.
Proof.
  induction l as [|bp l IH]; simpl; [auto|].
  destruct (index bp =? index0); [auto|].
  intros [->|Hin]; auto.
Qed.

Lemma resolved_in_registry_handle s e :
  Inv s ->
  Forall (in_registry (script_lines_ s)) (resolved_breakpoints s) ->
  Forall (in_registry (script_lines_ (handle s e)))
    (resolved_breakpoints (handle s e)).
Proof.
  intros HI Hall. pose proof HI as (_ & Hreg & _).
  destruct e as [|c|hash|trace_arg|]; simpl; try exact Hall.
  - destruct c as [bp|index0| |up| |b e]; simpl.
    + unfold AddBreakPoint, ResolveBreakPoint.
      set (s1 := ReadScriptLinesHash s).
      assert (Hs1 : StdMap.sorted (script_lines_ s1) = true).
      { apply ReadScriptLinesHash_registry_ok in Hreg. apply Hreg. }
      pose proof (ResolveBreakPoint_from_in_registry (script_lines_ s1) bp Hs1)
        as Hbp.
      destruct (ResolveBreakPoint_from (script_lines_ s1) bp) as [ok bp1].
      simpl in Hbp.
      pose proof (Impl_AddBreakPoint_script_lines s1 bp1 ok) as Hsl.
      pose proof (Impl_AddBreakPoint_resolved_In s1 bp1) as Hin.
      pose proof (Impl_AddBreakPoint_location s1 bp1 ok) as Hloc.
      pose proof (Impl_AddBreakPoint_unresolved s1 bp1) as [Hb _].
      destruct (Impl_AddBreakPoint s1 bp1 ok) as [s2 bp2] eqn:Eadd.
      simpl in *. rewrite Hsl.
      rewrite Forall_forall in *. intros b Hb2.
      destruct ok.
      * rewrite Eadd in Hin. simpl in Hin.
        destruct (Hin b Hb2) as [->|Hold].
        -- apply (in_registry_location _ bp1); [exact Hloc|now apply Hbp].
        -- apply in_registry_refresh. now apply Hall.
      * rewrite Eadd in Hb. simpl in Hb.
        apply in_registry_refresh. apply Hall.
        unfold resolved_breakpoints in *. now rewrite <- Hb.
    + destruct (RemoveBreakPoint_lists s index0) as (_ & Hres & _ & _).
      assert (Hsl : script_lines_ (snd (RemoveBreakPoint s index0))
                    = script_lines_ s).
      { unfold RemoveBreakPoint.
        destruct (remove_resolved _ _); [reflexivity|].
        destruct (remove_unresolved _ _); reflexivity. }
      rewrite Hsl, Hres. rewrite Forall_forall in *. intros b Hb.
      apply Hall. now apply (In_remove_first index0).
    + now apply resolved_in_registry_ResolveBreakPoints.
    + unfold ShiftActiveFrame.
      repeat match goal with
             | |- context [if ?c then _ else _] => destruct c
             end; exact Hall.
    + unfold Step. destruct (IsStopped s); exact Hall.
    + assert (Hcases : snd (GetCodeLines s b e) = s \/
                       snd (GetCodeLines s b e) = ReadScriptLinesHash s).
      { unfold GetCodeLines. destruct (IsStopped s); [|now left].
        destruct (StdMap.find _ _); [|now right].
        match goal with
        | |- context [if ?c then _ else _] => destruct c
        end; now right. }
      destruct Hcases as [->| ->]; [exact Hall|].
      rewrite Forall_forall in *. intros bp Hbp.
      apply in_registry_refresh. now apply Hall.
  - destruct trace_arg as [ev path lineno backtrace].
    destruct ev; try exact Hall.
    destruct (break_at_next_line_ s) eqn:Hflag.
    + unfold TraceFunc; simpl. rewrite Hflag. exact Hall.
    + change (mkTraceArg id_line path lineno backtrace)
        with (line_event path lineno backtrace).
      rewrite TraceFunc_not_armed by exact Hflag.
      assert (Hb : Forall (in_registry (script_lines_ (before_lookup s)))
                     (resolved_breakpoints (before_lookup s))).
      { unfold before_lookup. destruct (negb _); [|exact Hall].
        now apply (resolved_in_registry_ResolveBreakPoints (ClearBreakData s)). }
      destruct (GetBreakPoint (before_lookup s) path (size_t_of_int lineno));
        exact Hb.
Qed.

Lemma resolved_in_registry_run events : forall s,
  Inv s ->
  Forall (in_registry (script_lines_ s)) (resolved_breakpoints s) ->
  Forall (in_registry (script_lines_ (run s events)))
    (resolved_breakpoints (run s events)).
Proof.
  induction events as [|e events IH]; intros s HI Hall; [exact Hall|].
  change (run s (e :: events)) with (run (handle s e) events).
  apply IH; [now apply Inv_handle|now apply resolved_in_registry_handle].
Qed.

(** X17. In every reachable state each resolved breakpoint names, with
    its exact spelling, a file the registry knows, and its line number
    does not exceed that file's line count; since the registry never
    forgets or changes a file, this stays so whatever the engine does to
    its hash afterwards. *)
Theorem resolved_breakpoints_stand_in_loaded_files
  (s : Impl) (bp : BreakPoint) :
  reachable s ->
  In bp (resolved_breakpoints s) ->
  exists lines,
    StdMap.find (file bp) (script_lines_ s) = Some lines /\
    line bp <= size lines /\
    In (file bp, lines) (script_lines_ s).
Proof.
  intros [events ->] Hin.
  pose proof (resolved_in_registry_run events Impl_new Inv_new
                (Forall_nil _)) as Hall.
  rewrite Forall_forall in Hall.
  destruct (Hall bp Hin) as (lines & Hfind & Hle).
  exists lines. split; [exact Hfind|]. split; [exact Hle|].
  now apply StdMapFacts.find_In.
Qed.

Lemma resolved_breakpoints_stand_in_loaded_files_witness :
  let s := run Impl_new
             [EvStart; EvEngineLoads [("/lib/Foo.rb", ["x"; "y"; "z"])];
              EvCommand (CmdAddBreakPoint (mkBreakPoint 0 "foo" 3));
              EvEngineLoads []] in
  exists lines,
    StdMap.find "/lib/Foo.rb" (script_lines_ s) = Some lines /\
    3 <= size lines /\
    In ("/lib/Foo.rb", lines) (script_lines_ s).
Proof.
  intros s.
  apply (resolved_breakpoints_stand_in_loaded_files s
           (mkBreakPoint 1 "/lib/Foo.rb" 3)).
  - eexists. reflexivity.
  - left. reflexivity.
Defined.

(** ** Resolving a resolved breakpoint again *)

Lemma string_app_assoc (a b c : string) :
  ((a ++ b) ++ c)%string = (a ++ (b ++ c))%string.
Proof.
  induction a as [|ch a IH]; simpl; [reflexivity|]. now rewrite IH.
Qed.

Lemma string_app_empty_r (a : string) : (a ++ "")%string = a.
Proof.
  induction a as [|ch a IH]; simpl; [reflexivity|]. now rewrite IH.
Qed.

Lemma upcase_app (a b : string) :
  upcase (a ++ b) = (upcase a ++ upcase b)%string.
Proof.
  induction a as [|ch a IH]; simpl; [reflexivity|]. now rewrite IH.
Qed.

Lemma upcase_split (x y : string) : forall m,
  upcase m = (x ++ y)%string ->
  exists m1 m2, m = (m1 ++ m2)%string /\ upcase m1 = x /\ upcase m2 = y.
Proof.
  induction x as [|ch x IH]; intros m Hm; simpl in Hm.
  - exists EmptyString, m. auto.
  - destruct m as [|c m]; simpl in Hm; [discriminate|].
    injection Hm as Hc Hm. destruct (IH m Hm) as (m1 & m2 & -> & H1 & H2).
    exists (String c m1), m2. simpl. rewrite H1, Hc. auto.
Qed.

(** Containment up to letter case is reflexive and transitive. *)
Lemma contains_ci_refl (a : string) : contains_ci a a.
Proof.
  exists EmptyString, a, EmptyString. simpl.
  now rewrite string_app_empty_r.
Qed.

Lemma contains_ci_trans (a b c : string) :
  contains_ci a b -> contains_ci b c -> contains_ci a c.
Proof.
  intros (p & m & q & -> & Hm) (p' & m' & q' & -> & Hm').
  rewrite !upcase_app in Hm.
  destruct (upcase_split _ _ m Hm) as (m1 & m23 & -> & H1 & H23).
  destruct (upcase_split _ _ m23 H23) as (m2 & m3 & -> & H2 & H3).
  exists (p ++ m1)%string, m2, (m3 ++ q)%string.
  split; [|congruence].
  now rewrite !string_app_assoc.
Qed.

Lemma ResolveBreakPoint_from_skip before rest bp :
  Forall (fun e => ~ qualifies bp e) before ->
  ResolveBreakPoint_from (before ++ rest) bp = ResolveBreakPoint_from rest bp.
Proof.
  induction before as [|[file_path lines] before IH]; intros Hall; simpl;
    [reflexivity|].
  inversion Hall as [|e l Hno Hrest]; subst.
  rewrite qualifies_test in Hno.
  destruct (0 <=? FindSubstringCaseInsensitive file_path (file bp))%Z eqn:Ef;
    [destruct (line bp <=? size lines) eqn:El|]; auto.
  exfalso. apply Hno. auto.
Qed.

(** X18. Resolution is stable: a breakpoint that has been resolved
    against a registry resolves against the same registry to itself.  No
    path earlier in the registry's order captures it: such a path would
    have to contain the resolved path, hence the original file text, and
    would have been chosen the first time. *)
Theorem ResolveBreakPoint_of_resolved_is_itself (s : Impl) (bp : BreakPoint) :
  fst (ResolveBreakPoint s bp) = true ->
  ResolveBreakPoint s (snd (ResolveBreakPoint s bp))
  = (true, snd (ResolveBreakPoint s bp)).
Proof.
  unfold ResolveBreakPoint. intros Hok.
  pose proof (ResolveBreakPoint_from_spec (script_lines_ s) bp) as H.
  destruct (ResolveBreakPoint_from (script_lines_ s) bp) as [[|] bp'];
    [|discriminate].
  destruct H as (before & [path lines] & after & Hreg & Hnone
                 & [Hcont Hline] & ->).
  simpl in *. rewrite Hreg.
  rewrite ResolveBreakPoint_from_skip.
  - simpl.
    assert (Hself : (0 <=? FindSubstringCaseInsensitive path path)%Z = true).
    { apply FindSubstringCaseInsensitive_found, contains_ci_refl. }
    rewrite Hself. apply N.leb_le in Hline. now rewrite Hline.
  - rewrite Forall_forall in *. intros e He [Hc Hl].
    apply (Hnone e He). split; [|exact Hl].
    simpl in Hc. now apply contains_ci_trans with path.
Qed.

Lemma ResolveBreakPoint_of_resolved_is_itself_witness :
  let s := with_script_lines_ Impl_new
             [("/lib/a.rb", ["x"]); ("/lib/a.rb.bak", ["x"; "y"]);
              ("/old/lib/a.rb.bak", ["x"; "y"; "z"])] in
  let bp := mkBreakPoint 5 "A.RB" 2 in
  snd (ResolveBreakPoint s bp) = mkBreakPoint 5 "/lib/a.rb.bak" 2 /\
  ResolveBreakPoint s (snd (ResolveBreakPoint s bp))
  = (true, snd (ResolveBreakPoint s bp)).
Proof.
  intros s bp. split; [reflexivity|].
  apply (ResolveBreakPoint_of_resolved_is_itself s bp). reflexivity.
Defined.

(** ** The frames of a halt *)

(** X19. Whenever the hook halts, for a step or for a breakpoint, the
    frames [GetStackFrames] then returns are those of the live backtrace,
    innermost first, each with the backtrace entry's display string and
    binding: all of them when the backtrace has at most [INT_MAX] entries,
    and never more than [INT_MAX] of them. *)
Theorem halt_captures_backtrace (s : Impl) (trace_arg : TraceArg) :
  snd (TraceFunc s trace_arg) <> None ->
  let frames := GetStackFrames (fst (TraceFunc s trace_arg)) in
  (Z.of_N (size frames) <= INT_MAX)%Z /\
  (exists n,
     frames = map (fun e => mkStackFrame (fst e) (snd e))
                (firstn n (tracearg_backtrace trace_arg))) /\
  ((Z.of_nat (List.length (tracearg_backtrace trace_arg)) <= INT_MAX)%Z ->
   frames = map (fun e => mkStackFrame (fst e) (snd e))
              (tracearg_backtrace trace_arg)).
Proof.
  intros Hhalt frames. subst frames.
  destruct trace_arg as [ev path lineno backtrace]. simpl.
  assert (Hframes : GetStackFrames
                      (fst (TraceFunc s (mkTraceArg ev path lineno backtrace)))
                    = Impl_GetStackFrames backtrace).
  { destruct ev;
      try (exfalso; apply Hhalt; unfold TraceFunc; reflexivity).
    destruct (break_at_next_line_ s) eqn:Hflag.
    - unfold TraceFunc; simpl. rewrite Hflag. reflexivity.
    - change (mkTraceArg id_line path lineno backtrace)
        with (line_event path lineno backtrace) in *.
      rewrite TraceFunc_not_armed in * by exact Hflag.
      destruct (GetBreakPoint (before_lookup s) path (size_t_of_int lineno));
        [reflexivity|]. exfalso. now apply Hhalt. }
  rewrite Hframes. split; [apply size_Impl_GetStackFrames|]. split.
  - unfold Impl_GetStackFrames, DebugInspectorFunc. simpl. eexists.
    reflexivity.
  - apply Impl_GetStackFrames_all.
Qed.

Lemma halt_captures_backtrace_witness :
  let s := run Impl_new [EvStart; EvCommand CmdStep; EvContinue] in
  let trace_arg := line_event "/a.rb" 2 [("/a.rb:2", 77); ("/a.rb:9", 78)] in
  let frames := GetStackFrames (fst (TraceFunc s trace_arg)) in
  (Z.of_N (size frames) <= INT_MAX)%Z /\
  (exists n,
     frames = map (fun e => mkStackFrame (fst e) (snd e))
                (firstn n (tracearg_backtrace trace_arg))) /\
  ((Z.of_nat (List.length (tracearg_backtrace trace_arg)) <= INT_MAX)%Z ->
   frames = map (fun e => mkStackFrame (fst e) (snd e))
              (tracearg_backtrace trace_arg)).
Proof.
  intros s trace_arg. apply (halt_captures_backtrace s trace_arg).
  discriminate.
Defined.
